(** * VAULT: search pipeline and snapshot reconciliation

    A shallow embedding of the search and reconciliation code of the photo
    vault: [src/app/page.tsx] (string similarity, text matching, result
    merging, snapshot updates), the semantic-search route and the token
    allowlist, followed by the properties stated about them.

    Conventions of the model.
    - A JavaScript string is a [string]: a sequence of code units.  Case
      mapping, white space and the word class of regular expressions are
      modelled on the ASCII range; other code units are caseless, non-blank
      and not word characters.
    - Array lengths, indices and edit distances are [nat].
    - A similarity score is a ratio of two small integers subtracted from
      one; it is an exact rational [Q], and so is the threshold 0.42 (a
      double and the rational compare alike except when a score ties with
      the threshold).  Embedding coordinates and cosine scores involve
      square roots and are real numbers [R].
    - [new Date(s).getTime()] is an integer: [created_at] strings are valid
      timestamps.
    - [x ?? d] on an optional field is a match on the three states of the
      field (absent, null, present). *)

From Stdlib Require Import ZArith QArith Lqa Reals Lra Lia String Ascii.
From stdpp Require Import base list strings gmap sorting.

Open Scope string_scope.
Open Scope nat_scope.

(* ================================================================= *)
(** * Part I: the program *)
(* ================================================================= *)

(** ** JavaScript strings *)

Module Js.

(** The code units of a string, for indexing [s[i]]. *)
Definition chars (s : string) : list ascii := list_ascii_of_string s.

Definition ofChars (l : list ascii) : string := string_of_list_ascii l.

Definition codeOf (c : ascii) : nat := nat_of_ascii c.

Definition isUpper (c : ascii) : bool :=
  (65 <=? codeOf c) && (codeOf c <=? 90).

Definition lowerChar (c : ascii) : ascii :=
  if isUpper c then ascii_of_nat (codeOf c + 32) else c.

Definition isLower (c : ascii) : bool :=
  (97 <=? codeOf c) && (codeOf c <=? 122).

Definition upperChar (c : ascii) : ascii :=
  if isLower c then ascii_of_nat (codeOf c - 32) else c.

(** [s.toLowerCase()] *)
Definition toLowerCase (s : string) : string :=
  ofChars (map lowerChar (chars s)).

(** White space removed by [trim]: tab, line feed, vertical tab, form
    feed, carriage return and space. *)
Definition isSpace (c : ascii) : bool :=
  ((9 <=? codeOf c) && (codeOf c <=? 13)) || (codeOf c =? 32).

Fixpoint dropSpaces (l : list ascii) : list ascii :=
  match l with
  | c :: l' => if isSpace c then dropSpaces l' else l
  | [] => []
  end.

(** [s.trim()] *)
Definition trim (s : string) : string :=
  ofChars (rev (dropSpaces (rev (dropSpaces (chars s))))).

(** [s.startsWith(p)] *)
Definition startsWith (s p : string) : bool := String.prefix p s.

(** [s.endsWith(p)] *)
Definition endsWith (s p : string) : bool :=
  String.prefix (ofChars (rev (chars p))) (ofChars (rev (chars s))).

(** [h.includes(q)]: [q] occurs in [h] as a contiguous substring. *)
Fixpoint includes (h q : string) : bool :=
  String.prefix q h ||
  match h with
  | EmptyString => false
  | String _ h' => includes h' q
  end.

(** [s.slice(1, -1)] *)
Definition slice1m1 (s : string) : string :=
  ofChars (removelast (tail (chars s))).

(** [parts.join(' ')] *)
Fixpoint joinSpace (parts : list string) : string :=
  match parts with
  | [] => ""
  | [p] => p
  | p :: rest => p ++ " " ++ joinSpace rest
  end.

(** Truthiness of a string: [Boolean(s)], [!s]. *)
Definition truthy (s : string) : bool := negb (bool_decide (s = "")).

End Js.

(** ** String Similarity Engine ([levenshtein], [similarity]) *)

Module Similarity.

(** The table [dp]: an array of rows. *)
Abbreviation table := (list (list nat)).

(** [Array.from({ length: rows }, () => new Array(cols).fill(0))] *)
Definition newTable (rows cols : nat) : table :=
  replicate rows (replicate cols 0).

(** [dp[i][j]] read; the loops never read outside the table. *)
Definition cell (dp : table) (i j : nat) : nat :=
  default 0 (dp !! i ≫= (.!! j)).

(** [dp[i][j] = v] *)
Definition setCell (dp : table) (i j v : nat) : table :=
  alter (<[j := v]>) i dp.

(** [for (let k = from; k <= to; k++) body(k)] on a threaded state. *)
Definition forUpTo {S : Type} (from to : nat) (body : nat → S → S) (s : S) : S :=
  fold_left (fun st k => body k st) (seq from (to + 1 - from)) s.

(** [Math.min(x, y, z)] *)
Definition min3 (x y z : nat) : nat := Nat.min (Nat.min x y) z.

Section Levenshtein.
Variables a b : list ascii.

(** [a[i - 1] === b[j - 1] ? 0 : 1] *)
Definition cost (i j : nat) : nat :=
  if bool_decide (a !! (i - 1) = b !! (j - 1)) then 0 else 1.

Definition innerStep (i j : nat) (dp : table) : table :=
  setCell dp i j
    (min3 (cell dp (i - 1) j + 1)
          (cell dp i (j - 1) + 1)
          (cell dp (i - 1) (j - 1) + cost i j)).

Definition fillTable : table :=
  let al := length a in
  let bl := length b in
  let dp := newTable (al + 1) (bl + 1) in
  let dp := forUpTo 0 al (fun i dp => setCell dp i 0 i) dp in
  let dp := forUpTo 0 bl (fun j dp => setCell dp 0 j j) dp in
  forUpTo 1 al (fun i dp => forUpTo 1 bl (innerStep i) dp) dp.
End Levenshtein.

Definition levenshtein (a b : string) : nat :=
  if bool_decide (a = b) then 0
  else
    let al := String.length a in
    let bl := String.length b in
    if al =? 0 then bl
    else if bl =? 0 then al
    else cell (fillTable (Js.chars a) (Js.chars b)) al bl.

Definition similarity (a b : string) : Q :=
  let len := Nat.max (String.length a) (String.length b) in
  if len =? 0 then 0%Q
  else (1 - inject_Z (Z.of_nat (levenshtein a b)) / inject_Z (Z.of_nat len))%Q.

(** *** The classical recurrence

    The spec's reference: the unit-cost dynamic-programming recurrence on
    prefixes, [d i 0 = i], [d 0 j = j] and
    [d i j = min (d (i-1) j + 1) (d i (j-1) + 1) (d (i-1) (j-1) + [a_i ≠ b_j])]. *)

Fixpoint editDistanceAt (a b : list ascii) (i : nat) : nat → nat :=
  match i with
  | 0 => fun j => j
  | S i' =>
      fix row (j : nat) : nat :=
        match j with
        | 0 => S i'
        | S j' =>
            min3 (editDistanceAt a b i' j + 1)
                 (row j' + 1)
                 (editDistanceAt a b i' j'
                  + (if bool_decide (a !! i' = b !! j') then 0 else 1))
        end
  end.

Definition editDistance (a b : string) : nat :=
  editDistanceAt (Js.chars a) (Js.chars b) (String.length a) (String.length b).

(** The same distance as the least cost of an alignment: [Aligned a b n]
    holds when [a] is turned into [b] by a left-to-right script of
    deletions, insertions and substitutions (each of cost one) and kept
    characters (cost zero) of total cost [n]. *)
Inductive Aligned : list ascii → list ascii → nat → Prop :=
| aligned_nil : Aligned [] [] 0
| aligned_delete a b x n : Aligned a b n → Aligned (a ++ [x]) b (S n)
| aligned_insert a b y n : Aligned a b n → Aligned a (b ++ [y]) (S n)
| aligned_keep a b x n : Aligned a b n → Aligned (a ++ [x]) (b ++ [x]) n
| aligned_subst a b x y n : Aligned a b n → Aligned (a ++ [x]) (b ++ [y]) (S n).

(** *** Invariants of the table

    A table of the given dimensions. *)
Definition shaped (rows cols : nat) (dp : table) : Prop :=
  length dp = rows ∧ ∀ i r, dp !! i = Some r → length r = cols.

(** Rows below [i] are final, row [i] is final left of column [j], and
    column 0 holds its initial values. *)
Definition filledUpTo (a b : list ascii) (i j : nat) (dp : table) : Prop :=
  shaped (length a + 1) (length b + 1) dp
  ∧ (∀ i', i' ≤ length a → cell dp i' 0 = i')
  ∧ (∀ i' j', i' < i → j' ≤ length b → cell dp i' j' = editDistanceAt a b i' j')
  ∧ (∀ j', j' < j → j' ≤ length b → i ≤ length a →
           cell dp i j' = editDistanceAt a b i j').

End Similarity.

Import Similarity.

(** ** Records of the feed *)

(** An optional property [f?: T | null] of an object: the key may be
    missing, hold [null], or hold a value. *)
Inductive field (A : Type) : Type :=
| Absent
| Null
| Has (a : A).
Arguments Absent {A}.
Arguments Null {A}.
Arguments Has {A} a.

(** [x ?? d] *)
Definition orElse {A : Type} (x : field A) (d : A) : A :=
  match x with
  | Has a => a
  | Absent | Null => d
  end.

(** Truthiness of an optional boolean, [flag ? ... : ...]. *)
Definition isTrue (x : field bool) : bool := orElse x false.

(** A JavaScript number that is not an index or a length. *)
Definition number := R.

Record Photo : Type := mkPhoto {
  id : string;
  image_url : string;
  created_at : string;
  storage_path : field string;
  source_url : field string;
  caption : field string;
  tags : field (list string);
  colors : field (list string);
  embedding : field (list number);
  content_type : field string;
  domain_tags : field (list string);
  has_people : field bool;
  people_count : field number;
  is_screenshot : field bool;
  vibe_tags : field (list string);
}.

(** One property of [{ ...p, ...u }]: the later object wins wherever it has
    the key, whatever the key holds. *)
Definition over {A : Type} (old new : field A) : field A :=
  match new with
  | Absent => old
  | Null | Has _ => new
  end.

(** [{ ...p, ...u }] for two photos.  The three required keys are always
    present in [u]. *)
Definition spread (p u : Photo) : Photo :=
  {| id := id u;
     image_url := image_url u;
     created_at := created_at u;
     storage_path := over (storage_path p) (storage_path u);
     source_url := over (source_url p) (source_url u);
     caption := over (caption p) (caption u);
     tags := over (tags p) (tags u);
     colors := over (colors p) (colors u);
     embedding := over (embedding p) (embedding u);
     content_type := over (content_type p) (content_type u);
     domain_tags := over (domain_tags p) (domain_tags u);
     has_people := over (has_people p) (has_people u);
     people_count := over (people_count p) (people_count u);
     is_screenshot := over (is_screenshot p) (is_screenshot u);
     vibe_tags := over (vibe_tags p) (vibe_tags u) |}.

(** ** The host: dates

    [new Date(s).getTime()] and the two [Intl.DateTimeFormat] renderings of
    a [created_at] string are supplied by the runtime and its locale. *)
Class Host : Type := {
  getTime : string → Z;
  formatLong : string → string;
  formatShort : string → string;
}.

(** [arr.sort(comparefn)] is a stable sort; [before x y] stands for
    [comparefn(x, y) <= 0]. *)
Section JsSort.
Context {A : Type} (before : A → A → bool).

Fixpoint sortInsert (x : A) (l : list A) : list A :=
  match l with
  | [] => [x]
  | y :: l' => if before x y then x :: l else y :: sortInsert x l'
  end.

Definition jsSort (l : list A) : list A := foldr sortInsert [] l.
End JsSort.

(** ** Regular expressions of the exact-phrase search *)

Module Regex.

(** The patterns built by the page: word boundaries and literal
    characters. *)
Inductive atom : Type :=
| WordBoundary
| Lit (c : ascii).

(** The characters of the class [[.*+?^${}()|[\]\\]]. *)
Definition isMeta (c : ascii) : bool :=
  bool_decide (c ∈ Js.chars ".*+?^${}()|[]\").

(** [str.replace(/[.*+?^${}()|[\]\\]/g, '\\$&')] *)
Fixpoint escapeChars (l : list ascii) : list ascii :=
  match l with
  | [] => []
  | c :: l' => if isMeta c then "\"%char :: c :: escapeChars l' else c :: escapeChars l'
  end.

Definition escapeRegExp (str : string) : string :=
  Js.ofChars (escapeChars (Js.chars str)).

(** Reading a pattern source: [\b] is a word boundary, a backslash before
    a character of the class above is that character, any other character
    outside the class stands for itself.  Other syntax is not produced by
    the page and is not read. *)
Fixpoint parseChars (l : list ascii) : option (list atom) :=
  match l with
  | [] => Some []
  | c :: l' =>
      if bool_decide (c = "\"%char) then
        match l' with
        | e :: l'' =>
            if bool_decide (e = "b"%char) then cons WordBoundary <$> parseChars l''
            else if isMeta e then cons (Lit e) <$> parseChars l''
            else None
        | [] => None
        end
      else if isMeta c then None
      else cons (Lit c) <$> parseChars l'
  end.

(** [new RegExp(source, 'i')] *)
Definition compile (source : string) : option (list atom) :=
  parseChars (Js.chars source).

(** [\w] *)
Definition isWordChar (c : ascii) : bool :=
  Js.isUpper c || Js.isLower c
  || ((48 <=? Js.codeOf c) && (Js.codeOf c <=? 57))
  || bool_decide (c = "_"%char).

Definition isWord (c : option ascii) : bool :=
  match c with
  | Some c => isWordChar c
  | None => false
  end.

(** Case folding of the [i] flag. *)
Definition canonicalize (c : ascii) : ascii := Js.upperChar c.

(** The pattern matches starting here; [prev] is the character before the
    current position, if any. *)
Fixpoint matchHere (r : list atom) (prev : option ascii) (rest : list ascii) : bool :=
  match r with
  | [] => true
  | WordBoundary :: r' =>
      negb (eqb (isWord prev) (isWord (head rest))) && matchHere r' prev rest
  | Lit c :: r' =>
      match rest with
      | x :: rest' =>
          bool_decide (canonicalize x = canonicalize c) && matchHere r' (Some x) rest'
      | [] => false
      end
  end.

(** The pattern matches at some position. *)
Fixpoint matchFrom (r : list atom) (prev : option ascii) (rest : list ascii) : bool :=
  matchHere r prev rest ||
  match rest with
  | x :: rest' => matchFrom r (Some x) rest'
  | [] => false
  end.

(** [regex.test(s)] *)
Definition test (r : list atom) (s : string) : bool :=
  matchFrom r None (Js.chars s).

(** The string holds a word character. *)
Definition hasWordChar (s : string) : bool := existsb isWordChar (Js.chars s).

(** [\b] holds between [prev] and [next]. *)
Definition boundary (prev next : option ascii) : Prop := isWord prev ≠ isWord next.

(** The character before the position reached after reading [read]. *)
Definition lastOr (prev : option ascii) (read : list ascii) : option ascii :=
  match last read with
  | Some c => Some c
  | None => prev
  end.

(** [phrase] occurs in [text] between word boundaries, letter case
    aside: [text] splits into [pre ++ mid ++ post] where [mid] spells
    [phrase], and on each side of [mid] exactly one neighbour of the
    position is a word character. *)
Definition occursAsWords (phrase text : string) : Prop :=
  ∃ pre mid post : list ascii,
    Js.chars text = (pre ++ mid ++ post)%list
    ∧ map canonicalize mid = map canonicalize (Js.chars phrase)
    ∧ isWord (last pre) ≠ isWord (head (mid ++ post)%list)
    ∧ isWord (last (pre ++ mid)%list) ≠ isWord (head post).

End Regex.

(** ** Text Matcher and Result Merger ([Home] in [page.tsx]) *)

(** The double quote that wraps an exact phrase. *)
Definition dquote : string := String (ascii_of_nat 34) EmptyString.

(** [{ photo, score }] *)
Record Scored : Type := mkScored { photo : Photo; score : Q }.

(** [Math.max(x, y)] on scores. *)
Definition maxQ (x y : Q) : Q := if Qle_bool x y then y else x.

Section Home.
Context `{Host}.

(** [(a, b) => new Date(b.created_at).getTime() - new Date(a.created_at).getTime()] *)
Definition byDateDesc (a b : Photo) : bool :=
  (getTime (created_at b) - getTime (created_at a) <=? 0)%Z.

Definition sortByDate (l : list Photo) : list Photo := jsSort byDateDesc l.

Definition sortedPhotos (photos : list Photo) : list Photo := sortByDate photos.

Definition searchQuery (search : string) : string := Js.trim search.

Definition searchLower (search : string) : string :=
  Js.toLowerCase (searchQuery search).

Definition isNoteSearch (search : string) : bool :=
  Js.startsWith (searchLower search) "note:".

Definition isExactPhrase (search : string) : bool :=
  (1 <? String.length (searchQuery search))
  && Js.startsWith (searchQuery search) dquote
  && Js.endsWith (searchQuery search) dquote.

Definition exactTerm (search : string) : string :=
  if isExactPhrase search
  then Js.toLowerCase (Js.trim (Js.slice1m1 (searchQuery search)))
  else "".

Definition hasSearch (search : string) : bool := Js.truthy (searchQuery search).

(** The searchable fields of a photo, in the order of the array literal. *)
Definition textFields (photo : Photo) : list string :=
  ([orElse (caption photo) ""]
   ++ orElse (tags photo) []
   ++ orElse (colors photo) []
   ++ [orElse (content_type photo) ""]
   ++ orElse (domain_tags photo) []
   ++ orElse (vibe_tags photo) []
   ++ [if isTrue (has_people photo) then "people" else "";
       if isTrue (is_screenshot photo) then "screenshot" else ""])%list.

Definition tokens (photo : Photo) : list string :=
  map Js.toLowerCase (textFields photo).

(** [(a, b) => b.score - a.score] *)
Definition byScoreDesc (a b : Scored) : bool := Qle_bool (score b - score a) 0.

Section Scoring.
(** The similarity function called by the scoring loop. *)
Variable sim : string → string → Q.

(** The body of [tokens.forEach]. *)
Definition scoreToken (query : string) (best : Q) (token : string) : Q :=
  if negb (Js.truthy token) then best
  else if Js.includes token query then maxQ best 1
  else maxQ best (sim query token).

Definition bestScoreWith (query : string) (photo : Photo) : Q :=
  fold_left (scoreToken query) (tokens photo) 0%Q.

Definition fuzzyMatchesWith (search : string) (photos : list Photo) : list Photo :=
  let query := searchLower search in
  if isNoteSearch search || isExactPhrase search || (String.length query <? 3)
  then []
  else
    map photo
      (jsSort byScoreDesc
         (List.filter (fun s => Qle_bool (42 # 100) (score s))
            (map (fun p => mkScored p (bestScoreWith query p))
               (sortedPhotos photos)))).
End Scoring.

Definition bestScore : string → Photo → Q := bestScoreWith similarity.

Definition fuzzyMatches : string → list Photo → list Photo :=
  fuzzyMatchesWith similarity.

(** The text searched by the substring and exact-phrase filters. *)
Definition haystack (photo : Photo) : string :=
  Js.toLowerCase
    (Js.joinSpace
       (textFields photo
        ++ [formatLong (created_at photo); formatShort (created_at photo)])%list).

(** [new RegExp(`\\b${escapeRegExp(exactTerm)}\\b`, 'i')] *)
Definition phraseRegex (term : string) : option (list Regex.atom) :=
  Regex.compile ("\b" ++ Regex.escapeRegExp term ++ "\b").

Definition fallbackFiltered (search : string) (photos : list Photo) : list Photo :=
  let query := searchLower search in
  if negb (Js.truthy query) then sortedPhotos photos
  else if isExactPhrase search && negb (Js.truthy (exactTerm search))
  then sortedPhotos photos
  else
    let regex :=
      if isExactPhrase search && Js.truthy (exactTerm search)
      then Some (phraseRegex (exactTerm search))
      else None in
    List.filter
      (fun p =>
         match regex with
         | Some (Some r) => Regex.test r (haystack p)
         | Some None => false
         | None => Js.includes (haystack p) query
         end)
      (sortedPhotos photos).

(** The body of the two [forEach] loops of the merge. *)
Definition pushIfNew (st : gset string * list Photo) (p : Photo)
  : gset string * list Photo :=
  if bool_decide (id p ∈ st.1) then st
  else ({[id p]} ∪ st.1, (st.2 ++ [p])%list).

Definition mergeUnique (fuzzy fallback : list Photo) : list Photo :=
  (fold_left pushIfNew fallback (fold_left pushIfNew fuzzy (∅, []))).2.

(** [semanticPhotos && semanticPhotos.length] *)
Definition nonEmpty {A : Type} (l : option (list A)) : bool :=
  match l with
  | Some (_ :: _) => true
  | Some [] | None => false
  end.

Definition displayPhotosWith (fuzzy : list Photo)
    (search : string) (photos : list Photo)
    (semanticPhotos : option (list Photo)) : list Photo :=
  if negb (hasSearch search) || isNoteSearch search then sortedPhotos photos
  else if isExactPhrase search then sortByDate (fallbackFiltered search photos)
  else if nonEmpty semanticPhotos then sortByDate (default [] semanticPhotos)
  else if 0 <? length fuzzy then
    sortByDate (mergeUnique fuzzy (fallbackFiltered search photos))
  else sortByDate (fallbackFiltered search photos).

Definition displayPhotos (search : string) (photos : list Photo)
    (semanticPhotos : option (list Photo)) : list Photo :=
  displayPhotosWith (fuzzyMatches search photos) search photos semanticPhotos.

End Home.

(** ** Reconciliation Loop (the [photos] state of [Home]) *)

Module Reconciliation.

(** [photos] with the two refs that the polls read.  An updater passed to
    [setPhotos] runs on the current [photos]; the refs are copied from it
    only when the effect on [photos] runs after the next render. *)
Record Store : Type := mkStore {
  photos : list Photo;
  photosRef : list Photo;
  latestCreatedAtRef : option string;
}.

Definition sameId (a b : Photo) : bool := String.eqb (id a) (id b).

(** The updater of [addPhotoIfNew]. *)
Definition addPhotoIfNew (photo : Photo) (prev : list Photo) : list Photo :=
  if existsb (fun p => sameId p photo) prev then prev else photo :: prev.

(** The [filter] with the [seen] set of [loadPhotos]. *)
Definition keepUnseen (st : gset string * list Photo) (p : Photo)
  : gset string * list Photo :=
  if bool_decide (id p ∈ st.1) then st
  else ({[id p]} ∪ st.1, (st.2 ++ [p])%list).

Definition unique (data : list Photo) : list Photo :=
  (fold_left keepUnseen data (∅, [])).2.

(** The updater of the realtime [UPDATE] handler. *)
Definition applyUpdate (updated : Photo) (prev : list Photo) : list Photo :=
  map (fun p => if sameId p updated then spread p updated else p) prev.

(** The filter of [pollForEnrichment]:
    [(!p.tags || p.tags.length === 0) && (!p.caption || !p.caption.trim())] *)
Definition isPending (p : Photo) : bool :=
  (match tags p with Has (_ :: _) => false | _ => true end)
  && (match caption p with Has c => negb (Js.truthy (Js.trim c)) | _ => true end).

Definition pending (st : Store) : list Photo := List.filter isPending (photosRef st).

(** [updates.set(p.id, p)] for every fetched row. *)
Definition updatesOf (data : list Photo) : gmap string Photo :=
  fold_left (fun m p => <[id p := p]> m) data ∅.

(** The updater of [pollForEnrichment]. *)
Definition applyEnrichment (data : list Photo) (prev : list Photo) : list Photo :=
  map (fun p => match updatesOf data !! id p with
                | Some u => spread p u
                | None => p
                end) prev.

(** The updater of [TagEditor]'s [onChange]:
    [{ ...p, tags, embedding: embedding ?? p.embedding }] *)
Definition applyTags (selected : string) (newTags : option (list string))
    (newEmbedding : field (list number)) (prev : list Photo) : list Photo :=
  map (fun p =>
         if String.eqb (id p) selected then
           {| id := id p; image_url := image_url p; created_at := created_at p;
              storage_path := storage_path p; source_url := source_url p;
              caption := caption p;
              tags := match newTags with Some t => Has t | None => Null end;
              colors := colors p;
              embedding := match newEmbedding with
                           | Has e => Has e
                           | Absent | Null => embedding p
                           end;
              content_type := content_type p; domain_tags := domain_tags p;
              has_people := has_people p; people_count := people_count p;
              is_screenshot := is_screenshot p; vibe_tags := vibe_tags p |}
         else p) prev.

(** What reaches the page. *)
Inductive event : Type :=
| LoadedPhotos (data : list Photo)        (* [loadPhotos] got its rows *)
| InsertPushed (photo : Photo)            (* realtime INSERT *)
| UpdatePushed (updated : Photo)          (* realtime UPDATE *)
| Uploaded (photo : Photo)                (* [uploadFile] finished *)
| EnrichmentFetched (data : list Photo)   (* rows of [pollForEnrichment] *)
| NewFetched (data : list Photo)          (* rows of [pollForNew] *)
| TagsChanged (selected : string) (newTags : option (list string))
              (newEmbedding : field (list number))
| Deleted (photo : Photo)                 (* [handleDelete] succeeded *)
| Rendered.                               (* the effect on [photos] ran *)

Definition setPhotos (f : list Photo → list Photo) (st : Store) : Store :=
  {| photos := f (photos st);
     photosRef := photosRef st;
     latestCreatedAtRef := latestCreatedAtRef st |}.

(** The continuation of [pollForNew] after the rows arrive. *)
Definition pollForNewFetched (data : list Photo) (st : Store) : Store :=
  match data with
  | [] => st
  | _ =>
      let existing : gset string := list_to_set (map id (photosRef st)) in
      let newOnes := List.filter (fun p => negb (bool_decide (id p ∈ existing))) data in
      match newOnes with
      | [] => st
      | _ => setPhotos (fun prev => (newOnes ++ prev)%list) st
      end
  end.

(** [pollForNew] asks for rows created after this instant, if any. *)
Definition pollForNewQuery (ownerId : option string) (visible : bool) (st : Store)
  : option string :=
  match ownerId with
  | None => None
  | Some _ => if visible then latestCreatedAtRef st else None
  end.

Definition step (st : Store) (e : event) : Store :=
  match e with
  | LoadedPhotos data =>
      {| photos := unique data;
         photosRef := photosRef st;
         latestCreatedAtRef :=
           match data with
           | p :: _ => Some (created_at p)
           | [] => latestCreatedAtRef st
           end |}
  | InsertPushed photo | Uploaded photo => setPhotos (addPhotoIfNew photo) st
  | UpdatePushed updated => setPhotos (applyUpdate updated) st
  | EnrichmentFetched data =>
      match data with
      | [] => st
      | _ => setPhotos (applyEnrichment data) st
      end
  | NewFetched data => pollForNewFetched data st
  | TagsChanged selected newTags newEmbedding =>
      setPhotos (applyTags selected newTags newEmbedding) st
  | Deleted photo =>
      setPhotos (List.filter (fun p => negb (String.eqb (id p) (id photo)))) st
  | Rendered =>
      {| photos := photos st;
         photosRef := photos st;
         latestCreatedAtRef :=
           match photos st with
           | p :: _ => Some (created_at p)
           | [] => latestCreatedAtRef st
           end |}
  end.

Definition run (st : Store) (es : list event) : Store := fold_left step es st.

Definition initial : Store :=
  {| photos := []; photosRef := []; latestCreatedAtRef := None |}.

Definition ids (st : Store) : list string := map id (photos st).

(** No two entries share an id. *)
Definition uniqueIds (l : list Photo) : Prop := NoDup (map id l).

End Reconciliation.

(** ** Semantic Matcher: the [semantic-search] route *)

Module SemanticSearch.

#[global] Instance number_eq_dec : EqDecision number := Req_dec_T.
#[global] Instance number_le_dec : RelDecision Rle := Rle_dec.

(** The body of the loop of [cosineSimilarity]. *)
Definition accumulate (a b : list number) (acc : number * number * number) (i : nat)
  : number * number * number :=
  let '(dot, magA, magB) := acc in
  (dot + nth i a 0 * nth i b 0,
   magA + nth i a 0 * nth i a 0,
   magB + nth i b 0 * nth i b 0)%R.

Definition cosineSimilarity (a b : list number) : number :=
  let len := Nat.min (length a) (length b) in
  let '(dot, magA, magB) := fold_left (accumulate a b) (seq 0 len) (0, 0, 0)%R in
  if bool_decide (magA = 0%R) || bool_decide (magB = 0%R) then 0%R
  else (dot / (sqrt magA * sqrt magB))%R.

(** [{ photo, score }] *)
Record Scored : Type := mkScored { photo : Photo; score : number }.

Definition MIN_SCORE : number := (28 / 100)%R.
Definition MAX_RESULTS : nat := 40.

(** [Array.isArray(p.embedding)] *)
Definition hasEmbedding (p : Photo) : bool :=
  match embedding p with
  | Has _ => true
  | Absent | Null => false
  end.

Definition scoreAll (queryEmbedding : list number) (data : list Photo) : list Scored :=
  map (fun p => mkScored p (cosineSimilarity queryEmbedding (orElse (embedding p) [])))
    (List.filter hasEmbedding data).

(** [(a, b) => b.score - a.score] *)
Definition byScoreDesc (a b : Scored) : bool :=
  bool_decide (score b - score a <= 0)%R.

Definition top (scored : list Scored) : list Photo :=
  map photo
    (take MAX_RESULTS
       (jsSort byScoreDesc
          (List.filter (fun s => bool_decide (MIN_SCORE <= score s)%R) scored))).

(** The score of a row against the query, the rows that pass the
    threshold, and the ranking that [top] cuts. *)
Definition scoreOf (queryEmbedding : list number) (p : Photo) : number :=
  cosineSimilarity queryEmbedding (orElse (embedding p) []).

Definition qualifies (queryEmbedding : list number) (p : Photo) : bool :=
  hasEmbedding p && bool_decide (MIN_SCORE <= scoreOf queryEmbedding p)%R.

Definition kept (queryEmbedding : list number) (data : list Photo) : list Scored :=
  List.filter (fun s => bool_decide (MIN_SCORE <= score s)%R)
    (scoreAll queryEmbedding data).

Definition ranked (queryEmbedding : list number) (data : list Photo) : list Scored :=
  jsSort byScoreDesc (kept queryEmbedding data).

(** The parsed request body. *)
Record Request : Type := mkRequest { query : field string; ownerId : field string }.

(** The embeddings call: it throws, or answers without a vector, or
    answers with one. *)
Inductive EmbedResult : Type :=
| EmbedThrows
| EmbedEmpty
| Embedded (v : list number).

(** The rows query: [{ data, error }]. *)
Inductive SelectResult : Type :=
| SelectError
| Selected (data : option (list Photo)).

Inductive Response : Type :=
| Plain (status : nat) (message : string)
| JsonPhotos (photos : list Photo).

(** [POST]; [req = None] when [req.json()] throws. *)
Definition POST (req : option Request)
    (embed : string → EmbedResult) (select : string → SelectResult) : Response :=
  match req with
  | None => Plain 500 "Error performing semantic search"
  | Some r =>
      let text := Js.trim (orElse (query r) "") in
      if negb (Js.truthy text) then Plain 400 "Missing query"
      else if negb (Js.truthy (orElse (ownerId r) "")) then Plain 400 "Missing ownerId"
      else
        match embed text with
        | EmbedThrows => Plain 500 "Error performing semantic search"
        | EmbedEmpty => Plain 500 "Embedding failed"
        | Embedded queryEmbedding =>
            match select (orElse (ownerId r) "") with
            | SelectError => Plain 500 "Error fetching photos"
            | Selected data =>
                JsonPhotos (top (scoreAll queryEmbedding (default [] data)))
            end
        end
  end.

End SemanticSearch.

(** ** Semantic Matcher: the debounced effect of [Home] *)

Module SemanticEffect.

(** What [res.json()] yields: it throws, or gives an object whose
    [photos] key may be missing. *)
Inductive Body : Type :=
| Unparseable
| JsonObject (photos : field (list Photo)).

Record HttpResponse : Type := mkResponse { status : nat; body : Body }.

(** [fetch] rejects or resolves. *)
Inductive FetchResult : Type :=
| Rejected
| Resolved (res : HttpResponse).

(** What the user or the console gets to see. *)
Inductive Effect : Type :=
| ConsoleError (message : string)
| Alert (message : string).

(** [res.ok] *)
Definition ok (res : HttpResponse) : bool :=
  (200 <=? status res) && (status res <=? 299).

(** The guard of the effect: the request to send after the delay, or
    [None] when [semanticPhotos] is reset at once. *)
Definition request `{Host} (search : string) (ownerId : option string)
  : option SemanticSearch.Request :=
  let query := Js.trim search in
  match ownerId with
  | Some owner =>
      if negb (Js.truthy query) || isNoteSearch search || isExactPhrase search
         || negb (Js.truthy owner)
      then None
      else Some (SemanticSearch.mkRequest (Has query) (Has owner))
  | None => None
  end.

(** The body of the timeout: the new [semanticPhotos] and what was
    shown or logged. *)
Definition fetched (r : FetchResult) : option (list Photo) * list Effect :=
  match r with
  | Rejected => (None, [ConsoleError "semantic search error:"])
  | Resolved res =>
      if negb (ok res) then (None, [ConsoleError "semantic search error:"])
      else
        match body res with
        | Unparseable => (None, [ConsoleError "semantic search error:"])
        | JsonObject (Has photos) => (Some photos, [])
        | JsonObject (Absent | Null) => (None, [])
        end
  end.

(** How a response of the route reaches [fetch]. *)
Definition transport (r : SemanticSearch.Response) : FetchResult :=
  match r with
  | SemanticSearch.Plain status _ => Resolved (mkResponse status Unparseable)
  | SemanticSearch.JsonPhotos photos => Resolved (mkResponse 200 (JsonObject (Has photos)))
  end.

(** The request did not yield a list of photos: [fetch] rejected, the
    status is not a success, the body does not parse, or the object has
    no [photos]. *)
Definition failed (r : FetchResult) : bool :=
  match r with
  | Rejected => true
  | Resolved res =>
      negb (ok res)
      || match body res with
         | Unparseable => true
         | JsonObject (Has _) => false
         | JsonObject (Absent | Null) => true
         end
  end.

Definition isAlert (e : Effect) : bool :=
  match e with
  | Alert _ => true
  | ConsoleError _ => false
  end.

End SemanticEffect.

(** ** Token allowlist ([lib/tokens]) *)

Module Tokens.

Record Entry : Type := mkEntry { token : string; ownerId : string }.

Definition tokenOwners : list Entry :=
  [ mkEntry "kb2RJVeoF_7fY-zK4ZUv-DG" "8694ca67-e244-4ad3-b5f0-9d8ac6551e92";
    mkEntry "RVmm-LL2kQcT6fHGPXb4ui@" "6cf55fd2-64f7-41ee-af7e-e37019119bfb" ].

(** [s.trim().toLowerCase()] *)
Definition normalize (s : string) : string := Js.toLowerCase (Js.trim s).

(** The test of [find] for a supplied token [t]. *)
Definition matches (t : string) (e : Entry) : bool :=
  String.eqb (normalize (token e)) (normalize t).

Section Lookup.
Variable table : list Entry.

Definition lookupIn (token : field string) : option string :=
  match token with
  | Absent | Null => None
  | Has t =>
      if negb (Js.truthy t) then None
      else
        match List.find (matches t) table with
        | Some found => Some (ownerId found)
        | None => None
        end
  end.
End Lookup.

Definition ownerIdForToken (token : field string) : option string :=
  lookupIn tokenOwners token.

End Tokens.

(** ** Sample rows *)

(** A row as the store returns it right after its insertion: every
    enrichment column is [null]. *)
Definition freshRow (id created_at : string) : Photo :=
  {| id := id; image_url := "https://vault.example/" ++ id; created_at := created_at;
     storage_path := Null; source_url := Null; caption := Null; tags := Null;
     colors := Null; embedding := Null; content_type := Null; domain_tags := Null;
     has_people := Null; people_count := Null; is_screenshot := Null;
     vibe_tags := Null |}.

Definition withTags (t : field (list string)) (p : Photo) : Photo :=
  {| id := id p; image_url := image_url p; created_at := created_at p;
     storage_path := storage_path p; source_url := source_url p; caption := caption p;
     tags := t;
     colors := colors p; embedding := embedding p; content_type := content_type p;
     domain_tags := domain_tags p; has_people := has_people p;
     people_count := people_count p; is_screenshot := is_screenshot p;
     vibe_tags := vibe_tags p |}.

Definition withCaption (c : field string) (p : Photo) : Photo :=
  {| id := id p; image_url := image_url p; created_at := created_at p;
     storage_path := storage_path p; source_url := source_url p; caption := c;
     tags := tags p;
     colors := colors p; embedding := embedding p; content_type := content_type p;
     domain_tags := domain_tags p; has_people := has_people p;
     people_count := people_count p; is_screenshot := is_screenshot p;
     vibe_tags := vibe_tags p |}.

(** A host for the examples: [created_at] strings are decimal seconds and
    both formatters print one fixed day. *)
Definition decimalTime (s : string) : Z :=
  fold_left (fun n c => (10 * n + (Z.of_nat (Js.codeOf c) - 48))%Z) (Js.chars s) 0%Z.

Definition sampleHost : Host :=
  {| getTime := decimalTime;
     formatLong := fun _ => "January 5, 2024";
     formatShort := fun _ => "Jan 5, 2024" |}.

(** ** Quantities used to state further properties *)

(** [sum (i < n) of a[i] * b[i]]: what the loop of [cosineSimilarity] has
    accumulated after [n] rounds. *)
Fixpoint dotUpTo (a b : list number) (n : nat) : number :=
  match n with
  | 0 => 0%R
  | S n' => (dotUpTo a b n' + nth n' a 0 * nth n' b 0)%R
  end.

(** [a] may stand before [b] in a list that shows the newest first. *)
Definition newerFirst `{Host} (a b : Photo) : Prop :=
  (getTime (created_at b) <= getTime (created_at a))%Z.

(** The records of [l] whose id is neither in [seen] nor carried by an
    earlier record of [l]. *)
Fixpoint firstById (seen : gset string) (l : list Photo) : list Photo :=
  match l with
  | [] => []
  | p :: l' =>
      if bool_decide (id p ∈ seen) then firstById seen l'
      else p :: firstById ({[id p]} ∪ seen) l'
  end.

(** The events that rewrite fields of the entries or copy the refs. *)
Definition keepsEntries (e : Reconciliation.event) : bool :=
  match e with
  | Reconciliation.UpdatePushed _
  | Reconciliation.EnrichmentFetched _
  | Reconciliation.TagsChanged _ _ _
  | Reconciliation.Rendered => true
  | _ => false
  end.

(** Along the run, the rows of every new-records poll have distinct ids
    and are handled while [photosRef] holds the ids of [photos]. *)
Fixpoint pollsInSync (st : Reconciliation.Store) (es : list Reconciliation.event) : Prop :=
  match es with
  | [] => True
  | e :: es' =>
      match e with
      | Reconciliation.NewFetched data =>
          map id (Reconciliation.photosRef st) = map id (Reconciliation.photos st)
          ∧ Reconciliation.uniqueIds data
      | _ => True
      end
      ∧ pollsInSync (Reconciliation.step st e) es'
  end.

(** The score of one non-empty token against the query. *)
Definition tokenScore (query token : string) : Q :=
  if Js.includes token query then 1%Q else similarity query token.

(** The guard that empties the fuzzy list. *)
Definition skipsFuzzy (search : string) : bool :=
  isNoteSearch search || isExactPhrase search
  || (String.length (searchLower search) <? 3).

(** The record reaches the threshold of the fuzzy list. *)
Definition isFuzzyHit (query : string) (p : Photo) : bool :=
  Qle_bool (42 # 100) (bestScore query p).

(** The list starts with no blank. *)
Definition noLeadingSpace (l : list ascii) : Prop :=
  match l with
  | [] => True
  | c :: _ => Js.isSpace c = false
  end.

(** ** Notes and the mixed feed of [Home] *)

Module Note.
Record t : Type := mk { id : string; body : field string; created_at : string }.
End Note.

Module Feed.

(** [FeedItem]: a photo or a note, with a copy of its [created_at]. *)
Inductive FeedItem : Type :=
| PhotoItem (created_at : string) (photo : Photo)
| NoteItem (created_at : string) (note : Note.t).

Definition itemCreatedAt (i : FeedItem) : string :=
  match i with
  | PhotoItem c _ | NoteItem c _ => c
  end.

(** [{ kind: 'note', created_at: note.created_at, note }] *)
Definition ofNote (note : Note.t) : FeedItem := NoteItem (Note.created_at note) note.

(** [{ kind: 'photo', created_at: photo.created_at, photo }] *)
Definition ofPhoto (photo : Photo) : FeedItem := PhotoItem (created_at photo) photo.

(** [s.replace(/^note:/, '')] *)
Definition stripNotePrefix (s : string) : string :=
  if Js.startsWith s "note:" then Js.ofChars (drop 5 (Js.chars s)) else s.

Definition noteSearchQuery (search : string) : string :=
  if isNoteSearch search then Js.trim (stripNotePrefix (searchLower search)) else "".

(** [pinnedNoteIds.includes(id)] *)
Definition isNotePinned (pinnedNoteIds : list string) (id : string) : bool :=
  bool_decide (id ∈ pinnedNoteIds).

(** [a.kind === 'note' && isNotePinned(a.note.id)] *)
Definition itemPinned (pinnedNoteIds : list string) (i : FeedItem) : bool :=
  match i with
  | NoteItem _ note => isNotePinned pinnedNoteIds (Note.id note)
  | PhotoItem _ _ => false
  end.

Section WithHost.
Context `{Host}.

Definition byNoteDateDesc (a b : Note.t) : bool :=
  (getTime (Note.created_at b) - getTime (Note.created_at a) <=? 0)%Z.

Definition noteSearchResults (search : string) (notes : list Note.t) : list Note.t :=
  if negb (isNoteSearch search) then []
  else if negb (Js.truthy (noteSearchQuery search)) then notes
  else
    let q := Js.toLowerCase (noteSearchQuery search) in
    jsSort byNoteDateDesc
      (List.filter
         (fun n => Js.includes (Js.toLowerCase (orElse (Note.body n) "")) q)
         notes).

(** The notes a note search keeps: all of them for an empty query,
    else those whose body holds the query, whatever the case of its
    letters. *)
Definition noteMatches (search : string) (n : Note.t) : bool :=
  negb (Js.truthy (noteSearchQuery search))
  || Js.includes (Js.toLowerCase (orElse (Note.body n) "")) (noteSearchQuery search).

(** The comparison of [sortFeedItems] puts [a] first or leaves the two
    as they are. *)
Definition feedBefore (pinnedNoteIds : list string) (a b : FeedItem) : bool :=
  let aPinned := itemPinned pinnedNoteIds a in
  let bPinned := itemPinned pinnedNoteIds b in
  if negb (eqb aPinned bPinned) then aPinned
  else (getTime (itemCreatedAt b) - getTime (itemCreatedAt a) <=? 0)%Z.

Definition sortFeedItems (pinnedNoteIds : list string) (items : list FeedItem)
  : list FeedItem :=
  jsSort (feedBefore pinnedNoteIds) items.

Definition displayItems (search : string) (notes : list Note.t) (photos : list Photo)
    (semanticPhotos : option (list Photo)) (pinnedNoteIds : list string)
  : list FeedItem :=
  if hasSearch search then
    if isNoteSearch search
    then sortFeedItems pinnedNoteIds (map ofNote (noteSearchResults search notes))
    else map ofPhoto (displayPhotos search photos semanticPhotos)
  else
    sortFeedItems pinnedNoteIds
      (map ofNote notes ++ map ofPhoto (sortedPhotos photos))%list.

(** The order of the feed: a pinned note before anything that is not
    one; otherwise the newer item first. *)
Definition feedOrder (pinnedNoteIds : list string) (a b : FeedItem) : Prop :=
  (itemPinned pinnedNoteIds a = true ∧ itemPinned pinnedNoteIds b = false)
  ∨ (itemPinned pinnedNoteIds a = itemPinned pinnedNoteIds b
     ∧ (getTime (itemCreatedAt b) <= getTime (itemCreatedAt a))%Z).

(** Items the order does not tell apart: the same group and the same
    instant. *)
Definition sameRank (pinnedNoteIds : list string) (pin : bool) (t : Z) (i : FeedItem)
  : bool :=
  eqb (itemPinned pinnedNoteIds i) pin && (getTime (itemCreatedAt i) =? t)%Z.
End WithHost.

Definition isPhotoItem (i : FeedItem) : bool :=
  match i with
  | PhotoItem _ _ => true
  | NoteItem _ _ => false
  end.

Fixpoint photosOf (items : list FeedItem) : list Photo :=
  match items with
  | [] => []
  | PhotoItem _ p :: rest => p :: photosOf rest
  | NoteItem _ _ :: rest => photosOf rest
  end.

(** *** Pinned notes and the notes of the page *)

(** [Array.from(new Set(prev))]: the first occurrence of every element,
    in the order of insertion. *)
Fixpoint arrayFromSet (l : list string) : list string :=
  match l with
  | [] => []
  | x :: l' => x :: List.filter (fun y => negb (String.eqb y x)) (arrayFromSet l')
  end.

(** The state the note handlers write: [notes], [pinnedNoteIds],
    [selectedNote] and the entry [pv-pinned-notes] of the local storage. *)
Record Store : Type := mkStore {
  notes : list Note.t;
  pinnedNoteIds : list string;
  selectedNote : option Note.t;
  storedPins : option (list string)
}.

(** The updater of [togglePinNote]. *)
Definition toggled (id : string) (prev : list string) : list string :=
  let set := arrayFromSet prev in
  if bool_decide (id ∈ set)
  then List.filter (fun x => negb (String.eqb x id)) set
  else (set ++ [id])%list.

Definition togglePinNote (note : Note.t) (st : Store) : Store :=
  let next := toggled (Note.id note) (pinnedNoteIds st) in
  {| notes := notes st; pinnedNoteIds := next; selectedNote := selectedNote st;
     storedPins := Some next |}.

(** The answer of the store to [delete()]: the call throws, reports an
    error, or succeeds. *)
Inductive DeleteResult : Type :=
| DeleteThrows
| DeleteError
| DeleteDone.

Definition handleDeleteNote (ownerId : option string) (note : Note.t)
    (result : DeleteResult) (st : Store) : Store * list SemanticEffect.Effect :=
  match ownerId with
  | None => (st, [])
  | Some owner =>
      if negb (Js.truthy owner) then (st, [])
      else
        match result with
        | DeleteThrows =>
            (st, [SemanticEffect.ConsoleError "Delete note error:";
                  SemanticEffect.Alert "Error deleting note"])
        | DeleteError =>
            (st, [SemanticEffect.ConsoleError "Error deleting note:";
                  SemanticEffect.Alert "Error deleting note"])
        | DeleteDone =>
            let next :=
              List.filter (fun x => negb (String.eqb x (Note.id note))) (pinnedNoteIds st) in
            ({| notes :=
                  List.filter (fun n => negb (String.eqb (Note.id n) (Note.id note)))
                    (notes st);
                pinnedNoteIds := next;
                selectedNote :=
                  match selectedNote st with
                  | Some prev =>
                      if String.eqb (Note.id prev) (Note.id note) then None else Some prev
                  | None => None
                  end;
                storedPins := Some next |}, [])
        end
  end.

(** The effect that reads the stored pins when the page mounts, for an
    entry as the handlers above write it. *)
Definition loadPins (st : Store) : Store :=
  {| notes := notes st;
     pinnedNoteIds := match storedPins st with
                      | Some pins => pins
                      | None => pinnedNoteIds st
                      end;
     selectedNote := selectedNote st;
     storedPins := storedPins st |}.

End Feed.

(** ** Re-embedding route ([app/api/reembed]) *)

(** [parts.join(sep)] *)
Fixpoint joinWith (sep : string) (parts : list string) : string :=
  match parts with
  | [] => ""
  | [p] => p
  | p :: rest => p ++ sep ++ joinWith sep rest
  end.

(** The line feed of a template literal. *)
Definition newline : string := String (ascii_of_nat 10) "".

Module Reembed.

Record PhotoRow : Type := mkRow {
  id : string;
  caption : field string;
  tags : field (list string);
  colors : field (list string)
}.

Definition buildDescription (photo : PhotoRow) : string :=
  Js.trim
    (newline ++ "Caption: " ++ orElse (caption photo) ""
     ++ newline ++ "Tags: " ++ joinWith ", " (orElse (tags photo) [])
     ++ newline ++ "Colors: " ++ joinWith ", " (orElse (colors photo) [])
     ++ newline ++ "  ").

(** [{ data: photo, error: fetchError }] of the row query. *)
Inductive RowResult : Type :=
| RowError
| RowFound (photo : option PhotoRow).

Inductive Response : Type :=
| Plain (status : nat) (message : string)
| JsonEmbedding (embedding : list number).

(** [POST]; [req = None] when [req.json()] throws.  [update photoId e] is
    [true] when the store reports an error.  The second component lists
    the embeddings the store has saved. *)
Definition POST (req : option (field string))
    (selectRow : string → RowResult)
    (embed : string → SemanticSearch.EmbedResult)
    (update : string → list number → bool)
  : Response * list (string * list number) :=
  match req with
  | None => (Plain 500 "Error re-embedding photo", [])
  | Some body =>
      let photoId := orElse body "" in
      if negb (Js.truthy photoId) then (Plain 400 "Missing photoId", [])
      else
        match selectRow photoId with
        | RowError | RowFound None => (Plain 404 "Photo not found", [])
        | RowFound (Some photo) =>
            match embed (buildDescription photo) with
            | SemanticSearch.EmbedThrows => (Plain 500 "Error re-embedding photo", [])
            | SemanticSearch.EmbedEmpty => (Plain 500 "Embedding failed", [])
            | SemanticSearch.Embedded embedding =>
                if update photoId embedding
                then (Plain 500 "Failed to save embedding", [])
                else (JsonEmbedding embedding, [(photoId, embedding)])
            end
        end
  end.

End Reembed.

(** ** The tag editor ([TagEditor]) *)

Module TagEditor.

(** [photo.tags ?? []], the tags shown when the editor mounts and
    whenever the photo changes. *)
Definition shown (photo : Photo) : list string := orElse (tags photo) [].

Record State : Type := mkState { tags : list string; input : string }.

(** What became of [fetch('/api/reembed')]: it rejects, or the route
    answers. *)
Inductive Reembedded : Type :=
| FetchRejected
| Answered (res : Reembed.Response).

(** [persistTags(next)]: the arguments [onChange] is called with, if it
    is called, and what is logged or shown.  [updateFails] is [true] when
    the update of the tags reports an error. *)
Definition persistTags (next : option (list string)) (updateFails : bool)
    (reembed : Reembedded)
  : option (option (list string) * field (list number)) * list SemanticEffect.Effect :=
  if updateFails
  then (None, [SemanticEffect.ConsoleError "Error updating tags:";
               SemanticEffect.Alert "Error updating tags"])
  else
    match reembed with
    | FetchRejected => (Some (next, Absent), [SemanticEffect.ConsoleError "Reembed error:"])
    | Answered (Reembed.Plain status _) =>
        if (200 <=? status) && (status <=? 299)
        then (Some (next, Absent), [SemanticEffect.ConsoleError "Reembed error:"])
        else (Some (next, Absent), [])
    | Answered (Reembed.JsonEmbedding embedding) => (Some (next, Has embedding), [])
    end.

(** [handleAdd]: the new state of the editor and the argument of
    [persistTags], if it is called. *)
Definition handleAdd (st : State) : State * option (option (list string)) :=
  let value := Js.trim (input st) in
  if negb (Js.truthy value) then (st, None)
  else
    let newTags := (tags st ++ [Js.toLowerCase value])%list in
    (mkState newTags "", Some (Some newTags)).

(** [handleRemove]: the new state of the editor and the argument of
    [persistTags]. *)
Definition handleRemove (tag : string) (st : State) : State * option (list string) :=
  let newTags := List.filter (fun t => negb (String.eqb t tag)) (tags st) in
  (mkState newTags (input st),
   match newTags with
   | [] => None
   | _ :: _ => Some newTags
   end).

(** The [photos] of the page after [persistTags(next)] for the selected
    photo: [onChange] runs the updater of the page, if it is called. *)
Definition persisted (selected : string) (next : option (list string))
    (updateFails : bool) (reembed : Reembedded) (photos : list Photo) : list Photo :=
  match (persistTags next updateFails reembed).1 with
  | Some (newTags, newEmbedding) =>
      Reconciliation.applyTags selected newTags newEmbedding photos
  | None => photos
  end.

End TagEditor.

(** ** Sign-in ([lib/allowedEmails] and the login page) *)

Module Login.

Definition allowedEmails : list string :=
  ["gbaglioni93@gmail.com"; "dre.baglioni@gmail.com"].

Definition isEmailAllowed (email : string) : bool :=
  let normalized := Js.toLowerCase (Js.trim email) in
  bool_decide (normalized ∈ map Js.toLowerCase allowedEmails).

Inductive Status : Type :=
| idle
| sending
| sent
| error.

Record State : Type := mkState { status : Status; errorText : option string }.

(** [handleSubmit]: the state it leaves and the addresses
    [signInWithOtp] was called with.  [signIn email] is the message of the
    error the call reports, if any. *)
Definition handleSubmit (email : string) (signIn : string → option string)
  : State * list string :=
  if negb (isEmailAllowed email)
  then (mkState idle (Some "This email is not approved for access."), [])
  else
    match signIn email with
    | Some message => (mkState error (Some message), [email])
    | None => (mkState sent None, [email])
    end.

End Login.

Definition withEmbedding (e : field (list number)) (p : Photo) : Photo :=
  {| id := id p; image_url := image_url p; created_at := created_at p;
     storage_path := storage_path p; source_url := source_url p; caption := caption p;
     tags := tags p;
     colors := colors p; embedding := e; content_type := content_type p;
     domain_tags := domain_tags p; has_people := has_people p;
     people_count := people_count p; is_screenshot := is_screenshot p;
     vibe_tags := vibe_tags p |}.

(** [tags] as the store holds them: [null] for no tags. *)
Definition storedTags (next : option (list string)) : field (list string) :=
  match next with
  | Some t => Has t
  | None => Null
  end.

(** ** Saving a remote photo ([app/api/save-remote-photo]) *)

(** [x || null] for a string. *)
Definition orNull (x : field string) : field string :=
  match x with
  | Has s => if Js.truthy s then Has s else Null
  | Absent | Null => Null
  end.

(** [x ?? null] *)
Definition nullish {A : Type} (x : field A) : field A :=
  match x with
  | Has a => Has a
  | Absent | Null => Null
  end.

(** The answer of [analyze-image] as the route reads it. *)
Module Analysis.
Record t : Type := mk {
  caption : field string;
  tags : field (list string);
  colors : field (list string);
  content_type : field string;
  domain_tags : field (list string);
  has_people : field bool;
  people_count : field number;
  is_screenshot : field bool;
  vibe_tags : field (list string);
  embedding : field (list number)
}.
End Analysis.

(** The row given to [insert]. *)
Module InsertRow.
Record t : Type := mk {
  image_url : string;
  caption : field string;
  source_url : field string;
  owner_id : string
}.
End InsertRow.

Module SaveRemote.

(** The request body, for keys that are missing, [null] or strings. *)
Record Body : Type := mkBody {
  imageUrl : field string;
  sourceUrl : field string;
  note : field string;
  ownerId : field string;
  token : field string
}.

Definition resolvedOwner (body : Body) : option string :=
  match ownerId body with
  | Has owner =>
      if 0 <? String.length (Js.trim owner) then Some owner
      else Tokens.ownerIdForToken (token body)
  | Absent | Null => Tokens.ownerIdForToken (token body)
  end.

(** The file extension guessed from the content type. *)
Definition guessExt (contentType : string) : string :=
  let ext := "jpg" in
  let ext := if Js.includes contentType "png" then "png" else ext in
  let ext := if Js.includes contentType "webp" then "webp" else ext in
  let ext := if Js.includes contentType "gif" then "gif" else ext in
  ext.

(** [{ ...inserted, caption: note || caption || null, tags: tags ?? null, ... }] *)
Definition enrich (note : field string) (inserted : Photo) (a : Analysis.t) : Photo :=
  {| id := id inserted; image_url := image_url inserted;
     created_at := created_at inserted;
     storage_path := storage_path inserted; source_url := source_url inserted;
     caption := match orNull note with
                | Has s => Has s
                | Absent | Null => orNull (Analysis.caption a)
                end;
     tags := nullish (Analysis.tags a);
     colors := nullish (Analysis.colors a);
     embedding := nullish (Analysis.embedding a);
     content_type := nullish (Analysis.content_type a);
     domain_tags := nullish (Analysis.domain_tags a);
     has_people := nullish (Analysis.has_people a);
     people_count := nullish (Analysis.people_count a);
     is_screenshot := nullish (Analysis.is_screenshot a);
     vibe_tags := nullish (Analysis.vibe_tags a) |}.

(** [fetch(imageUrl)]: it throws, or answers with [ok] and a
    [content-type] header. *)
Inductive ImageResult : Type :=
| ImageThrows
| ImageFetched (ok : bool) (contentType : field string).

(** The call of [analyze-image]: it throws, answers with a status that
    is not a success, or answers the analysis. *)
Inductive AnalyzeResult : Type :=
| AnalyzeThrows
| AnalyzeNotOk
| Analyzed (a : Analysis.t).

(** What the route finds around it.  [uploadFails] is [true] when the
    storage reports an error; [insert] gives the inserted row, or [None]
    for an error or no row. *)
Record World : Type := mkWorld {
  fetchImage : string → ImageResult;
  now : string;
  uploadFails : string → string → bool;
  publicUrl : string → string;
  insert : InsertRow.t → option Photo;
  analyze : string → string → AnalyzeResult
}.

(** The calls that write to the storage and to the table. *)
Inductive Call : Type :=
| Upload (fileName contentType : string)
| Insert (row : InsertRow.t)
| Update (photoId : string) (photo : Photo).

Inductive Response : Type :=
| Error (status : nat) (message : string)
| Success (photo : Photo).

(** [POST]; [req = None] when [req.json()] throws.  The second component
    lists the writing calls in the order they were made. *)
Definition POST (w : World) (req : option Body) : Response * list Call :=
  match req with
  | None => (Error 500 "Error saving remote photo", [])
  | Some body =>
      if negb (Js.truthy (orElse (imageUrl body) ""))
      then (Error 400 "imageUrl is required", [])
      else
        if negb (Js.truthy (default "" (resolvedOwner body)))
        then (Error 400 "ownerId or valid token is required", [])
        else
          match fetchImage w (orElse (imageUrl body) "") with
          | ImageThrows => (Error 500 "Error saving remote photo", [])
          | ImageFetched false _ => (Error 400 "Failed to fetch remote image", [])
          | ImageFetched true header =>
              let contentType := orElse header "" in
              let fileName := "remote-" ++ now w ++ "." ++ guessExt contentType in
              let upload :=
                Upload fileName
                  (if Js.truthy contentType then contentType else "image/jpeg") in
              if uploadFails w fileName
                   (if Js.truthy contentType then contentType else "image/jpeg")
              then (Error 500 "Error uploading file to storage", [upload])
              else
                let row :=
                  InsertRow.mk (publicUrl w fileName) (orNull (note body))
                    (orNull (sourceUrl body)) (default "" (resolvedOwner body)) in
                match insert w row with
                | None => (Error 500 "Error inserting photo row", [upload; Insert row])
                | Some inserted =>
                    match analyze w (publicUrl w fileName) (id inserted) with
                    | Analyzed a =>
                        let enriched := enrich (note body) inserted a in
                        (Success enriched,
                         [upload; Insert row; Update (id inserted) enriched])
                    | AnalyzeThrows | AnalyzeNotOk =>
                        (Success inserted, [upload; Insert row])
                    end
                end
          end
  end.

End SaveRemote.

(* ================================================================= *)
(** * Part II: properties *)
(* ================================================================= *)

(** ** The table of [levenshtein] holds the classical recurrence *)

Section TableFacts.

Lemma shaped_newTable rows cols : shaped rows cols (newTable rows cols).
Proof.
  split; [apply length_replicate |].
  intros i r Hr. apply lookup_replicate in Hr as [-> _]. apply length_replicate.
Qed.

Lemma shaped_setCell rows cols dp i j v :
  shaped rows cols dp → shaped rows cols (setCell dp i j v).
Proof.
  intros [Hlen Hrows]. split.
  - unfold setCell. by rewrite length_alter.
  - intros i' r. unfold setCell. rewrite list_lookup_alter.
    destruct (decide (i = i')) as [->|_]; [| apply Hrows].
    destruct (dp !! i') as [r0|] eqn:E; simpl; [| done].
    intros [= <-]. rewrite length_insert. eauto.
Qed.

Lemma cell_setCell_eq rows cols dp i j v :
  shaped rows cols dp → i < rows → j < cols →
  cell (setCell dp i j v) i j = v.
Proof.
  intros [Hlen Hrows] Hi Hj. unfold cell, setCell.
  rewrite list_lookup_alter. rewrite decide_True by done.
  destruct (lookup_lt_is_Some_2 dp i) as [r Hr]; [lia |].
  rewrite Hr. simpl. rewrite list_lookup_insert_eq; [done |].
  rewrite (Hrows _ _ Hr). lia.
Qed.

Lemma cell_setCell_ne dp i j v i' j' :
  i ≠ i' ∨ j ≠ j' → cell (setCell dp i j v) i' j' = cell dp i' j'.
Proof.
  intros Hne. unfold cell, setCell. rewrite list_lookup_alter.
  destruct (decide (i = i')) as [->|_]; [| done].
  destruct (dp !! i') as [r|]; simpl; [| done].
  rewrite list_lookup_insert_ne; [done | intuition congruence].
Qed.

(** The loop rule: an invariant indexed by the loop counter. *)
Lemma fold_seq_invariant {S : Type} (P : nat → S → Prop) (body : nat → S → S) n :
  ∀ from s,
    P from s →
    (∀ k st, from ≤ k < from + n → P k st → P (k + 1) (body k st)) →
    P (from + n) (fold_left (fun st k => body k st) (seq from n) s).
Proof.
  induction n as [|n IH]; intros from s H0 Hstep; simpl.
  - by rewrite Nat.add_0_r.
  - replace (from + Datatypes.S n) with (Datatypes.S from + n) by lia.
    apply IH.
    + replace (Datatypes.S from) with (from + 1) by lia. apply Hstep; [lia | done].
    + intros k st Hk. apply Hstep. lia.
Qed.

Lemma forUpTo_invariant {S : Type} (P : nat → S → Prop) from to body (s : S) :
  from ≤ to + 1 →
  P from s →
  (∀ k st, from ≤ k ≤ to → P k st → P (k + 1) (body k st)) →
  P (to + 1) (forUpTo from to body s).
Proof.
  intros Hle H0 Hstep. unfold forUpTo.
  replace (to + 1) with (from + (to + 1 - from)) at 1 by lia.
  apply fold_seq_invariant; [done |].
  intros k st Hk. apply Hstep. lia.
Qed.

End TableFacts.

Section LevenshteinTable.
Variables a b : list ascii.

Local Abbreviation al := (length a).
Local Abbreviation bl := (length b).
Local Abbreviation D := (editDistanceAt a b).

Lemma editDistanceAt_col i : D i 0 = i.
Proof. by destruct i. Qed.

Lemma editDistanceAt_step i j :
  D (S i) (S j)
  = min3 (D i (S j) + 1) (D (S i) j + 1)
         (D i j + (if bool_decide (a !! i = b !! j) then 0 else 1)).
Proof. reflexivity. Qed.

Lemma initialised :
  filledUpTo a b 1 1
    (forUpTo 0 bl (fun j dp => setCell dp 0 j j)
       (forUpTo 0 al (fun i dp => setCell dp i 0 i) (newTable (al + 1) (bl + 1)))).
Proof.
  set (dp0 := newTable (al + 1) (bl + 1)).
  set (dp1 := forUpTo 0 al _ dp0).
  assert (H1 : shaped (al + 1) (bl + 1) dp1 ∧ ∀ i', i' < al + 1 → cell dp1 i' 0 = i').
  { subst dp1.
    apply (forUpTo_invariant
             (fun k dp => shaped (al + 1) (bl + 1) dp ∧ ∀ i', i' < k → cell dp i' 0 = i'));
      [lia | |].
    - split; [apply shaped_newTable | lia].
    - intros k st Hk [Hs Hc]. split; [by apply shaped_setCell |].
      intros i' Hi'. destruct (decide (k = i')) as [->|Hne].
      + eapply cell_setCell_eq; [done | lia | lia].
      + rewrite cell_setCell_ne by auto. apply Hc. lia. }
  destruct H1 as [Hs1 Hc1].
  set (dp2 := forUpTo 0 bl _ dp1).
  assert (H2 : shaped (al + 1) (bl + 1) dp2
               ∧ (∀ i', i' ≤ al → cell dp2 i' 0 = i')
               ∧ ∀ j', j' < bl + 1 → cell dp2 0 j' = j').
  { subst dp2.
    apply (forUpTo_invariant
             (fun k dp => shaped (al + 1) (bl + 1) dp
                          ∧ (∀ i', i' ≤ al → cell dp i' 0 = i')
                          ∧ ∀ j', j' < k → cell dp 0 j' = j'));
      [lia | |].
    - split; [done |]. split; [intros; apply Hc1; lia | lia].
    - intros k st Hk (Hs & Hc & Hr). split; [by apply shaped_setCell |]. split.
      + intros i' Hi'. destruct (decide (0 = i' ∧ k = 0)) as [[<- ->]|Hne].
        * eapply cell_setCell_eq; [done | lia | lia].
        * rewrite cell_setCell_ne by lia. by apply Hc.
      + intros j' Hj'. destruct (decide (k = j')) as [->|Hne].
        * eapply cell_setCell_eq; [done | lia | lia].
        * rewrite cell_setCell_ne by auto. apply Hr. lia. }
  destruct H2 as (Hs2 & Hc2 & Hr2).
  split; [done |]. split; [done |]. split.
  - intros i' j' Hi' Hj'. assert (i' = 0) as -> by lia. simpl. apply Hr2. lia.
  - intros j' Hj' _ Hi. assert (j' = 0) as -> by lia.
    rewrite editDistanceAt_col. by apply Hc2.
Qed.

Lemma innerStep_fills i j dp :
  1 ≤ i ≤ al → 1 ≤ j ≤ bl →
  filledUpTo a b i j dp → filledUpTo a b i (j + 1) (innerStep a b i j dp).
Proof.
  intros Hi Hj (Hs & Hc & Hrows & Hrow). unfold innerStep.
  split; [by apply shaped_setCell |]. split; [| split].
  - intros i' Hi'. rewrite cell_setCell_ne by lia. by apply Hc.
  - intros i' j' Hi' Hj'. rewrite cell_setCell_ne by lia. by apply Hrows.
  - intros j' Hj' Hj'' _. destruct (decide (j = j')) as [<-|Hne].
    + erewrite cell_setCell_eq; [| done | lia | lia].
      destruct i as [|i0]; [lia |]. destruct j as [|j0]; [lia |].
      rewrite editDistanceAt_step. unfold cost.
      replace (S i0 - 1) with i0 by lia. replace (S j0 - 1) with j0 by lia.
      rewrite (Hrows i0 (S j0)) by lia.
      rewrite (Hrows i0 j0) by lia.
      rewrite (Hrow j0) by lia. done.
    + rewrite cell_setCell_ne by auto. apply Hrow; lia.
Qed.

Lemma fillTable_rows :
  filledUpTo a b (al + 1) 1 (fillTable a b).
Proof.
  unfold fillTable.
  apply (forUpTo_invariant (fun k dp => filledUpTo a b k 1 dp)); [lia | apply initialised |].
  intros i dp Hi Hinv.
  assert (Hrow : filledUpTo a b i (bl + 1) (forUpTo 1 bl (innerStep a b i) dp)).
  { apply (forUpTo_invariant (fun k dp => filledUpTo a b i k dp)); [lia | done |].
    intros j st Hj. by apply innerStep_fills. }
  destruct Hrow as (Hs & Hc & Hrows & Hrow).
  split; [done |]. split; [done |]. split.
  - intros i' j' Hi' Hj'. destruct (decide (i' = i)) as [->|Hne].
    + apply Hrow; lia.
    + apply Hrows; lia.
  - intros j' Hj' _ Hi'. assert (j' = 0) as -> by lia.
    rewrite editDistanceAt_col. by apply Hc.
Qed.

Lemma fillTable_cell i j :
  i ≤ al → j ≤ bl → cell (fillTable a b) i j = D i j.
Proof.
  intros Hi Hj. destruct fillTable_rows as (_ & _ & Hrows & _). apply Hrows; lia.
Qed.

Lemma editDistanceAt_le_max i j : D i j ≤ Nat.max i j.
Proof.
  revert j. induction i as [|i IH]; intros j; [simpl; lia |].
  destruct j as [|j]; [rewrite editDistanceAt_col; lia |].
  rewrite editDistanceAt_step. unfold min3.
  specialize (IH j). destruct (bool_decide _); lia.
Qed.

End LevenshteinTable.

(** ** Properties of the recurrence *)

Section Recurrence.

Lemma min3_swap x y z : min3 x y z = min3 y x z.
Proof. unfold min3. lia. Qed.

Lemma editDistanceAt_sym a b i j :
  editDistanceAt a b i j = editDistanceAt b a j i.
Proof.
  revert j. induction i as [|i IHi]; intros j.
  - by destruct j.
  - induction j as [|j IHj]; [done |].
    rewrite !editDistanceAt_step, IHj, (IHi j), (IHi (S j)), min3_swap.
    do 2 f_equal.
    by rewrite (bool_decide_ext (a !! i = b !! j) (b !! j = a !! i)).
Qed.

Lemma editDistanceAt_diag a i : editDistanceAt a a i i = 0.
Proof.
  induction i as [|i IH]; [done |].
  rewrite editDistanceAt_step, IH, bool_decide_true by done.
  unfold min3. lia.
Qed.

Lemma editDistanceAt_delete a b i j :
  editDistanceAt a b (S i) j ≤ editDistanceAt a b i j + 1.
Proof.
  destruct j as [|j]; [rewrite !editDistanceAt_col; lia |].
  rewrite editDistanceAt_step. unfold min3. lia.
Qed.

Lemma editDistanceAt_insert a b i j :
  editDistanceAt a b i (S j) ≤ editDistanceAt a b i j + 1.
Proof.
  rewrite (editDistanceAt_sym a b i (S j)), (editDistanceAt_sym a b i j).
  apply editDistanceAt_delete.
Qed.

Lemma editDistanceAt_diagonal a b i j x y :
  a !! i = Some x → b !! j = Some y →
  editDistanceAt a b (S i) (S j)
  ≤ editDistanceAt a b i j + (if bool_decide (x = y) then 0 else 1).
Proof.
  intros Hx Hy. rewrite editDistanceAt_step, Hx, Hy. unfold min3.
  rewrite (bool_decide_ext (Some x = Some y) (x = y)) by (split; congruence).
  lia.
Qed.

(** The recurrence is reached by an alignment of the two prefixes. *)
Lemma editDistanceAt_aligned a b i j :
  i ≤ length a → j ≤ length b →
  Aligned (take i a) (take j b) (editDistanceAt a b i j).
Proof.
  revert j. induction i as [|i IHi]; intros j Hi Hj.
  - simpl. clear Hi. induction j as [|j IHj]; [constructor |].
    destruct (lookup_lt_is_Some_2 b j) as [y Hy]; [lia |].
    rewrite (take_S_r _ _ _ Hy).
    apply (aligned_insert [] (take j b) y j). apply IHj. lia.
  - destruct (lookup_lt_is_Some_2 a i) as [x Hx]; [lia |].
    induction j as [|j IHj].
    + rewrite editDistanceAt_col, (take_S_r _ _ _ Hx).
      apply aligned_delete. specialize (IHi 0). rewrite editDistanceAt_col in IHi.
      apply IHi; lia.
    + destruct (lookup_lt_is_Some_2 b j) as [y Hy]; [lia |].
      rewrite editDistanceAt_step, Hx, Hy.
      rewrite (bool_decide_ext (Some x = Some y) (x = y)) by (split; congruence).
      pose proof (IHi (S j) ltac:(lia) Hj) as Hdel.
      pose proof (IHj ltac:(lia)) as Hins.
      pose proof (IHi j ltac:(lia) ltac:(lia)) as Hdia.
      set (n1 := editDistanceAt a b i (S j)) in *.
      set (n2 := editDistanceAt a b (S i) j) in *.
      set (n3 := editDistanceAt a b i j) in *.
      unfold min3.
      destruct (Nat.min_spec (Nat.min (n1 + 1) (n2 + 1))
                  (n3 + (if bool_decide (x = y) then 0 else 1))) as [[_ ->]|[_ ->]].
      * destruct (Nat.min_spec (n1 + 1) (n2 + 1)) as [[_ ->]|[_ ->]].
        -- rewrite (take_S_r a i x Hx), Nat.add_1_r. by apply aligned_delete.
        -- rewrite (take_S_r b j y Hy), Nat.add_1_r. by apply aligned_insert.
      * rewrite (take_S_r a i x Hx), (take_S_r b j y Hy).
        case_bool_decide as Hxy.
        -- subst y. rewrite Nat.add_0_r. by apply aligned_keep.
        -- rewrite Nat.add_1_r. by apply aligned_subst.
Qed.

Lemma take_snoc_inv {A} (l pre : list A) (i : nat) (x : A) :
  i ≤ length l → (pre ++ [x])%list = take i l →
  ∃ i', i = S i' ∧ pre = take i' l ∧ l !! i' = Some x.
Proof.
  intros Hi Heq. destruct i as [|i'].
  - rewrite take_0 in Heq. by destruct pre.
  - exists i'. destruct (lookup_lt_is_Some_2 l i') as [x' Hx']; [lia |].
    rewrite (take_S_r _ _ _ Hx') in Heq. apply app_inj_tail in Heq as [-> ->]. done.
Qed.

(** No alignment of the two prefixes is cheaper than the recurrence. *)
Lemma editDistanceAt_least a b a' b' n :
  Aligned a' b' n →
  ∀ i j, i ≤ length a → j ≤ length b → a' = take i a → b' = take j b →
         editDistanceAt a b i j ≤ n.
Proof.
  induction 1 as [|a0 b0 x n H IH|a0 b0 y n H IH|a0 b0 x n H IH|a0 b0 x y n H IH];
    intros i j Hi Hj Ha Hb.
  - assert (i = 0) as ->.
    { apply (f_equal length) in Ha. rewrite length_take in Ha. simpl in Ha. lia. }
    assert (j = 0) as ->.
    { apply (f_equal length) in Hb. rewrite length_take in Hb. simpl in Hb. lia. }
    done.
  - apply take_snoc_inv in Ha as (i' & -> & -> & Hx); [| done].
    etrans; [apply editDistanceAt_delete |].
    specialize (IH i' j ltac:(lia) Hj eq_refl Hb). lia.
  - apply take_snoc_inv in Hb as (j' & -> & -> & Hy); [| done].
    etrans; [apply editDistanceAt_insert |].
    specialize (IH i j' Hi ltac:(lia) Ha eq_refl). lia.
  - apply take_snoc_inv in Ha as (i' & -> & -> & Hx); [| done].
    apply take_snoc_inv in Hb as (j' & -> & -> & Hy); [| done].
    etrans; [by apply (editDistanceAt_diagonal a b i' j' x x) |].
    rewrite bool_decide_true by done.
    specialize (IH i' j' ltac:(lia) ltac:(lia) eq_refl eq_refl). lia.
  - apply take_snoc_inv in Ha as (i' & -> & -> & Hx); [| done].
    apply take_snoc_inv in Hb as (j' & -> & -> & Hy); [| done].
    etrans; [by apply (editDistanceAt_diagonal a b i' j' x y) |].
    specialize (IH i' j' ltac:(lia) ltac:(lia) eq_refl eq_refl).
    destruct (bool_decide (x = y)); lia.
Qed.

End Recurrence.

(** ** [levenshtein] and [similarity] *)

Lemma length_chars (s : string) : length (Js.chars s) = String.length s.
Proof. induction s as [|c s IH]; simpl; [done | by rewrite IH]. Qed.

Lemma take_chars (s : string) : take (String.length s) (Js.chars s) = Js.chars s.
Proof. rewrite <- length_chars. apply firstn_all. Qed.

Lemma levenshtein_editDistance (a b : string) :
  levenshtein a b = editDistance a b.
Proof.
  unfold levenshtein, editDistance. case_bool_decide as Heq.
  - subst b. by rewrite editDistanceAt_diag.
  - destruct (Nat.eqb_spec (String.length a) 0) as [Ha|Ha]; [by rewrite Ha |].
    destruct (Nat.eqb_spec (String.length b) 0) as [Hb|Hb].
    + by rewrite Hb, editDistanceAt_col.
    + apply fillTable_cell; by rewrite length_chars.
Qed.

Lemma levenshtein_sym (a b : string) : levenshtein a b = levenshtein b a.
Proof. rewrite !levenshtein_editDistance. apply editDistanceAt_sym. Qed.

Lemma levenshtein_le_max (a b : string) :
  levenshtein a b ≤ Nat.max (String.length a) (String.length b).
Proof. rewrite levenshtein_editDistance. apply editDistanceAt_le_max. Qed.

Lemma levenshtein_aligned (a b : string) :
  Aligned (Js.chars a) (Js.chars b) (levenshtein a b).
Proof.
  rewrite levenshtein_editDistance. unfold editDistance.
  pose proof (editDistanceAt_aligned (Js.chars a) (Js.chars b)
                (String.length a) (String.length b)) as H.
  rewrite !take_chars in H. apply H; by rewrite length_chars.
Qed.

Lemma levenshtein_least (a b : string) n :
  Aligned (Js.chars a) (Js.chars b) n → levenshtein a b ≤ n.
Proof.
  intros H. rewrite levenshtein_editDistance. unfold editDistance.
  apply (editDistanceAt_least _ _ _ _ _ H); rewrite ?length_chars; try done.
  - by rewrite take_chars.
  - by rewrite take_chars.
Qed.

Example levenshtein_kitten_sitting : levenshtein "kitten" "sitting" = 3.
Proof. vm_compute. reflexivity. Qed.

Example levenshtein_cozy_kozy : levenshtein "cozy" "kozy" = 1.
Proof. vm_compute. reflexivity. Qed.

Example levenshtein_cozy_caption : levenshtein "cozy" "a kozy evening" = 11.
Proof. vm_compute. reflexivity. Qed.

Example similarity_cozy_kozy : (similarity "cozy" "kozy" == 3 # 4)%Q.
Proof. vm_compute. reflexivity. Qed.

Example trim_lower : Js.toLowerCase (Js.trim "  Red Shoes ") = "red shoes".
Proof. vm_compute. reflexivity. Qed.

Lemma similarity_unfold (a b : string) :
  0 < Nat.max (String.length a) (String.length b) →
  similarity a b
  = (1 - inject_Z (Z.of_nat (levenshtein a b))
         / inject_Z (Z.of_nat (Nat.max (String.length a) (String.length b))))%Q.
Proof.
  intros Hlen. unfold similarity.
  destruct (Nat.eqb_spec (Nat.max (String.length a) (String.length b)) 0); [lia | done].
Qed.

Lemma ratio_bounds (d len : nat) :
  d ≤ len → 0 < len →
  (0 <= inject_Z (Z.of_nat d) / inject_Z (Z.of_nat len) <= 1)%Q.
Proof.
  intros Hd Hlen.
  assert (Hpos : (0 < inject_Z (Z.of_nat len))%Q).
  { change 0%Q with (inject_Z 0). rewrite <- Zlt_Qlt. lia. }
  split.
  - apply Qle_shift_div_l; [done |]. rewrite Qmult_0_l.
    change 0%Q with (inject_Z 0). rewrite <- Zle_Qle. lia.
  - apply Qle_shift_div_r; [done |]. rewrite Qmult_1_l.
    rewrite <- Zle_Qle. lia.
Qed.

Lemma similarity_bounds (a b : string) : (0 <= similarity a b <= 1)%Q.
Proof.
  unfold similarity.
  destruct (Nat.eqb_spec (Nat.max (String.length a) (String.length b)) 0) as [|Hne].
  - split; [apply Qle_refl | discriminate].
  - pose proof (ratio_bounds _ _ (levenshtein_le_max a b) ltac:(lia)) as H.
    cbv zeta. revert H. generalize (inject_Z (Z.of_nat (levenshtein a b))
              / inject_Z (Z.of_nat (Nat.max (String.length a) (String.length b))))%Q.
    intros r [H0 H1]. split; Lqa.lra.
Qed.

Lemma levenshtein_same (x : string) : levenshtein x x = 0.
Proof. unfold levenshtein. by rewrite bool_decide_true. Qed.

Lemma string_length_pos (x : string) : x ≠ "" → 0 < String.length x.
Proof. destruct x; [done | simpl; lia]. Qed.

(** C8. [similarity a b] is [1 - levenshtein a b / max (len a) (len b)]
    whenever one of the strings is non-empty, it always lies in [[0, 1]],
    [similarity "" ""] is [0], [similarity x x] is [1] for every non-empty
    [x], and [levenshtein] is the classical unit-cost edit distance: it
    equals the dynamic-programming recurrence, is the cost of some alignment
    of [a] with [b], and no alignment is cheaper. *)
Theorem similarity_contract (a b x : string) :
  (0 < Nat.max (String.length a) (String.length b) →
   similarity a b
   = (1 - inject_Z (Z.of_nat (levenshtein a b))
          / inject_Z (Z.of_nat (Nat.max (String.length a) (String.length b))))%Q)
  ∧ (0 <= similarity a b <= 1)%Q
  ∧ similarity "" "" = 0%Q
  ∧ (x ≠ "" → (similarity x x == 1)%Q)
  ∧ levenshtein a b = editDistance a b
  ∧ Aligned (Js.chars a) (Js.chars b) (levenshtein a b)
  ∧ (∀ n, Aligned (Js.chars a) (Js.chars b) n → levenshtein a b ≤ n).
Proof.
  split; [apply similarity_unfold |].
  split; [apply similarity_bounds |].
  split; [reflexivity |].
  split.
  - intros Hx. rewrite similarity_unfold by (pose proof (string_length_pos x Hx); lia).
    rewrite levenshtein_same. simpl. unfold Qdiv. rewrite Qmult_0_l. reflexivity.
  - split; [apply levenshtein_editDistance |].
    split; [apply levenshtein_aligned | apply levenshtein_least].
Qed.

Lemma similarity_contract_witness :
  0 < Nat.max (String.length "cozy") (String.length "kozy")
  ∧ similarity "cozy" "kozy" = (1 - inject_Z 1 / inject_Z 4)%Q
  ∧ "knit" ≠ ""
  ∧ (similarity "knit" "knit" == 1)%Q.
Proof.
  destruct (similarity_contract "cozy" "kozy" "knit") as (Hratio & _ & _ & Hsame & _).
  assert (Hlen : 0 < Nat.max (String.length "cozy") (String.length "kozy")) by (simpl; lia).
  assert (Hne : "knit" ≠ "") by discriminate.
  split; [exact Hlen |].
  split; [exact (Hratio Hlen) |].
  split; [exact Hne | exact (Hsame Hne)].
Defined.

(** C9. [similarity] is symmetric. *)
Theorem similarity_symmetric (a b : string) : similarity a b = similarity b a.
Proof.
  unfold similarity. by rewrite levenshtein_sym, Nat.max_comm.
Qed.

(** ** Token lookup *)

Section TokenLookup.
Import Tokens.

Lemma find_first {A} (f : A → bool) (l : list A) (x : A) :
  List.find f l = Some x ↔
  ∃ pre post, l = (pre ++ x :: post)%list ∧ f x = true ∧ Forall (fun y => f y = false) pre.
Proof.
  induction l as [|y l IH]; simpl.
  - split; [done |]. intros (pre & post & Heq & _). by destruct pre.
  - destruct (f y) eqn:Hy.
    + split.
      * intros [= ->]. exists [], l. by repeat split.
      * intros (pre & post & Heq & Hx & Hpre). destruct pre as [|z pre]; simpl in Heq.
        -- congruence.
        -- injection Heq as <- _. apply Forall_cons in Hpre as [Hz _]. congruence.
    + rewrite IH. split.
      * intros (pre & post & -> & Hx & Hpre). exists (y :: pre), post.
        repeat split; [done | by constructor].
      * intros (pre & post & Heq & Hx & Hpre). destruct pre as [|z pre]; simpl in Heq.
        -- injection Heq as -> _. congruence.
        -- injection Heq as <- ->. apply Forall_cons in Hpre as [_ Hpre]. eauto.
Qed.

Lemma find_none_iff {A} (f : A → bool) (l : list A) :
  List.find f l = None ↔ Forall (fun y => f y = false) l.
Proof.
  induction l as [|y l IH]; simpl; [by split |].
  destruct (f y) eqn:Hy.
  - split; [done |]. intros [Hy' _]%Forall_cons. congruence.
  - rewrite IH. split; [by constructor | by intros [_ ?]%Forall_cons].
Qed.

Lemma lookupIn_some table t owner :
  lookupIn table (Has t) = Some owner ↔
  t ≠ "" ∧ ∃ pre e post,
    table = (pre ++ e :: post)%list
    ∧ normalize (token e) = normalize t
    ∧ ownerId e = owner
    ∧ Forall (fun e' => normalize (token e') ≠ normalize t) pre.
Proof.
  unfold lookupIn, Js.truthy. rewrite negb_involutive.
  case_bool_decide as Ht.
  - split; [done | by intros [? _]].
  - destruct (List.find _ table) as [found|] eqn:Hfind.
    + apply find_first in Hfind as (pre & post & -> & Hx & Hpre).
      apply String.eqb_eq in Hx. split.
      * intros [= <-]. split; [done |]. exists pre, found, post.
        repeat split; [done |]. eapply Forall_impl; [exact Hpre |].
        intros e' He'. by apply String.eqb_neq.
      * intros (_ & pre' & e & post' & Heq & He & <- & Hpre').
        f_equal. f_equal.
        assert (Hfind : List.find (matches t) (pre ++ found :: post) = Some found).
        { apply find_first. exists pre, post. repeat split; [| done].
          by apply String.eqb_eq. }
        assert (Hfind' : List.find (matches t) (pre' ++ e :: post') = Some e).
        { apply find_first. exists pre', post'. repeat split.
          - by apply String.eqb_eq.
          - eapply Forall_impl; [exact Hpre' |]. intros e' He'. by apply String.eqb_neq. }
        rewrite Heq in Hfind. congruence.
    + split; [done |]. intros (_ & pre & e & post & -> & He & _ & _).
      apply find_none_iff in Hfind. apply Forall_app in Hfind as [_ Hfind].
      apply Forall_cons in Hfind as [Hfind _]. apply String.eqb_neq in Hfind. done.
Qed.

Lemma lookupIn_none table t :
  Forall (fun e => normalize (token e) ≠ normalize t) table →
  lookupIn table (Has t) = None.
Proof.
  intros Hall. unfold lookupIn. destruct (negb (Js.truthy t)); [done |].
  assert (List.find (matches t) table = None) as Hnone.
  { apply find_none_iff. eapply Forall_impl; [exact Hall |].
    intros e He. by apply String.eqb_neq. }
  by rewrite Hnone.
Qed.

Lemma lookupIn_normalized table t t' :
  Forall (fun e => normalize (token e) ≠ "") table →
  normalize t = normalize t' →
  lookupIn table (Has t) = lookupIn table (Has t').
Proof.
  intros Hblank Hnorm. unfold lookupIn, Js.truthy. rewrite !negb_involutive.
  assert (Hempty : ∀ s, normalize s = normalize "" → List.find (matches s) table = None).
  { intros s Hs. apply find_none_iff. eapply Forall_impl; [exact Hblank |].
    intros e He. apply String.eqb_neq. by rewrite Hs. }
  unfold matches in *. rewrite Hnorm.
  case_bool_decide as Ht; case_bool_decide as Ht'; try done.
  - subst t. by rewrite Hempty.
  - subst t'. rewrite Hempty; [done |]. by rewrite <- Hnorm.
Qed.

Lemma tokenOwners_not_blank :
  Forall (fun e => normalize (token e) ≠ "") tokenOwners.
Proof. repeat constructor; by vm_compute. Qed.

End TokenLookup.



(** ** Enrichment merge *)

Section Merge.
Import Reconciliation.

Lemma over_absent {A} (old : field A) : over old Absent = old.
Proof. reflexivity. Qed.

Lemma over_present {A} (old new : field A) : new ≠ Absent → over old new = new.
Proof. by destruct new. Qed.

Lemma sameId_eq (a b : Photo) : sameId a b = true ↔ id a = id b.
Proof. apply String.eqb_eq. Qed.

Lemma applyUpdate_lookup updated prev i p :
  prev !! i = Some p →
  applyUpdate updated prev !! i
  = Some (if sameId p updated then spread p updated else p).
Proof. intros Hp. unfold applyUpdate. by rewrite list_lookup_fmap, Hp. Qed.

Lemma applyEnrichment_lookup data prev i p :
  prev !! i = Some p →
  applyEnrichment data prev !! i
  = Some (match updatesOf data !! id p with
          | Some u => spread p u
          | None => p
          end).
Proof. intros Hp. unfold applyEnrichment. by rewrite list_lookup_fmap, Hp. Qed.

(** The map of updates holds, for each id, the last fetched row with it. *)
Lemma updatesOf_snoc data row :
  updatesOf (data ++ [row]) = <[id row := row]> (updatesOf data).
Proof. unfold updatesOf. by rewrite fold_left_app. Qed.

Lemma updatesOf_lookup data k :
  updatesOf data !! k = List.find (fun r => String.eqb (id r) k) (rev data).
Proof.
  induction data as [|row data IH] using rev_ind; [done |].
  rewrite updatesOf_snoc, rev_app_distr. simpl.
  destruct (String.eqb_spec (id row) k) as [->|Hne].
  - by rewrite lookup_insert_eq.
  - by rewrite lookup_insert_ne.
Qed.

Lemma updatesOf_single row k :
  updatesOf [row] !! k = if String.eqb (id row) k then Some row else None.
Proof. rewrite updatesOf_lookup. simpl. by destruct (String.eqb (id row) k). Qed.

End Merge.

(** C1, as the code has it.  A realtime update for the id of a snapshot
    entry, or the last fetched row with that id in the answer of an
    enrichment poll, replaces the entry by the spread of the two: a key
    that is absent from the row keeps the entry's value, and a key that is
    present in the row replaces it, also when the row holds [null] there.
    Entries with another id are left alone. *)
Theorem merge_keeps_absent_keys (prev data : list Photo) (row p : Photo) (i : nat) :
  prev !! i = Some p →
  (id p = id row → Reconciliation.applyUpdate row prev !! i = Some (spread p row))
  ∧ (id p ≠ id row → Reconciliation.applyUpdate row prev !! i = Some p)
  ∧ (List.find (fun r => String.eqb (id r) (id p)) (rev data) = Some row →
     Reconciliation.applyEnrichment data prev !! i = Some (spread p row))
  ∧ (List.find (fun r => String.eqb (id r) (id p)) (rev data) = None →
     Reconciliation.applyEnrichment data prev !! i = Some p)
  ∧ (tags row = Absent → tags (spread p row) = tags p)
  ∧ (tags row ≠ Absent → tags (spread p row) = tags row)
  ∧ (caption row = Absent → caption (spread p row) = caption p)
  ∧ (caption row ≠ Absent → caption (spread p row) = caption row)
  ∧ (colors row = Absent → colors (spread p row) = colors p)
  ∧ (colors row ≠ Absent → colors (spread p row) = colors row)
  ∧ (embedding row = Absent → embedding (spread p row) = embedding p)
  ∧ (embedding row ≠ Absent → embedding (spread p row) = embedding row)
  ∧ (content_type row = Absent → content_type (spread p row) = content_type p)
  ∧ (content_type row ≠ Absent → content_type (spread p row) = content_type row)
  ∧ (domain_tags row = Absent → domain_tags (spread p row) = domain_tags p)
  ∧ (domain_tags row ≠ Absent → domain_tags (spread p row) = domain_tags row)
  ∧ (vibe_tags row = Absent → vibe_tags (spread p row) = vibe_tags p)
  ∧ (vibe_tags row ≠ Absent → vibe_tags (spread p row) = vibe_tags row)
  ∧ (has_people row = Absent → has_people (spread p row) = has_people p)
  ∧ (has_people row ≠ Absent → has_people (spread p row) = has_people row)
  ∧ (people_count row = Absent → people_count (spread p row) = people_count p)
  ∧ (people_count row ≠ Absent → people_count (spread p row) = people_count row)
  ∧ (is_screenshot row = Absent → is_screenshot (spread p row) = is_screenshot p)
  ∧ (is_screenshot row ≠ Absent → is_screenshot (spread p row) = is_screenshot row)
  ∧ (storage_path row = Absent → storage_path (spread p row) = storage_path p)
  ∧ (storage_path row ≠ Absent → storage_path (spread p row) = storage_path row)
  ∧ (source_url row = Absent → source_url (spread p row) = source_url p)
  ∧ (source_url row ≠ Absent → source_url (spread p row) = source_url row).
Proof.
  intros Hp. split; [| split; [| split; [| split]]].
  - intros Hid. rewrite (applyUpdate_lookup _ _ _ _ Hp).
    by rewrite (proj2 (sameId_eq p row) Hid).
  - intros Hid. rewrite (applyUpdate_lookup _ _ _ _ Hp).
    assert (Hsame : Reconciliation.sameId p row = false).
    { apply not_true_is_false. by rewrite sameId_eq. }
    by rewrite Hsame.
  - intros Hlast. rewrite (applyEnrichment_lookup _ _ _ _ Hp).
    by rewrite updatesOf_lookup, Hlast.
  - intros Hnone. rewrite (applyEnrichment_lookup _ _ _ _ Hp).
    by rewrite updatesOf_lookup, Hnone.
  - simpl. repeat split; first [by intros -> | apply over_present].
Qed.

(** The sample snapshot of the scenario: one enriched record whose tags
    are [["a"]], and a fetched row for it that lacks every optional key. *)
Lemma merge_keeps_absent_keys_witness :
  let p := withTags (Has ["a"]) (freshRow "p1" "100") in
  let row := {| id := "p1"; image_url := image_url p; created_at := "100";
                storage_path := Absent; source_url := Absent; caption := Has "x";
                tags := Absent; colors := Absent; embedding := Absent;
                content_type := Absent; domain_tags := Absent; has_people := Absent;
                people_count := Absent; is_screenshot := Absent; vibe_tags := Absent |} in
  [p] !! 0 = Some p
  ∧ id p = id row
  ∧ List.find (fun r => String.eqb (id r) (id p)) (rev [row]) = Some row
  ∧ tags row = Absent
  ∧ caption row ≠ Absent
  ∧ Reconciliation.applyUpdate row [p] !! 0 = Some (spread p row)
  ∧ Reconciliation.applyEnrichment [row] [p] !! 0 = Some (spread p row)
  ∧ tags (spread p row) = Has ["a"]
  ∧ caption (spread p row) = Has "x".
Proof.
  intros p row.
  assert (Hp : [p] !! 0 = Some p) by reflexivity.
  assert (Hid : id p = id row) by reflexivity.
  assert (Hlast : List.find (fun r => String.eqb (id r) (id p)) (rev [row]) = Some row)
    by reflexivity.
  assert (Htags : tags row = Absent) by reflexivity.
  assert (Hcap : caption row ≠ Absent) by discriminate.
  destruct (merge_keeps_absent_keys [p] [row] row p 0 Hp)
    as (Hupdate & _ & Hpoll & _ & Hkeep & _ & _ & Hreplace & _).
  split; [exact Hp |]. split; [exact Hid |]. split; [exact Hlast |].
  split; [exact Htags |]. split; [exact Hcap |].
  split; [exact (Hupdate Hid) |]. split; [exact (Hpoll Hlast) |].
  split; [exact (Hkeep Htags) | exact (Hreplace Hcap)].
Defined.

(** C1 as stated fails: a record whose tags are [["a"]] loses them when a
    realtime update carries [tags: null], and when the answer of an
    enrichment poll, fetched while the record was still pending, arrives
    after the realtime update that enriched it. *)
Lemma null_tags_erase_existing_tags :
  let row := freshRow "p1" "100" in
  let enriched := withTags (Has ["a"]) row in
  map tags (Reconciliation.applyUpdate row [enriched]) = [Null]
  ∧ map tags (Reconciliation.applyEnrichment [row] [enriched]) = [Null]
  ∧ Reconciliation.pending
      (Reconciliation.run Reconciliation.initial
         [Reconciliation.LoadedPhotos [row]; Reconciliation.Rendered]) = [row]
  ∧ map tags
      (Reconciliation.photos
         (Reconciliation.run Reconciliation.initial
            [Reconciliation.LoadedPhotos [row]; Reconciliation.Rendered;
             Reconciliation.UpdatePushed enriched]))
    = [Has ["a"]]
  ∧ map tags
      (Reconciliation.photos
         (Reconciliation.run Reconciliation.initial
            [Reconciliation.LoadedPhotos [row]; Reconciliation.Rendered;
             Reconciliation.UpdatePushed enriched;
             Reconciliation.EnrichmentFetched [row]]))
    = [Null]
  ∧ (Null : field (list string)) ≠ Has ["a"].
Proof. repeat split. discriminate. Qed.

(** ** Snapshot uniqueness *)

Section Uniqueness.
Import Reconciliation.

Lemma existsb_sameId photo prev :
  existsb (fun p => sameId p photo) prev = true ↔ id photo ∈ map id prev.
Proof.
  rewrite existsb_exists, list_elem_of_fmap. split.
  - intros (p & Hin & Hsame). exists p. split; [| by apply list_elem_of_In].
    symmetry. by apply sameId_eq.
  - intros (p & Hid & Hin). exists p. split; [by apply list_elem_of_In |].
    by apply sameId_eq.
Qed.

Lemma addPhotoIfNew_unique photo prev :
  uniqueIds prev → uniqueIds (addPhotoIfNew photo prev).
Proof.
  intros Hprev. unfold addPhotoIfNew.
  destruct (existsb _ prev) eqn:Hex; [done |].
  unfold uniqueIds. simpl. apply NoDup_cons. split; [| done].
  rewrite <- existsb_sameId. by rewrite Hex.
Qed.

(** Inserting an id that the snapshot already holds changes nothing. *)
Lemma addPhotoIfNew_present photo prev :
  id photo ∈ map id prev → addPhotoIfNew photo prev = prev.
Proof.
  intros Hin. unfold addPhotoIfNew.
  by rewrite (proj2 (existsb_sameId photo prev) Hin).
Qed.

Lemma keepUnseen_unique data :
  ∀ seen kept,
    (∀ k, k ∈ seen ↔ k ∈ map id kept) → uniqueIds kept →
    uniqueIds (fold_left keepUnseen data (seen, kept)).2.
Proof.
  induction data as [|p data IH]; intros seen kept Hseen Hkept; [done |].
  simpl. unfold keepUnseen at 2. simpl. case_bool_decide as Hp.
  - by apply IH.
  - apply IH.
    + intros k. rewrite map_app, elem_of_app, elem_of_union, elem_of_singleton.
      simpl. rewrite list_elem_of_singleton, Hseen. tauto.
    + unfold uniqueIds. rewrite map_app. simpl. apply NoDup_app.
      split; [done |]. split; [| apply NoDup_singleton].
      intros k Hk ->%list_elem_of_singleton. by apply Hp, Hseen.
Qed.

Lemma unique_unique data : uniqueIds (unique data).
Proof.
  apply keepUnseen_unique; [| constructor].
  intros k. simpl. split; [by intros ?%not_elem_of_empty | by intros ?%not_elem_of_nil].
Qed.

Lemma applyUpdate_ids updated prev : map id (applyUpdate updated prev) = map id prev.
Proof.
  unfold applyUpdate. rewrite map_map. apply map_ext. intros p.
  destruct (sameId p updated) eqn:Hsame; [| done].
  simpl. symmetry. by apply sameId_eq.
Qed.

Lemma updatesOf_key data k u : updatesOf data !! k = Some u → id u = k.
Proof.
  rewrite updatesOf_lookup. intros (pre & post & _ & Hu & _)%find_first.
  by apply String.eqb_eq.
Qed.

Lemma applyEnrichment_ids data prev : map id (applyEnrichment data prev) = map id prev.
Proof.
  unfold applyEnrichment. rewrite map_map. apply map_ext. intros p.
  destruct (updatesOf data !! id p) as [u|] eqn:Hu; [| done].
  simpl. by apply updatesOf_key in Hu.
Qed.

Lemma applyTags_ids selected newTags newEmbedding prev :
  map id (applyTags selected newTags newEmbedding prev) = map id prev.
Proof.
  unfold applyTags. rewrite map_map. apply map_ext. intros p.
  by destruct (String.eqb (id p) selected).
Qed.

Lemma filter_unique (f : Photo → bool) prev :
  uniqueIds prev → uniqueIds (List.filter f prev).
Proof.
  unfold uniqueIds. induction prev as [|p prev IH]; simpl; [done |].
  intros [Hp Hprev]%NoDup_cons. destruct (f p); simpl; [| by apply IH].
  apply NoDup_cons. split; [| by apply IH].
  intros Hin. apply Hp. apply list_elem_of_fmap in Hin as (q & Hq & Hin).
  apply list_elem_of_fmap. exists q. split; [done |].
  apply list_elem_of_In. apply list_elem_of_In in Hin.
  by apply filter_In in Hin as [? _].
Qed.

(** The poll keeps the ids apart when the ref is the current snapshot. *)
Lemma pollForNewFetched_unique data st :
  map id (photosRef st) = map id (photos st) →
  uniqueIds data → uniqueIds (photos st) →
  uniqueIds (photos (pollForNewFetched data st)).
Proof.
  intros Hsync Hdata Hst. unfold pollForNewFetched.
  destruct data as [|d data']; [done |].
  set (data := d :: data') in *.
  set (newOnes := List.filter _ data).
  assert (Hnew : uniqueIds (newOnes ++ photos st)).
  { unfold uniqueIds. rewrite map_app. apply NoDup_app.
    split; [by apply filter_unique |]. split; [| done].
    intros k (q & -> & Hin)%list_elem_of_fmap Hk.
    apply list_elem_of_In, filter_In in Hin as [_ Hq].
    apply negb_true_iff, bool_decide_eq_false in Hq. apply Hq.
    rewrite elem_of_list_to_set. by rewrite Hsync. }
  by destruct newOnes.
Qed.

(** Every event keeps the ids apart, provided the rows of a new-records
    poll are handled while the ref is the current snapshot. *)
Lemma step_unique st e :
  uniqueIds (photos st) →
  (∀ data, e = NewFetched data →
           map id (photosRef st) = map id (photos st) ∧ uniqueIds data) →
  uniqueIds (photos (step st e)).
Proof.
  intros Hst Hpoll. destruct e; simpl.
  - apply unique_unique.
  - by apply addPhotoIfNew_unique.
  - unfold uniqueIds. by rewrite applyUpdate_ids.
  - by apply addPhotoIfNew_unique.
  - destruct data; [done |]. simpl. unfold uniqueIds. by rewrite applyEnrichment_ids.
  - destruct (Hpoll data eq_refl). by apply pollForNewFetched_unique.
  - unfold uniqueIds. by rewrite applyTags_ids.
  - by apply filter_unique.
  - done.
Qed.

End Uniqueness.

(** C2 fails on the code.  One record is loaded and rendered; a realtime
    insert adds a second record; the rows of the new-records poll, which
    hold that second record, arrive before the next render has refreshed
    [photosRef].  The poll tests the rows against the stale ref and stores
    the record a second time. *)
Theorem pollForNew_stores_pushed_record_twice :
  let p0 := freshRow "p0" "100" in
  let p1 := freshRow "p1" "200" in
  let st := Reconciliation.run Reconciliation.initial
              [Reconciliation.LoadedPhotos [p0]; Reconciliation.Rendered;
               Reconciliation.InsertPushed p1] in
  Reconciliation.ids st = ["p1"; "p0"]
  ∧ NoDup (Reconciliation.ids st)
  ∧ map id (Reconciliation.photosRef st) = ["p0"]
  ∧ Reconciliation.pollForNewQuery (Some "owner") true st = Some "100"
  ∧ Reconciliation.ids (Reconciliation.step st (Reconciliation.NewFetched [p1]))
    = ["p1"; "p1"; "p0"]
  ∧ ¬ NoDup (Reconciliation.ids (Reconciliation.step st (Reconciliation.NewFetched [p1])))
  ∧ Reconciliation.ids
      (Reconciliation.step (Reconciliation.step st Reconciliation.Rendered)
         (Reconciliation.NewFetched [p1]))
    = ["p1"; "p0"].
Proof.
  intros p0 p1 st.
  split; [reflexivity |].
  split; [by apply (bool_decide_unpack _) |].
  split; [reflexivity |]. split; [reflexivity |]. split; [reflexivity |].
  split; [| reflexivity].
  intros Hdup. apply NoDup_cons in Hdup as [Hnot _]. apply Hnot. left.
Qed.

(** ** The stable sort *)

Section SortFacts.
Context {A : Type} (before : A → A → bool).

Lemma sortInsert_perm x l : sortInsert before x l ≡ₚ x :: l.
Proof.
  induction l as [|y l IH]; simpl; [done |].
  destruct (before x y); [done |].
  rewrite IH. apply Permutation_swap.
Qed.

Lemma jsSort_perm l : jsSort before l ≡ₚ l.
Proof.
  induction l as [|x l IH]; simpl; [done |].
  fold (jsSort before l). by rewrite sortInsert_perm, IH.
Qed.

Lemma jsSort_length l : length (jsSort before l) = length l.
Proof. by rewrite jsSort_perm. Qed.

Lemma jsSort_elem_of x l : x ∈ jsSort before l ↔ x ∈ l.
Proof. by rewrite jsSort_perm. Qed.

Lemma jsSort_Forall (P : A → Prop) l : Forall P (jsSort before l) ↔ Forall P l.
Proof. by rewrite jsSort_perm. Qed.

Lemma jsSort_singleton x : jsSort before [x] = [x].
Proof. reflexivity. Qed.

Hypothesis total : ∀ x y, before x y = false → before y x = true.
Hypothesis transitive :
  ∀ x y z, before x y = true → before y z = true → before x z = true.

Lemma sortInsert_sorted x l :
  StronglySorted (fun a b => before a b = true) l →
  StronglySorted (fun a b => before a b = true) (sortInsert before x l).
Proof.
  induction 1 as [|y l Hl IH Hy]; simpl.
  - repeat constructor.
  - destruct (before x y) eqn:Hxy.
    + constructor; [by constructor |].
      constructor; [done |].
      eapply Forall_impl; [exact Hy |]. intros z Hz. by eapply transitive.
    + constructor; [done |].
      rewrite sortInsert_perm. constructor; [by apply total | done].
Qed.

Lemma jsSort_sorted l :
  StronglySorted (fun a b => before a b = true) (jsSort before l).
Proof.
  induction l as [|x l IH]; simpl; [constructor |].
  by apply sortInsert_sorted.
Qed.

(** Sorting leaves a sorted list as it is. *)
Lemma jsSort_of_sorted l :
  StronglySorted (fun a b => before a b = true) l → jsSort before l = l.
Proof.
  induction 1 as [|x l Hl IH Hx]; simpl; [done |].
  fold (jsSort before l). rewrite IH.
  destruct l as [|y l]; simpl; [done |].
  apply Forall_cons in Hx as [Hxy _]. by rewrite Hxy.
Qed.

End SortFacts.

Lemma StronglySorted_app_cross {A} (R : A → A → Prop) (l k : list A) :
  StronglySorted R (l ++ k) → Forall (fun y => Forall (fun x => R x y) l) k.
Proof.
  induction l as [|x l IH]; simpl.
  - intros _. apply Forall_forall. intros y _. constructor.
  - intros [Hs Hx]%StronglySorted_inv. specialize (IH Hs).
    apply Forall_app in Hx as [_ Hxk].
    apply Forall_forall. intros y Hy. constructor.
    + rewrite Forall_forall in Hxk. by apply Hxk.
    + rewrite Forall_forall in IH. by apply IH.
Qed.

Lemma StronglySorted_take {A} (R : A → A → Prop) (n : nat) (l : list A) :
  StronglySorted R l → StronglySorted R (take n l).
Proof.
  intros Hs. revert n. induction Hs as [|x l Hl IH Hx]; intros [|n]; simpl;
    try constructor; [apply IH |].
  eapply Forall_forall. intros y Hy. rewrite Forall_forall in Hx. apply Hx.
  by eapply subseteq_take.
Qed.

Lemma StronglySorted_map {A B} (R : B → B → Prop) (f : A → B) (l : list A) :
  StronglySorted (fun a a' => R (f a) (f a')) l → StronglySorted R (map f l).
Proof.
  induction 1 as [|x l Hl IH Hx]; simpl; constructor; [done |].
  by apply Forall_fmap.
Qed.

(** ** Semantic search: threshold and cap *)

Section SemanticRanking.
Import SemanticSearch.
Variable queryEmbedding : list number.

Local Abbreviation scoreOf := (SemanticSearch.scoreOf queryEmbedding).
Local Abbreviation qualifies := (SemanticSearch.qualifies queryEmbedding).
Local Abbreviation kept := (SemanticSearch.kept queryEmbedding).
Local Abbreviation ranked := (SemanticSearch.ranked queryEmbedding).

Lemma kept_photos data : map photo (kept data) = List.filter qualifies data.
Proof.
  unfold kept, scoreAll, qualifies. induction data as [|p data IH]; simpl; [done |].
  destruct (hasEmbedding p); simpl; [| done].
  fold (scoreOf p). destruct (bool_decide (MIN_SCORE <= scoreOf p)%R); simpl;
    by rewrite IH.
Qed.

Lemma kept_consistent data : Forall (fun s => score s = scoreOf (photo s)) (kept data).
Proof.
  apply Forall_forall. intros s Hs. unfold kept in Hs.
  apply list_elem_of_In, filter_In in Hs as [Hs _].
  unfold scoreAll in Hs. apply in_map_iff in Hs as (p & <- & _). done.
Qed.

Lemma byScoreDesc_spec a b : byScoreDesc a b = true ↔ (score b <= score a)%R.
Proof. unfold byScoreDesc. rewrite bool_decide_eq_true. split; lra. Qed.

Lemma byScoreDesc_total a b : byScoreDesc a b = false → byScoreDesc b a = true.
Proof.
  intros Hab. apply byScoreDesc_spec.
  apply not_true_iff_false in Hab. rewrite byScoreDesc_spec in Hab. lra.
Qed.

Lemma byScoreDesc_trans a b c :
  byScoreDesc a b = true → byScoreDesc b c = true → byScoreDesc a c = true.
Proof. rewrite !byScoreDesc_spec. lra. Qed.

Lemma ranked_sorted data :
  StronglySorted (fun p p' => (scoreOf p' <= scoreOf p)%R) (map photo (ranked data)).
Proof.
  apply StronglySorted_map.
  pose proof (jsSort_sorted byScoreDesc byScoreDesc_total byScoreDesc_trans (kept data)) as Hs.
  assert (Hc : Forall (fun s => score s = scoreOf (photo s)) (ranked data)).
  { unfold ranked. rewrite jsSort_Forall. apply kept_consistent. }
  fold (ranked data) in Hs. revert Hc. induction Hs as [|s l Hl IH Hx]; intros Hc; constructor.
  - apply IH. by apply Forall_cons in Hc as [_ ?].
  - apply Forall_cons in Hc as [Hs Hc]. rewrite Forall_forall in Hx, Hc.
    apply Forall_forall. intros s' Hs'.
    rewrite <- Hs, <- (Hc s' Hs'). apply byScoreDesc_spec. by apply Hx.
Qed.

Lemma ranked_photos data : map photo (ranked data) ≡ₚ List.filter qualifies data.
Proof. unfold ranked. by rewrite jsSort_perm, kept_photos. Qed.

Lemma top_ranked data :
  top (scoreAll queryEmbedding data) = take MAX_RESULTS (map photo (ranked data)).
Proof. unfold top, ranked, kept. by rewrite <- fmap_take. Qed.

End SemanticRanking.

(** The list computed by the route from the scored rows. *)
Lemma top_is_capped_ranking (queryEmbedding : list number) (data : list Photo) :
  let result := SemanticSearch.top (SemanticSearch.scoreAll queryEmbedding data) in
  let qualifying := List.filter (SemanticSearch.qualifies queryEmbedding) data in
  length result = Nat.min 40 (length qualifying)
  ∧ Forall (fun p => p ∈ data
                     ∧ SemanticSearch.hasEmbedding p = true
                     ∧ (28 / 100 <= SemanticSearch.scoreOf queryEmbedding p)%R) result
  ∧ StronglySorted
      (fun p p' => (SemanticSearch.scoreOf queryEmbedding p' <= SemanticSearch.scoreOf queryEmbedding p)%R) result
  ∧ ∃ cut,
      (result ++ cut)%list ≡ₚ qualifying
      ∧ Forall (fun p' =>
                  Forall (fun p => (SemanticSearch.scoreOf queryEmbedding p' <= SemanticSearch.scoreOf queryEmbedding p)%R)
                    result) cut.
Proof.
  intros result qualifying. subst result. rewrite top_ranked.
  pose proof (ranked_photos queryEmbedding data) as Hperm.
  pose proof (ranked_sorted queryEmbedding data) as Hsorted.
  fold qualifying in Hperm.
  set (all := map SemanticSearch.photo (SemanticSearch.ranked queryEmbedding data)) in *.
  split; [| split; [| split]].
  - rewrite length_take. rewrite Hperm. unfold SemanticSearch.MAX_RESULTS. lia.
  - apply Forall_forall. intros p Hp. apply subseteq_take in Hp.
    rewrite Hperm in Hp. subst qualifying.
    apply list_elem_of_In, filter_In in Hp as [Hin Hq].
    unfold SemanticSearch.qualifies in Hq. apply andb_true_iff in Hq as [Hemb Hscore].
    apply bool_decide_eq_true in Hscore.
    split; [by apply list_elem_of_In |]. split; [done |]. exact Hscore.
  - by apply StronglySorted_take.
  - exists (drop SemanticSearch.MAX_RESULTS all). split.
    + by rewrite take_drop.
    + apply (StronglySorted_app_cross
               (fun p p' => (SemanticSearch.scoreOf queryEmbedding p' <= SemanticSearch.scoreOf queryEmbedding p)%R)).
      by rewrite take_drop.
Qed.



(** ** Exact phrases: the regular expression *)

Section RegexFacts.
Import Regex.

Lemma chars_app (s1 s2 : string) :
  Js.chars (s1 ++ s2) = (Js.chars s1 ++ Js.chars s2)%list.
Proof. induction s1 as [|c s1 IH]; simpl; [done | by rewrite IH]. Qed.

Lemma chars_ofChars (l : list ascii) : Js.chars (Js.ofChars l) = l.
Proof. apply list_ascii_of_string_of_list_ascii. Qed.

Lemma ofChars_chars (s : string) : Js.ofChars (Js.chars s) = s.
Proof. apply string_of_list_ascii_of_string. Qed.

Lemma parseChars_escape (l k : list ascii) :
  parseChars (escapeChars l ++ k) = (fun r => map Lit l ++ r)%list <$> parseChars k.
Proof.
  induction l as [|c l IH]; simpl.
  - by destruct (parseChars k).
  - destruct (isMeta c) eqn:Hmeta; simpl.
    + rewrite bool_decide_false.
      2:{ intros ->. by vm_compute in Hmeta. }
      rewrite Hmeta, IH. by destruct (parseChars k).
    + rewrite bool_decide_false.
      2:{ intros ->. by vm_compute in Hmeta. }
      rewrite Hmeta, IH. by destruct (parseChars k).
Qed.

Lemma phraseRegex_atoms (term : string) :
  phraseRegex term = Some (WordBoundary :: map Lit (Js.chars term) ++ [WordBoundary])%list.
Proof.
  unfold phraseRegex, compile, escapeRegExp.
  rewrite !chars_app, chars_ofChars. simpl.
  by rewrite parseChars_escape.
Qed.

Lemma boundary_test prev next :
  negb (eqb (isWord prev) (isWord next)) = true ↔ boundary prev next.
Proof.
  unfold boundary. destruct (isWord prev), (isWord next); simpl; split; congruence.
Qed.

Lemma lastOr_none read : lastOr None read = last read.
Proof. unfold lastOr. by destruct (last read). Qed.

Lemma lastOr_cons prev x read : lastOr prev (x :: read) = lastOr (Some x) read.
Proof.
  unfold lastOr. change (x :: read) with ([x] ++ read)%list.
  rewrite last_app. by destruct (last read).
Qed.

Lemma matchHere_literals (t : list ascii) (r : list atom) :
  ∀ prev rest,
    matchHere (map Lit t ++ r) prev rest = true ↔
    ∃ mid post,
      rest = (mid ++ post)%list
      ∧ map canonicalize mid = map canonicalize t
      ∧ matchHere r (lastOr prev mid) post = true.
Proof.
  induction t as [|c t IH]; intros prev rest; simpl.
  - split.
    + intros Hr. by exists [], rest.
    + intros (mid & post & -> & Hmid & Hr). by destruct mid.
  - destruct rest as [|x rest].
    + split; [done |]. intros (mid & post & Heq & Hmid & _).
      destruct mid; [done | by destruct post].
    + rewrite andb_true_iff, bool_decide_eq_true, IH. split.
      * intros (Hx & mid & post & -> & Hmid & Hr). exists (x :: mid), post.
        split; [done |]. split; [simpl; by rewrite Hx, Hmid |].
        by rewrite lastOr_cons.
      * intros (mid & post & Heq & Hmid & Hr).
        destruct mid as [|y mid]; [done |].
        simpl in Heq, Hmid. injection Heq as <- ->. injection Hmid as Hx Hmid.
        split; [done |]. exists mid, post. split; [done |]. split; [done |].
        by rewrite lastOr_cons in Hr.
Qed.

Lemma matchFrom_somewhere (r : list atom) :
  ∀ rest prev,
    matchFrom r prev rest = true ↔
    ∃ pre rest', rest = (pre ++ rest')%list ∧ matchHere r (lastOr prev pre) rest' = true.
Proof.
  induction rest as [|x rest IH]; intros prev; simpl.
  - rewrite orb_false_r. split.
    + intros Hr. by exists [], [].
    + intros (pre & rest' & Heq & Hr). symmetry in Heq.
      apply app_eq_nil in Heq as [-> ->]. done.
  - rewrite orb_true_iff, IH. split.
    + intros [Hr|(pre & rest' & -> & Hr)].
      * by exists [], (x :: rest).
      * exists (x :: pre), rest'. split; [done |]. by rewrite lastOr_cons.
    + intros (pre & rest' & Heq & Hr). destruct pre as [|y pre].
      * left. simpl in Heq. by subst rest'.
      * right. simpl in Heq. injection Heq as <- ->.
        exists pre, rest'. split; [done |]. by rewrite lastOr_cons in Hr.
Qed.

(** The test of the phrase pattern is a whole-word occurrence. *)
Lemma test_occursAsWords (phrase text : string) :
  test (WordBoundary :: map Lit (Js.chars phrase) ++ [WordBoundary])%list text = true
  ↔ occursAsWords phrase text.
Proof.
  unfold test, occursAsWords. rewrite matchFrom_somewhere. split.
  - intros (pre & rest' & Htext & Hr). simpl in Hr.
    apply andb_true_iff in Hr as [Hb1 Hr]. apply boundary_test in Hb1.
    apply matchHere_literals in Hr as (mid & post & -> & Hmid & Hr).
    simpl in Hr. rewrite andb_true_r in Hr. apply boundary_test in Hr.
    exists pre, mid, post. split; [done |]. split; [done |].
    rewrite lastOr_none in Hb1, Hr.
    split; [exact Hb1 |]. unfold boundary, lastOr in Hr.
    rewrite last_app. exact Hr.
  - intros (pre & mid & post & Htext & Hmid & Hb1 & Hb2).
    exists pre, (mid ++ post)%list. split; [done |]. simpl.
    rewrite lastOr_none.
    apply andb_true_iff. split; [by apply boundary_test |].
    apply matchHere_literals. exists mid, post. split; [done |]. split; [done |].
    simpl. rewrite andb_true_r. apply boundary_test.
    unfold boundary, lastOr. by rewrite last_app in Hb2.
Qed.

Lemma first_word_char (l : list ascii) :
  existsb isWordChar l = true →
  ∃ pre post, l = (pre ++ post)%list
              ∧ isWord (last pre) = false ∧ isWord (head post) = true.
Proof.
  induction l as [|x l IH]; simpl; [done |].
  destruct (isWordChar x) eqn:Hx; simpl.
  - intros _. by exists [], (x :: l).
  - intros (pre & post & -> & Hpre & Hpost)%IH.
    exists (x :: pre), post. split; [done |]. split; [| done].
    destruct pre as [|y pre]; [done |]. by rewrite last_cons_cons.
Qed.

(** The empty phrase occurs wherever there is a word. *)
Lemma occursAsWords_empty (text : string) :
  hasWordChar text = true → occursAsWords "" text.
Proof.
  intros (pre & post & Htext & Hpre & Hpost)%first_word_char.
  exists pre, [], post. simpl. rewrite app_nil_r.
  repeat split; [done | congruence | congruence].
Qed.

End RegexFacts.

(** ** Query modes *)

Section QueryFacts.

Lemma prefix_length (p s : string) :
  String.prefix p s = true → String.length p ≤ String.length s.
Proof.
  revert s. induction p as [|c p IH]; intros s; simpl; [lia |].
  destruct s as [|d s]; simpl; [done |].
  destruct (ascii_dec c d); [| done]. intros Hp%IH. lia.
Qed.

Lemma length_ofChars (l : list ascii) : String.length (Js.ofChars l) = length l.
Proof. by rewrite <- length_chars, chars_ofChars. Qed.

Lemma toLowerCase_length (s : string) :
  String.length (Js.toLowerCase s) = String.length s.
Proof.
  unfold Js.toLowerCase. by rewrite length_ofChars, length_map, length_chars.
Qed.

Lemma truthy_length (s : string) : Js.truthy s = true ↔ 0 < String.length s.
Proof.
  unfold Js.truthy. destruct s; simpl; [| split; [lia | done]].
  split; [done | lia].
Qed.

Lemma includes_empty (h : string) : Js.includes h "" = true.
Proof. by destruct h. Qed.

Lemma filter_all {A} (f : A → bool) (l : list A) :
  (∀ x, f x = true) → List.filter f l = l.
Proof.
  intros Hf. induction l as [|x l IH]; simpl; [done |]. by rewrite Hf, IH.
Qed.

Lemma short_query_is_no_note (search : string) :
  String.length (searchLower search) < 5 → isNoteSearch search = false.
Proof.
  intros Hlen. unfold isNoteSearch, Js.startsWith.
  apply not_true_is_false. intros Hp%prefix_length. simpl in Hp. lia.
Qed.

Lemma prefix_String (a b : ascii) (p s : string) :
  String.prefix (String a p) (String b s)
  = if ascii_dec a b then String.prefix p s else false.
Proof. reflexivity. Qed.

Lemma toLowerCase_String (c : ascii) (s : string) :
  Js.toLowerCase (String c s) = String (Js.lowerChar c) (Js.toLowerCase s).
Proof. reflexivity. Qed.

Lemma exact_phrase_modes (search : string) :
  isExactPhrase search = true →
  hasSearch search = true
  ∧ isNoteSearch search = false
  ∧ Js.truthy (searchLower search) = true.
Proof.
  unfold isExactPhrase, hasSearch, isNoteSearch, searchLower.
  intros [[Hlen Hstart]%andb_true_iff _]%andb_true_iff.
  destruct (searchQuery search) as [|c q]; [done |].
  unfold Js.startsWith, dquote in Hstart. rewrite prefix_String in Hstart.
  destruct (ascii_dec _ c) as [<-|]; [| done].
  split; [by apply truthy_length; simpl; lia |].
  rewrite toLowerCase_String. split.
  - unfold Js.startsWith. rewrite prefix_String.
    destruct (ascii_dec _ _) as [Heq|]; [| done]. by vm_compute in Heq.
  - apply truthy_length. simpl. lia.
Qed.

End QueryFacts.

(** ** Result Merger *)

Section MergerFacts.
Context `{Host}.

Lemma displayPhotosWith_exact fuzzy search photos semanticPhotos :
  isExactPhrase search = true →
  displayPhotosWith fuzzy search photos semanticPhotos
  = sortByDate (fallbackFiltered search photos).
Proof.
  intros Hexact. destruct (exact_phrase_modes search Hexact) as (Hhas & Hnote & _).
  unfold displayPhotosWith. by rewrite Hhas, Hnote, Hexact.
Qed.

Lemma displayPhotos_free_text search photos :
  hasSearch search = true → isNoteSearch search = false →
  isExactPhrase search = false →
  displayPhotos search photos None
  = if 0 <? length (fuzzyMatches search photos)
    then sortByDate (mergeUnique (fuzzyMatches search photos)
                       (fallbackFiltered search photos))
    else sortByDate (fallbackFiltered search photos).
Proof.
  intros Hhas Hnote Hexact. unfold displayPhotos, displayPhotosWith.
  by rewrite Hhas, Hnote, Hexact.
Qed.

Lemma fallbackFiltered_free_text search photos :
  isExactPhrase search = false →
  fallbackFiltered search photos
  = List.filter (fun p => Js.includes (haystack p) (searchLower search))
      (sortedPhotos photos).
Proof.
  intros Hexact. unfold fallbackFiltered. rewrite Hexact. simpl.
  destruct (Js.truthy (searchLower search)) eqn:Hq; simpl; [done |].
  assert (searchLower search = "") as ->.
  { unfold Js.truthy in Hq. apply negb_false_iff, bool_decide_eq_true in Hq. done. }
  symmetry. apply filter_all. intros p. apply includes_empty.
Qed.

Lemma fallbackFiltered_exact search photos :
  isExactPhrase search = true → exactTerm search ≠ "" →
  fallbackFiltered search photos
  = List.filter
      (fun p => Regex.test
                  (Regex.WordBoundary
                     :: map Regex.Lit (Js.chars (exactTerm search))
                     ++ [Regex.WordBoundary])%list
                  (haystack p))
      (sortedPhotos photos).
Proof.
  intros Hexact Hterm. destruct (exact_phrase_modes search Hexact) as (_ & _ & Hq).
  unfold fallbackFiltered. rewrite Hq, Hexact. simpl.
  assert (Js.truthy (exactTerm search) = true) as ->.
  { unfold Js.truthy. by rewrite bool_decide_false. }
  simpl. by rewrite phraseRegex_atoms.
Qed.

Lemma fallbackFiltered_empty_phrase search photos :
  isExactPhrase search = true → exactTerm search = "" →
  fallbackFiltered search photos = sortedPhotos photos.
Proof.
  intros Hexact Hterm. destruct (exact_phrase_modes search Hexact) as (_ & _ & Hq).
  unfold fallbackFiltered. by rewrite Hq, Hexact, Hterm.
Qed.

End MergerFacts.

(** C4. For a free-text query whose trimmed, lower-cased length is
    below 3, the fuzzy list is empty whatever the similarity function is
    (it is never applied), and matching is the substring filter over the
    haystack of each record. *)
Theorem short_query_skips_fuzzy `{Host} (sim : string → string → Q)
    (search : string) (photos : list Photo) :
  String.length (searchLower search) < 3 →
  isExactPhrase search = false →
  fuzzyMatchesWith sim search photos = []
  ∧ fuzzyMatches search photos = []
  ∧ fallbackFiltered search photos
    = List.filter (fun p => Js.includes (haystack p) (searchLower search))
        (sortedPhotos photos)
  ∧ displayPhotos search photos None
    = if hasSearch search
      then sortByDate (fallbackFiltered search photos)
      else sortedPhotos photos.
Proof.
  intros Hshort Hexact.
  assert (Hnote : isNoteSearch search = false) by (apply short_query_is_no_note; lia).
  assert (Hfuzzy : ∀ f, fuzzyMatchesWith f search photos = []).
  { intros f. unfold fuzzyMatchesWith. rewrite Hnote, Hexact. simpl.
    by rewrite (proj2 (Nat.ltb_lt _ _) Hshort). }
  split; [apply Hfuzzy |]. split; [apply Hfuzzy |].
  split; [by apply fallbackFiltered_free_text |].
  unfold displayPhotos, displayPhotosWith, fuzzyMatches.
  rewrite Hnote, Hexact, Hfuzzy. simpl.
  rewrite orb_false_r. by destruct (hasSearch search).
Qed.

Lemma short_query_skips_fuzzy_witness :
  let photos := [withTags (Has ["cozy"; "knit"]) (freshRow "p1" "100");
                 withCaption (Has "Sunset at the pier") (freshRow "p2" "200")] in
  String.length (searchLower " Co ") < 3
  ∧ isExactPhrase " Co " = false
  ∧ @fuzzyMatches sampleHost " Co " photos = []
  ∧ map id (@fallbackFiltered sampleHost " Co " photos) = ["p1"]
  ∧ map id (@displayPhotos sampleHost " Co " photos None) = ["p1"].
Proof.
  intros photos.
  assert (Hshort : String.length (searchLower " Co ") < 3) by (vm_compute; lia).
  assert (Hexact : isExactPhrase " Co " = false) by reflexivity.
  destruct (@short_query_skips_fuzzy sampleHost similarity " Co " photos Hshort Hexact)
    as (_ & Hfuzzy & Hfallback & Hdisplay).
  split; [exact Hshort |]. split; [exact Hexact |]. split; [exact Hfuzzy |].
  split.
  - exact (eq_trans (f_equal (map id) Hfallback) eq_refl).
  - exact (eq_trans (f_equal (map id) Hdisplay) eq_refl).
Defined.

(** C5.  The pattern built from an escaped phrase is a word boundary, the
    characters of the phrase read literally, and a word boundary.  For an
    exact-phrase query a record matches exactly when the phrase occurs as
    whole words in its haystack (the searchable fields and the long and
    short renderings of its date); for the empty phrase, where no pattern is
    built and every record matches, this supposes a word character in each
    haystack.  The displayed list is this filter re-sorted by date, whatever
    the fuzzy and semantic lists hold.  The phrase [red shoes] matches
    [i love red shoes today] and does not match [i love redshoes today]. *)
Theorem exact_phrase_is_whole_word `{Host} (search : string)
    (photos fuzzy : list Photo) (semanticPhotos : option (list Photo)) :
  isExactPhrase search = true →
  (exactTerm search ≠ ""
   ∨ ∀ p, p ∈ photos → Regex.hasWordChar (haystack p) = true) →
  phraseRegex (exactTerm search)
  = Some (Regex.WordBoundary
            :: map Regex.Lit (Js.chars (exactTerm search))
            ++ [Regex.WordBoundary])%list
  ∧ (∀ r text, phraseRegex (exactTerm search) = Some r →
               Regex.test r text = true ↔ Regex.occursAsWords (exactTerm search) text)
  ∧ (∀ p, p ∈ fallbackFiltered search photos ↔
          p ∈ photos ∧ Regex.occursAsWords (exactTerm search) (haystack p))
  ∧ displayPhotosWith fuzzy search photos semanticPhotos
    = sortByDate (fallbackFiltered search photos)
  ∧ option_map (fun r => Regex.test r "i love red shoes today") (phraseRegex "red shoes")
    = Some true
  ∧ option_map (fun r => Regex.test r "i love redshoes today") (phraseRegex "red shoes")
    = Some false.
Proof.
  intros Hexact Hcase.
  split; [apply phraseRegex_atoms |]. split; [| split; [| split; [| split]]].
  - intros r text. rewrite phraseRegex_atoms. intros [= <-]. apply test_occursAsWords.
  - intros p. destruct (decide (exactTerm search = "")) as [Hempty|Hterm].
    + rewrite (fallbackFiltered_empty_phrase _ _ Hexact Hempty).
      unfold sortedPhotos, sortByDate. rewrite jsSort_elem_of.
      destruct Hcase as [Hterm|Hwords]; [done |].
      split; [| by intros [? _]]. intros Hp. split; [done |].
      rewrite Hempty. by apply occursAsWords_empty, Hwords.
    + rewrite (fallbackFiltered_exact _ _ Hexact Hterm).
      rewrite list_elem_of_In, filter_In, <- list_elem_of_In.
      unfold sortedPhotos, sortByDate. rewrite jsSort_elem_of.
      by rewrite test_occursAsWords.
  - by apply displayPhotosWith_exact.
  - reflexivity.
  - reflexivity.
Qed.

Lemma exact_phrase_is_whole_word_witness :
  let search := dquote ++ "Red Shoes" ++ dquote in
  let spaced := withCaption (Has "I love red shoes today") (freshRow "p1" "100") in
  let joined := withCaption (Has "I love redshoes today") (freshRow "p2" "200") in
  isExactPhrase search = true
  ∧ exactTerm search = "red shoes"
  ∧ map id (@displayPhotosWith sampleHost [joined] search [spaced; joined] (Some [joined]))
    = ["p1"].
Proof.
  intros search spaced joined.
  assert (Hexact : isExactPhrase search = true) by reflexivity.
  assert (Hterm : exactTerm search = "red shoes") by reflexivity.
  assert (Hne : exactTerm search ≠ "") by (rewrite Hterm; discriminate).
  destruct (@exact_phrase_is_whole_word sampleHost search [spaced; joined] [joined]
              (Some [joined]) Hexact (or_introl Hne)) as (_ & _ & _ & Hdisplay & _).
  split; [exact Hexact |]. split; [exact Hterm |].
  exact (eq_trans (f_equal (map id) Hdisplay) eq_refl).
Defined.

(** ** Semantic failure *)

Section SoftFailure.
Import SemanticEffect.

Lemma fetched_failed r : failed r = true → (fetched r).1 = None.
Proof.
  destruct r as [|res]; [done |]. simpl.
  destruct (ok res); simpl; [| done].
  by destruct (body res) as [|[| |photos]].
Qed.

Lemma fetched_never_alerts r : existsb isAlert (fetched r).2 = false.
Proof.
  destruct r as [|res]; [done |]. simpl.
  destruct (ok res); simpl; [| done].
  by destruct (body res) as [|[| |photos]].
Qed.

Lemma POST_without_embedding req embed select :
  (∀ text, embed text = SemanticSearch.EmbedThrows
           ∨ embed text = SemanticSearch.EmbedEmpty) →
  ∃ status message,
    SemanticSearch.POST req embed select = SemanticSearch.Plain status message
    ∧ (status = 400 ∨ status = 500).
Proof.
  intros Hembed. unfold SemanticSearch.POST. destruct req as [r|]; [| eauto].
  destruct (negb (Js.truthy _)); [eauto |].
  destruct (negb (Js.truthy _)); [eauto |].
  destruct (Hembed (Js.trim (orElse (SemanticSearch.query r) ""))) as [-> | ->]; eauto.
Qed.

Lemma POST_select_error req embed select :
  (∀ owner, select owner = SemanticSearch.SelectError) →
  ∃ status message,
    SemanticSearch.POST req embed select = SemanticSearch.Plain status message
    ∧ (status = 400 ∨ status = 500).
Proof.
  intros Hselect. unfold SemanticSearch.POST. destruct req as [r|]; [| eauto].
  destruct (negb (Js.truthy _)); [eauto |].
  destruct (negb (Js.truthy _)); [eauto |].
  destruct (embed _); eauto. rewrite Hselect. eauto.
Qed.

Lemma transport_plain_failed status message :
  status = 400 ∨ status = 500 →
  failed (transport (SemanticSearch.Plain status message)) = true.
Proof. by intros [-> | ->]. Qed.

End SoftFailure.

(** C7. When the semantic-search request fails (the fetch rejects, the
    status is not a success, the body does not parse or carries no list),
    [semanticPhotos] becomes [null] and the displayed list is the output of
    the Text Matcher: for a free-text query, the fuzzy list followed by the
    unseen entries of the fallback list when the fuzzy list is non-empty,
    the fallback list otherwise, re-sorted by date.  No outcome of the
    request raises an alert.  A route whose embedding call or rows query
    fails answers with such a failure. *)
Theorem semantic_failure_is_soft `{Host} (r : SemanticEffect.FetchResult)
    (search : string) (photos : list Photo)
    (req : option SemanticSearch.Request)
    (embed : string → SemanticSearch.EmbedResult)
    (select : string → SemanticSearch.SelectResult) :
  (SemanticEffect.failed r = true →
   (SemanticEffect.fetched r).1 = None
   ∧ displayPhotos search photos (SemanticEffect.fetched r).1
     = displayPhotos search photos None
   ∧ (hasSearch search = true → isNoteSearch search = false →
      isExactPhrase search = false →
      displayPhotos search photos (SemanticEffect.fetched r).1
      = if 0 <? length (fuzzyMatches search photos)
        then sortByDate (mergeUnique (fuzzyMatches search photos)
                           (fallbackFiltered search photos))
        else sortByDate (fallbackFiltered search photos)))
  ∧ existsb SemanticEffect.isAlert (SemanticEffect.fetched r).2 = false
  ∧ ((∀ text, embed text = SemanticSearch.EmbedThrows
              ∨ embed text = SemanticSearch.EmbedEmpty) →
     SemanticEffect.failed (SemanticEffect.transport (SemanticSearch.POST req embed select))
     = true)
  ∧ ((∀ owner, select owner = SemanticSearch.SelectError) →
     SemanticEffect.failed (SemanticEffect.transport (SemanticSearch.POST req embed select))
     = true).
Proof.
  split; [| split; [apply fetched_never_alerts | split]].
  - intros Hfailed. rewrite (fetched_failed r Hfailed).
    split; [done |]. split; [done |]. apply displayPhotos_free_text.
  - intros Hembed.
    destruct (POST_without_embedding req embed select Hembed) as (st & msg & -> & Hst).
    by apply transport_plain_failed.
  - intros Hselect.
    destruct (POST_select_error req embed select Hselect) as (st & msg & -> & Hst).
    by apply transport_plain_failed.
Qed.

Lemma semantic_failure_is_soft_witness :
  let cozy := withTags (Has ["cozy"; "knit"]) (freshRow "p1" "100") in
  let other := withCaption (Has "Sunset at the pier") (freshRow "p2" "200") in
  let req := Some (SemanticSearch.mkRequest (Has "cozy") (Has "owner")) in
  let embed := fun _ : string => SemanticSearch.EmbedThrows in
  let select := fun _ : string => SemanticSearch.Selected (Some [cozy; other]) in
  let r := SemanticEffect.transport (SemanticSearch.POST req embed select) in
  SemanticEffect.failed r = true
  ∧ SemanticEffect.fetched r = (None, [SemanticEffect.ConsoleError "semantic search error:"])
  ∧ map id (@displayPhotos sampleHost "cozy" [cozy; other] (SemanticEffect.fetched r).1)
    = ["p1"].
Proof.
  intros cozy other req embed select r.
  destruct (@semantic_failure_is_soft sampleHost r "cozy" [cozy; other] req embed select)
    as (Hsoft & _ & Hroute & _).
  assert (Hfailed : SemanticEffect.failed r = true) by (apply Hroute; intros; by left).
  destruct (Hsoft Hfailed) as (_ & _ & Hdisplay).
  split; [exact Hfailed |]. split; [reflexivity |].
  rewrite (Hdisplay eq_refl eq_refl eq_refl). vm_compute. reflexivity.
Defined.

(** ** End-to-end ranking of a free-text query *)

Section Cozy.
Context `{Host}.

Lemma filter_Permutation_bool {A} (f : A → bool) (l k : list A) :
  l ≡ₚ k → List.filter f l ≡ₚ List.filter f k.
Proof.
  induction 1 as [|x l k Hlk IH|x y l|l k m Hlk IH1 Hkm IH2]; simpl.
  - done.
  - destruct (f x); [by constructor | done].
  - destruct (f x), (f y); try done. apply Permutation_swap.
  - by etrans.
Qed.

(** A filter that keeps one record of the snapshot keeps it in the
    sorted snapshot as well. *)
Lemma filter_sorted_single {B} (g : Photo → B) (f : B → bool)
    (photos : list Photo) (x : B) :
  List.filter f (map g photos) = [x] →
  List.filter f (map g (sortedPhotos photos)) = [x].
Proof.
  intros Hx. apply Permutation_singleton_r. rewrite <- Hx.
  apply filter_Permutation_bool, Permutation_map.
  unfold sortedPhotos, sortByDate. apply jsSort_perm.
Qed.

Lemma mergeUnique_same (p : Photo) : mergeUnique [p] [p] = [p].
Proof.
  unfold mergeUnique. simpl. unfold pushIfNew at 2. simpl.
  rewrite bool_decide_false by set_solver.
  unfold pushIfNew. simpl. by rewrite bool_decide_true by set_solver.
Qed.

Lemma sortByDate_single (p : Photo) : sortByDate [p] = [p].
Proof. reflexivity. Qed.

End Cozy.

(** C3, as the code has it.  The query [cozy] runs against three records:
    one tagged [cozy] and [knit], one whose caption is [a kozy evening], and
    one unrelated record (no score of 0.42 or more, no occurrence of the
    query in its haystack).  The first record scores 1 by a substring hit.
    The caption of the second is one token, so its score is
    [similarity "cozy" "a kozy evening" = 3/14], below the threshold 0.42;
    [similarity "cozy" "kozy" = 3/4] holds but is not what the matcher
    computes.  Without semantic results, the fuzzy list, the fallback list
    and the displayed list all hold exactly the first record. *)
Theorem cozy_query_end_to_end `{Host} (id1 at1 id2 at2 : string) (unrelated : Photo)
    (semanticPhotos : option (list Photo)) :
  let tagged := withTags (Has ["cozy"; "knit"]) (freshRow id1 at1) in
  let captioned := withCaption (Has "a kozy evening") (freshRow id2 at2) in
  let photos := [tagged; captioned; unrelated] in
  nonEmpty semanticPhotos = false →
  Js.includes (haystack captioned) "cozy" = false →
  Js.includes (haystack unrelated) "cozy" = false →
  Qle_bool (42 # 100) (bestScore "cozy" unrelated) = false →
  (bestScore "cozy" tagged == 1)%Q
  ∧ (bestScore "cozy" captioned == 3 # 14)%Q
  ∧ (similarity "cozy" "a kozy evening" == 3 # 14)%Q
  ∧ (similarity "cozy" "kozy" == 3 # 4)%Q
  ∧ fuzzyMatches "cozy" photos = [tagged]
  ∧ fallbackFiltered "cozy" photos = [tagged]
  ∧ displayPhotos "cozy" photos semanticPhotos = [tagged].
Proof.
  intros tagged captioned photos Hsemantic Hcaptioned Hunrelated Hscore.
  assert (Hfuzzy : fuzzyMatches "cozy" photos = [tagged]).
  { change (fuzzyMatches "cozy" photos)
      with (map photo
              (jsSort byScoreDesc
                 (List.filter (fun s => Qle_bool (42 # 100) (score s))
                    (map (fun p => mkScored p (bestScore "cozy" p))
                       (sortedPhotos photos))))).
    rewrite (filter_sorted_single
               (fun p => mkScored p (bestScore "cozy" p))
               (fun s => Qle_bool (42 # 100) (score s))
               photos (mkScored tagged (bestScore "cozy" tagged))); [done |].
    subst photos. cbn [map List.filter score].
    change (Qle_bool (42 # 100) (bestScore "cozy" tagged)) with true.
    change (Qle_bool (42 # 100) (bestScore "cozy" captioned)) with false.
    cbv iota. by rewrite Hscore. }
  assert (Hfallback : fallbackFiltered "cozy" photos = [tagged]).
  { rewrite fallbackFiltered_free_text by reflexivity.
    change (searchLower "cozy") with "cozy".
    rewrite <- (map_id (sortedPhotos photos)).
    apply (filter_sorted_single (fun p => p)). rewrite map_id.
    subst photos. cbn [List.filter]. rewrite Hcaptioned, Hunrelated.
    assert (Js.includes (haystack tagged) "cozy" = true) as -> by (vm_compute; reflexivity).
    done. }
  split; [reflexivity |]. split; [reflexivity |].
  split; [reflexivity |]. split; [reflexivity |].
  split; [exact Hfuzzy |]. split; [exact Hfallback |].
  unfold displayPhotos, displayPhotosWith.
  change (negb (hasSearch "cozy") || isNoteSearch "cozy") with false.
  change (isExactPhrase "cozy") with false. cbv iota.
  rewrite Hsemantic, Hfuzzy, Hfallback. simpl.
  by rewrite mergeUnique_same.
Qed.

Lemma cozy_query_end_to_end_witness :
  let tagged := withTags (Has ["cozy"; "knit"]) (freshRow "p1" "100") in
  let captioned := withCaption (Has "a kozy evening") (freshRow "p2" "200") in
  let unrelated := withCaption (Has "Sunset at the pier") (freshRow "p3" "300") in
  nonEmpty (None : option (list Photo)) = false
  ∧ Js.includes (@haystack sampleHost captioned) "cozy" = false
  ∧ Js.includes (@haystack sampleHost unrelated) "cozy" = false
  ∧ Qle_bool (42 # 100) (bestScore "cozy" unrelated) = false
  ∧ @displayPhotos sampleHost "cozy" [tagged; captioned; unrelated] None = [tagged].
Proof.
  intros tagged captioned unrelated.
  assert (H1 : nonEmpty (None : option (list Photo)) = false) by reflexivity.
  assert (H2 : Js.includes (@haystack sampleHost captioned) "cozy" = false) by reflexivity.
  assert (H3 : Js.includes (@haystack sampleHost unrelated) "cozy" = false) by reflexivity.
  assert (H4 : Qle_bool (42 # 100) (bestScore "cozy" unrelated) = false) by reflexivity.
  destruct (@cozy_query_end_to_end sampleHost "p1" "100" "p2" "200" unrelated None
              H1 H2 H3 H4) as (_ & _ & _ & _ & _ & _ & Hdisplay).
  split; [exact H1 |]. split; [exact H2 |]. split; [exact H3 |]. split; [exact H4 |].
  exact Hdisplay.
Defined.

(** C3 as stated fails: on the three records of the scenario the second
    record is scored 3/14, not 3/4, and is not displayed. *)
Lemma cozy_caption_is_not_a_fuzzy_hit :
  let tagged := withTags (Has ["cozy"; "knit"]) (freshRow "p1" "100") in
  let captioned := withCaption (Has "a kozy evening") (freshRow "p2" "200") in
  let unrelated := withCaption (Has "Sunset at the pier") (freshRow "p3" "300") in
  let photos := [tagged; captioned; unrelated] in
  tokens captioned = ["a kozy evening"; ""; ""; ""]
  ∧ (bestScore "cozy" captioned == 3 # 14)%Q
  ∧ ¬ (bestScore "cozy" captioned == 3 # 4)%Q
  ∧ Qle_bool (42 # 100) (bestScore "cozy" captioned) = false
  ∧ map id (@fuzzyMatches sampleHost "cozy" photos) = ["p1"]
  ∧ map id (@fallbackFiltered sampleHost "cozy" photos) = ["p1"]
  ∧ map id (@displayPhotos sampleHost "cozy" photos None) = ["p1"]
  ∧ "p2" ∉ map id (@displayPhotos sampleHost "cozy" photos None).
Proof.
  intros tagged captioned unrelated photos.
  split; [reflexivity |].
  split; [vm_compute; reflexivity |].
  split; [intros Hscore; vm_compute in Hscore; discriminate |].
  split; [vm_compute; reflexivity |].
  split; [vm_compute; reflexivity |].
  split; [vm_compute; reflexivity |].
  split; [vm_compute; reflexivity |].
  intros Hin. vm_compute in Hin. by apply list_elem_of_singleton in Hin.
Qed.

(* ================================================================= *)
(** * Part III: further properties of the code *)
(* ================================================================= *)

(** ** [levenshtein] is a metric *)

Section Metric.

Lemma Aligned_same (a : list ascii) : Aligned a a 0.
Proof.
  induction a as [|x a IH] using rev_ind; [constructor | by apply aligned_keep].
Qed.

Lemma Aligned_zero (a b : list ascii) n : Aligned a b n → n = 0 → a = b.
Proof.
  induction 1 as [|a b x n H IH|a b y n H IH|a b x n H IH|a b x y n H IH];
    intros Hn; try done.
  by rewrite IH.
Qed.

Lemma Aligned_lengths (a b : list ascii) n :
  Aligned a b n → length a ≤ length b + n ∧ length b ≤ length a + n.
Proof.
  induction 1 as [|a b x n H IH|a b y n H IH|a b x n H IH|a b x y n H IH];
    rewrite ?length_app; simpl; lia.
Qed.

(** Two alignments compose, at no more than the sum of their costs. *)
Lemma Aligned_compose (a b : list ascii) n :
  Aligned a b n →
  ∀ c m, Aligned b c m → ∃ k, k ≤ n + m ∧ Aligned a c k.
Proof.
  induction 1 as [|a b x n H IH|a b y n H IH|a b x n H IH|a b x y n H IH];
    intros c m H2.
  - exists m. split; [lia | done].
  - destruct (IH c m H2) as (k & Hk & Hac).
    exists (S k). split; [lia | by apply aligned_delete].
  - remember (b ++ [y])%list as by' eqn:Hby.
    induction H2 as [|b' c x' m H2 IH2|b' c y' m H2 IH2|b' c x' m H2 IH2|b' c x' y' m H2 IH2].
    + by destruct b.
    + apply app_inj_tail in Hby as [-> ->].
      destruct (IH c m H2) as (k & Hk & Hac). exists k. split; [lia | done].
    + destruct (IH2 Hby) as (k & Hk & Hac).
      exists (S k). split; [lia | by apply aligned_insert].
    + apply app_inj_tail in Hby as [-> ->].
      destruct (IH c m H2) as (k & Hk & Hac).
      exists (S k). split; [lia | by apply aligned_insert].
    + apply app_inj_tail in Hby as [-> ->].
      destruct (IH c m H2) as (k & Hk & Hac).
      exists (S k). split; [lia | by apply aligned_insert].
  - remember (b ++ [x])%list as bx eqn:Hbx.
    induction H2 as [|b' c x' m H2 IH2|b' c y' m H2 IH2|b' c x' m H2 IH2|b' c x' y' m H2 IH2].
    + by destruct b.
    + apply app_inj_tail in Hbx as [-> ->].
      destruct (IH c m H2) as (k & Hk & Hac).
      exists (S k). split; [lia | by apply aligned_delete].
    + destruct (IH2 Hbx) as (k & Hk & Hac).
      exists (S k). split; [lia | by apply aligned_insert].
    + apply app_inj_tail in Hbx as [-> ->].
      destruct (IH c m H2) as (k & Hk & Hac).
      exists k. split; [lia | by apply aligned_keep].
    + apply app_inj_tail in Hbx as [-> ->].
      destruct (IH c m H2) as (k & Hk & Hac).
      exists (S k). split; [lia | by apply aligned_subst].
  - remember (b ++ [y])%list as by' eqn:Hby.
    induction H2 as [|b' c x' m H2 IH2|b' c y' m H2 IH2|b' c x' m H2 IH2|b' c x' y' m H2 IH2].
    + by destruct b.
    + apply app_inj_tail in Hby as [-> ->].
      destruct (IH c m H2) as (k & Hk & Hac).
      exists (S k). split; [lia | by apply aligned_delete].
    + destruct (IH2 Hby) as (k & Hk & Hac).
      exists (S k). split; [lia | by apply aligned_insert].
    + apply app_inj_tail in Hby as [-> ->].
      destruct (IH c m H2) as (k & Hk & Hac).
      exists (S k). split; [lia | by apply aligned_subst].
    + apply app_inj_tail in Hby as [-> ->].
      destruct (IH c m H2) as (k & Hk & Hac).
      exists (S k). split; [lia | by apply aligned_subst].
Qed.

Lemma chars_inj (a b : string) : Js.chars a = Js.chars b → a = b.
Proof.
  intros Heq. by rewrite <- (ofChars_chars a), <- (ofChars_chars b), Heq.
Qed.

Lemma levenshtein_zero (a b : string) : levenshtein a b = 0 ↔ a = b.
Proof.
  split.
  - intros Hzero. apply chars_inj.
    apply (Aligned_zero _ _ _ (levenshtein_aligned a b) Hzero).
  - intros ->. apply levenshtein_same.
Qed.

Lemma similarity_same (x : string) : x ≠ "" → (similarity x x == 1)%Q.
Proof.
  intros Hx. rewrite similarity_unfold by (pose proof (string_length_pos x Hx); lia).
  rewrite levenshtein_same. simpl. unfold Qdiv. rewrite Qmult_0_l. reflexivity.
Qed.

End Metric.

(** [levenshtein] is a metric on strings: the distance is zero exactly
    for equal strings, it obeys the triangle inequality, and it is at least
    the difference of the two lengths. *)
Theorem levenshtein_metric (a b c : string) :
  (levenshtein a b = 0 ↔ a = b)
  ∧ levenshtein a c ≤ levenshtein a b + levenshtein b c
  ∧ String.length a - String.length b ≤ levenshtein a b
  ∧ String.length b - String.length a ≤ levenshtein a b.
Proof.
  split; [apply levenshtein_zero | split].
  - destruct (Aligned_compose _ _ _ (levenshtein_aligned a b) _ _ (levenshtein_aligned b c))
      as (k & Hk & Hac).
    apply levenshtein_least in Hac. lia.
  - pose proof (Aligned_lengths _ _ _ (levenshtein_aligned a b)) as H.
    rewrite !length_chars in H. lia.
Qed.

(** [similarity] is 1 exactly for two equal, non-empty strings. *)
Theorem similarity_one_iff_equal (a b : string) :
  (similarity a b == 1)%Q ↔ a = b ∧ a ≠ "".
Proof.
  split.
  - intros Hone. unfold similarity in Hone.
    destruct (Nat.eqb_spec (Nat.max (String.length a) (String.length b)) 0) as [Hlen|Hlen];
      [discriminate |].
    assert (Hzero : levenshtein a b = 0).
    { destruct (levenshtein a b) as [|d] eqn:Hd; [done |]. exfalso.
      assert (Hpos : (0 < inject_Z (Z.of_nat (S d))
                          / inject_Z (Z.of_nat (Nat.max (String.length a) (String.length b))))%Q).
      { apply Qlt_shift_div_l.
        - change 0%Q with (inject_Z 0). rewrite <- Zlt_Qlt. lia.
        - rewrite Qmult_0_l. change 0%Q with (inject_Z 0). rewrite <- Zlt_Qlt. lia. }
      revert Hone Hpos.
      generalize (inject_Z (Z.of_nat (S d))
                  / inject_Z (Z.of_nat (Nat.max (String.length a) (String.length b))))%Q.
      intros r Hone Hpos. Lqa.lra. }
    apply levenshtein_zero in Hzero. subst b.
    split; [done |]. intros ->. simpl in Hlen. lia.
  - intros [<- Hne]. by apply similarity_same.
Qed.

(** ** [cosineSimilarity] *)

Section Cosine.
Import SemanticSearch.
Open Scope R_scope.

Lemma accumulate_sums (a b : list number) (n : nat) :
  fold_left (accumulate a b) (seq 0 n) (0, 0, 0)
  = (dotUpTo a b n, dotUpTo a a n, dotUpTo b b n).
Proof.
  induction n as [|n IH]; [done |].
  rewrite seq_S, fold_left_app, IH. reflexivity.
Qed.

Lemma cosineSimilarity_sums (a b : list number) :
  let n := Nat.min (length a) (length b) in
  cosineSimilarity a b
  = if bool_decide (dotUpTo a a n = 0) || bool_decide (dotUpTo b b n = 0) then 0
    else dotUpTo a b n / (sqrt (dotUpTo a a n) * sqrt (dotUpTo b b n)).
Proof. intros n. unfold cosineSimilarity. by rewrite accumulate_sums. Qed.

Lemma dotUpTo_comm (a b : list number) (n : nat) : dotUpTo a b n = dotUpTo b a n.
Proof. induction n as [|n IH]; simpl; [done |]. rewrite IH. lra. Qed.

Lemma dotUpTo_square_nonneg (a : list number) (n : nat) : 0 <= dotUpTo a a n.
Proof.
  induction n as [|n IH]; simpl; [lra |].
  pose proof (Rle_0_sqr (nth n a 0)) as Hsq. unfold Rsqr in Hsq. lra.
Qed.

Lemma dotUpTo_zeros (a : list number) (n : nat) :
  n ≤ length a → Forall (fun x => x = 0) a → dotUpTo a a n = 0.
Proof.
  intros Hn Hzero. induction n as [|n IH]; simpl; [done |].
  rewrite IH by lia. rewrite Forall_forall in Hzero.
  rewrite (Hzero (nth n a 0)); [lra |].
  apply list_elem_of_In, nth_In. lia.
Qed.

Lemma dotUpTo_square_zero (a : list number) (n : nat) :
  dotUpTo a a n = 0 → ∀ i, (i < n)%nat → nth i a 0 = 0.
Proof.
  induction n as [|n IH]; simpl; intros Hsum i Hi; [lia |].
  pose proof (dotUpTo_square_nonneg a n) as Hn.
  pose proof (Rle_0_sqr (nth n a 0)) as Hsq. unfold Rsqr in Hsq.
  destruct (decide (i = n)) as [->|Hne].
  - assert (Hz : nth n a 0 * nth n a 0 = 0) by lra.
    apply Rmult_integral in Hz. tauto.
  - apply IH; [lra | lia].
Qed.

(** The inequality of Cauchy and Schwarz for the accumulated sums. *)
Lemma dotUpTo_cauchy_schwarz (a b : list number) (n : nat) :
  dotUpTo a b n * dotUpTo a b n <= dotUpTo a a n * dotUpTo b b n.
Proof.
  induction n as [|n IH]; simpl; [lra |].
  pose proof (dotUpTo_square_nonneg a n) as HA.
  pose proof (dotUpTo_square_nonneg b n) as HB.
  set (d := dotUpTo a b n) in *. set (A := dotUpTo a a n) in *.
  set (B := dotUpTo b b n) in *.
  set (x := nth n a 0). set (y := nth n b 0).
  assert (Hcross : 2 * d * x * y <= A * (y * y) + B * (x * x)).
  { destruct (Req_dec A 0) as [HA0|HA0].
    - assert (Hd : d = 0).
      { rewrite HA0 in IH. assert (d * d = 0) as Hdd.
        { pose proof (Rle_0_sqr d) as Hsq. unfold Rsqr in Hsq. lra. }
        apply Rmult_integral in Hdd. tauto. }
      rewrite Hd, HA0. pose proof (Rle_0_sqr x) as Hsq. unfold Rsqr in Hsq. nra.
    - assert (HApos : 0 < A) by lra.
      pose proof (Rle_0_sqr (A * y - d * x)) as Hsq. unfold Rsqr in Hsq.
      pose proof (Rle_0_sqr x) as Hx. unfold Rsqr in Hx.
      apply (Rmult_le_reg_l A); [done |]. nra. }
  nra.
Qed.

Lemma cosine_in_range (d A B : R) :
  0 < A → 0 < B → d * d <= A * B → -1 <= d / (sqrt A * sqrt B) <= 1.
Proof.
  intros HA HB Hcs.
  assert (Hs : 0 < sqrt A * sqrt B).
  { apply Rmult_lt_0_compat; by apply sqrt_lt_R0. }
  assert (Hss : (sqrt A * sqrt B) * (sqrt A * sqrt B) = A * B).
  { replace ((sqrt A * sqrt B) * (sqrt A * sqrt B))
      with ((sqrt A * sqrt A) * (sqrt B * sqrt B)) by ring.
    rewrite !sqrt_sqrt; lra. }
  set (s := sqrt A * sqrt B) in *.
  assert (Hup : d <= s) by nra.
  assert (Hlow : - s <= d) by nra.
  split.
  - apply (Rmult_le_reg_r s); [done |]. unfold Rdiv.
    rewrite Rmult_assoc, Rinv_l by lra. lra.
  - apply (Rmult_le_reg_r s); [done |]. unfold Rdiv.
    rewrite Rmult_assoc, Rinv_l by lra. lra.
Qed.

End Cosine.


(** The similarity is 0 when a vector is empty, and when every
    coordinate of a vector is 0. *)
Theorem cosineSimilarity_of_zero_vector (a b : list number) :
  Forall (fun x => x = 0%R) a →
  SemanticSearch.cosineSimilarity a b = 0%R
  ∧ SemanticSearch.cosineSimilarity b a = 0%R.
Proof.
  intros Hzero. rewrite !cosineSimilarity_sums. cbv zeta.
  rewrite (Nat.min_comm (length b) (length a)).
  rewrite (dotUpTo_zeros a) by (done || lia).
  rewrite bool_decide_true by done. split; [done |]. by rewrite orb_true_r.
Qed.

Lemma cosineSimilarity_of_zero_vector_witness :
  Forall (fun x => x = 0%R) [0%R; 0%R]
  ∧ SemanticSearch.cosineSimilarity [0%R; 0%R] [1%R; 2%R] = 0%R
  ∧ Forall (fun x => x = 0%R) ([] : list number)
  ∧ SemanticSearch.cosineSimilarity [1%R; 2%R] [] = 0%R.
Proof.
  assert (H1 : Forall (fun x => x = 0%R) [0%R; 0%R]) by (repeat constructor).
  assert (H2 : Forall (fun x => x = 0%R) ([] : list number)) by constructor.
  split; [exact H1 |].
  split; [exact (proj1 (cosineSimilarity_of_zero_vector [0%R; 0%R] [1%R; 2%R] H1)) |].
  split; [exact H2 |].
  exact (proj2 (cosineSimilarity_of_zero_vector [] [1%R; 2%R] H2)).
Defined.



(** ** The date order of the feed *)

Section DateOrder.
Context `{Host}.

Lemma byDateDesc_spec a b : byDateDesc a b = true ↔ newerFirst a b.
Proof. unfold byDateDesc, newerFirst. rewrite Z.leb_le. lia. Qed.

Lemma byDateDesc_total a b : byDateDesc a b = false → byDateDesc b a = true.
Proof.
  intros Hab. apply byDateDesc_spec. apply not_true_iff_false in Hab.
  rewrite byDateDesc_spec in Hab. unfold newerFirst in *. lia.
Qed.

Lemma byDateDesc_trans a b c :
  byDateDesc a b = true → byDateDesc b c = true → byDateDesc a c = true.
Proof. rewrite !byDateDesc_spec. unfold newerFirst. lia. Qed.

Lemma sortByDate_sorted l : StronglySorted newerFirst (sortByDate l).
Proof.
  pose proof (jsSort_sorted byDateDesc byDateDesc_total byDateDesc_trans l) as Hs.
  unfold sortByDate. induction Hs as [|x k Hk IH Hx]; constructor; [done |].
  eapply Forall_impl; [exact Hx |]. intros y Hy. by apply byDateDesc_spec.
Qed.

Lemma sortByDate_perm l : sortByDate l ≡ₚ l.
Proof. apply jsSort_perm. Qed.

(** Records of one instant keep their order (the sort is stable). *)
Lemma sortInsert_same_instant (t : Z) x l :
  List.filter (fun p => (getTime (created_at p) =? t)%Z) (sortInsert byDateDesc x l)
  = List.filter (fun p => (getTime (created_at p) =? t)%Z) (x :: l).
Proof.
  induction l as [|y l IH]; [done |].
  cbn [sortInsert]. destruct (byDateDesc x y) eqn:Hxy; [done |].
  cbn [List.filter] in *. rewrite IH.
  destruct (Z.eqb_spec (getTime (created_at x)) t) as [Hx|Hx]; [| done].
  destruct (Z.eqb_spec (getTime (created_at y)) t) as [Hy|Hy]; [| done].
  exfalso. apply not_true_iff_false in Hxy. apply Hxy.
  apply byDateDesc_spec. unfold newerFirst. lia.
Qed.

Lemma sortByDate_same_instant (t : Z) l :
  List.filter (fun p => (getTime (created_at p) =? t)%Z) (sortByDate l)
  = List.filter (fun p => (getTime (created_at p) =? t)%Z) l.
Proof.
  induction l as [|x l IH]; [done |].
  unfold sortByDate in *. cbn [jsSort foldr]. fold (jsSort byDateDesc l).
  rewrite sortInsert_same_instant. cbn [List.filter]. by rewrite IH.
Qed.

End DateOrder.

(** [sortedPhotos] holds the records of [photos], each as often as
    [photos] does, newest first; records with the same instant keep the
    order they have in [photos]. *)
Theorem sortedPhotos_newest_first `{Host} (photos : list Photo) (t : Z) :
  sortedPhotos photos ≡ₚ photos
  ∧ StronglySorted newerFirst (sortedPhotos photos)
  ∧ List.filter (fun p => (getTime (created_at p) =? t)%Z) (sortedPhotos photos)
    = List.filter (fun p => (getTime (created_at p) =? t)%Z) photos.
Proof.
  split; [apply sortByDate_perm |].
  split; [apply sortByDate_sorted | apply sortByDate_same_instant].
Qed.

(** Whatever the query, its mode and the semantic results, the displayed
    photos come newest first. *)
Theorem displayPhotos_newest_first `{Host} (search : string) (photos : list Photo)
    (semanticPhotos : option (list Photo)) :
  StronglySorted newerFirst (displayPhotos search photos semanticPhotos).
Proof.
  unfold displayPhotos, displayPhotosWith, sortedPhotos.
  repeat (match goal with |- context [if ?c then _ else _] => destruct c end);
    apply sortByDate_sorted.
Qed.

(** ** The snapshot: first occurrences, merges and deletions *)

Section FirstOccurrences.
Import Reconciliation.

Lemma keepUnseen_fold data :
  ∀ seen kept,
    (fold_left keepUnseen data (seen, kept)).2 = (kept ++ firstById seen data)%list.
Proof.
  induction data as [|p data IH]; intros seen kept; simpl.
  - by rewrite app_nil_r.
  - unfold keepUnseen at 2. simpl. case_bool_decide as Hp; [apply IH |].
    rewrite IH. by rewrite <- app_assoc.
Qed.

Lemma unique_firstById data : unique data = firstById ∅ data.
Proof. unfold unique. by rewrite keepUnseen_fold. Qed.

Lemma mergeUnique_unique fuzzy fallback :
  mergeUnique fuzzy fallback = unique (fuzzy ++ fallback).
Proof. unfold mergeUnique, unique. by rewrite fold_left_app. Qed.

Lemma firstById_sublist seen l : firstById seen l `sublist_of` l.
Proof.
  revert seen. induction l as [|p l IH]; intros seen; simpl; [done |].
  case_bool_decide; [by apply sublist_cons | by apply sublist_skip].
Qed.

Lemma firstById_fresh seen l k : k ∈ map id (firstById seen l) → k ∉ seen.
Proof.
  revert seen. induction l as [|p l IH]; intros seen; simpl.
  - by intros ?%not_elem_of_nil.
  - case_bool_decide as Hp; [apply IH |]. simpl.
    intros [->|Hk]%elem_of_cons; [done |]. apply IH in Hk. set_solver.
Qed.

Lemma firstById_uniqueIds seen l : uniqueIds (firstById seen l).
Proof.
  unfold uniqueIds. revert seen. induction l as [|p l IH]; intros seen; simpl.
  - constructor.
  - case_bool_decide as Hp; [apply IH |]. simpl. apply NoDup_cons.
    split; [| apply IH]. intros Hin%firstById_fresh. set_solver.
Qed.

Lemma firstById_find seen l k :
  k ∉ seen →
  List.find (fun p => String.eqb (id p) k) (firstById seen l)
  = List.find (fun p => String.eqb (id p) k) l.
Proof.
  revert seen. induction l as [|p l IH]; intros seen Hk; simpl; [done |].
  case_bool_decide as Hp; simpl.
  - destruct (String.eqb_spec (id p) k) as [Heq|Hne]; [congruence | by apply IH].
  - destruct (String.eqb_spec (id p) k) as [Heq|Hne]; [done |].
    apply IH. set_solver.
Qed.

Lemma firstById_filter seen l :
  uniqueIds l →
  firstById seen l = List.filter (fun p => negb (bool_decide (id p ∈ seen))) l.
Proof.
  unfold uniqueIds. revert seen. induction l as [|p l IH]; intros seen; simpl; [done |].
  intros [Hp Hl]%NoDup_cons. case_bool_decide as Hseen; simpl; [by apply IH |].
  f_equal. rewrite (IH _ Hl). apply filter_ext_in. intros q Hq. f_equal.
  apply bool_decide_ext. rewrite elem_of_union, elem_of_singleton. split; [| tauto].
  intros [Heq|Hin]; [| done]. exfalso. apply Hp. rewrite <- Heq.
  apply list_elem_of_fmap. exists q. split; [done | by apply list_elem_of_In].
Qed.

Lemma firstById_app seen f g :
  firstById seen (f ++ g)
  = (firstById seen f ++ firstById (list_to_set (map id f) ∪ seen) g)%list.
Proof.
  revert seen. induction f as [|p f IH]; intros seen; simpl.
  - f_equal. set_solver.
  - case_bool_decide as Hp.
    + rewrite IH. do 2 f_equal. set_solver.
    + simpl. rewrite IH. do 3 f_equal. set_solver.
Qed.

End FirstOccurrences.

(** The rows kept by [loadPhotos]: no two share an id, they come in the
    order of the fetched rows, each id is represented by its first row, and
    rows whose ids are already distinct are all kept. *)
Theorem unique_keeps_first_rows (data : list Photo) (k : string) :
  Reconciliation.uniqueIds (Reconciliation.unique data)
  ∧ Reconciliation.unique data `sublist_of` data
  ∧ List.find (fun p => String.eqb (id p) k) (Reconciliation.unique data)
    = List.find (fun p => String.eqb (id p) k) data
  ∧ (Reconciliation.uniqueIds data → Reconciliation.unique data = data).
Proof.
  rewrite unique_firstById.
  split; [apply firstById_uniqueIds |].
  split; [apply firstById_sublist |].
  split; [by apply firstById_find |].
  intros Hdata. rewrite firstById_filter by done.
  apply filter_all. intros p. by rewrite bool_decide_false.
Qed.

(** The merge of the fuzzy and the fallback list is the concatenation of
    the two with later duplicates of an id dropped; when neither list
    repeats an id, it is the fuzzy list followed by the fallback records
    whose id the fuzzy list lacks, and it repeats no id. *)
Theorem mergeUnique_fuzzy_first (fuzzy fallback : list Photo) :
  Reconciliation.uniqueIds fuzzy →
  Reconciliation.uniqueIds fallback →
  mergeUnique fuzzy fallback = Reconciliation.unique (fuzzy ++ fallback)
  ∧ mergeUnique fuzzy fallback
    = (fuzzy
       ++ List.filter (fun p => negb (bool_decide (id p ∈ map id fuzzy))) fallback)%list
  ∧ Reconciliation.uniqueIds (mergeUnique fuzzy fallback).
Proof.
  intros Hfuzzy Hfallback.
  split; [apply mergeUnique_unique |].
  rewrite mergeUnique_unique, unique_firstById.
  split; [| apply firstById_uniqueIds].
  rewrite firstById_app, (firstById_filter _ fuzzy Hfuzzy), (firstById_filter _ fallback Hfallback).
  f_equal.
  - apply filter_all. intros p. by rewrite bool_decide_false.
  - apply filter_ext. intros p. f_equal. apply bool_decide_ext.
    rewrite elem_of_union, elem_of_list_to_set. set_solver.
Qed.

Lemma mergeUnique_fuzzy_first_witness :
  let a := freshRow "a" "300" in
  let b := freshRow "b" "200" in
  let c := freshRow "c" "100" in
  Reconciliation.uniqueIds [b; a]
  ∧ Reconciliation.uniqueIds [a; b; c]
  ∧ map id (mergeUnique [b; a] [a; b; c]) = ["b"; "a"; "c"].
Proof.
  intros a b c.
  assert (H1 : Reconciliation.uniqueIds [b; a]) by (by apply (bool_decide_unpack _)).
  assert (H2 : Reconciliation.uniqueIds [a; b; c]) by (by apply (bool_decide_unpack _)).
  destruct (mergeUnique_fuzzy_first [b; a] [a; b; c] H1 H2) as (_ & Hmerge & _).
  split; [exact H1 |]. split; [exact H2 |].
  rewrite Hmerge. vm_compute. reflexivity.
Defined.

Section Inserts.
Import Reconciliation.

Lemma addPhotoIfNew_ids photo prev :
  map id (addPhotoIfNew photo prev)
  = if bool_decide (id photo ∈ map id prev) then map id prev
    else id photo :: map id prev.
Proof.
  unfold addPhotoIfNew. destruct (existsb _ prev) eqn:Hex.
  - apply existsb_sameId in Hex. by rewrite bool_decide_true.
  - rewrite bool_decide_false; [done |]. rewrite <- existsb_sameId. by rewrite Hex.
Qed.

Lemma addPhotoIfNew_absent photo prev :
  id photo ∉ map id prev → addPhotoIfNew photo prev = photo :: prev.
Proof.
  intros Hnot. unfold addPhotoIfNew.
  destruct (existsb _ prev) eqn:Hex; [| done]. by apply existsb_sameId in Hex.
Qed.

End Inserts.

(** [addPhotoIfNew] keeps the first record that arrives with an id: a
    second insert under the same id changes nothing, so an insert is
    idempotent; inserts under two different ids give the same records in
    either order. *)
Theorem addPhotoIfNew_first_wins (p q : Photo) (prev : list Photo) :
  (id p = id q →
   Reconciliation.addPhotoIfNew q (Reconciliation.addPhotoIfNew p prev)
   = Reconciliation.addPhotoIfNew p prev)
  ∧ (id p ≠ id q →
     Reconciliation.addPhotoIfNew q (Reconciliation.addPhotoIfNew p prev)
     ≡ₚ Reconciliation.addPhotoIfNew p (Reconciliation.addPhotoIfNew q prev)).
Proof.
  split.
  - intros Hid. apply addPhotoIfNew_present. rewrite addPhotoIfNew_ids, <- Hid.
    case_bool_decide; [done | apply elem_of_cons; by left].
  - intros Hne.
    destruct (decide (id p ∈ map id prev)) as [Hp|Hp];
      destruct (decide (id q ∈ map id prev)) as [Hq|Hq].
    + by rewrite !(addPhotoIfNew_present _ prev).
    + rewrite (addPhotoIfNew_present p prev), (addPhotoIfNew_absent q prev) by done.
      by rewrite (addPhotoIfNew_present p (q :: prev))
        by (simpl; apply elem_of_cons; by right).
    + rewrite (addPhotoIfNew_present q prev), (addPhotoIfNew_absent p prev) by done.
      by rewrite (addPhotoIfNew_present q (p :: prev))
        by (simpl; apply elem_of_cons; by right).
    + rewrite (addPhotoIfNew_absent p prev), (addPhotoIfNew_absent q prev) by done.
      rewrite (addPhotoIfNew_absent q (p :: prev)), (addPhotoIfNew_absent p (q :: prev))
        by (simpl; intros [?|?]%elem_of_cons; congruence).
      apply Permutation_swap.
Qed.

Lemma addPhotoIfNew_first_wins_witness :
  let p := withCaption (Has "first") (freshRow "p1" "100") in
  let q := withCaption (Has "second") (freshRow "p1" "100") in
  let r := freshRow "p2" "200" in
  id p = id q
  ∧ Reconciliation.addPhotoIfNew q (Reconciliation.addPhotoIfNew p []) = [p]
  ∧ id p ≠ id r
  ∧ Reconciliation.addPhotoIfNew r (Reconciliation.addPhotoIfNew p [])
    ≡ₚ Reconciliation.addPhotoIfNew p (Reconciliation.addPhotoIfNew r []).
Proof.
  intros p q r.
  assert (H1 : id p = id q) by reflexivity.
  assert (H2 : id p ≠ id r) by discriminate.
  split; [exact H1 |].
  split; [exact (proj1 (addPhotoIfNew_first_wins p q []) H1) |].
  split; [exact H2 |].
  exact (proj2 (addPhotoIfNew_first_wins p r []) H2).
Defined.

Section Entries.
Import Reconciliation.

Lemma step_keepsEntries st e : keepsEntries e = true → ids (step st e) = ids st.
Proof.
  unfold ids. destruct e; try discriminate; intros _; simpl.
  - apply applyUpdate_ids.
  - destruct data; [done |]. simpl. apply applyEnrichment_ids.
  - apply applyTags_ids.
  - done.
Qed.

Lemma run_keepsEntries es :
  ∀ st, forallb keepsEntries es = true → ids (run st es) = ids st.
Proof.
  induction es as [|e es IH]; intros st; [done |].
  intros [He Hes]%andb_true_iff.
  change (run st (e :: es)) with (run (step st e) es).
  rewrite IH by done. by apply step_keepsEntries.
Qed.

Lemma deleted_ids st photo :
  ids (step st (Deleted photo))
  = List.filter (fun k => negb (String.eqb k (id photo))) (ids st).
Proof.
  unfold ids. simpl. induction (photos st) as [|p l IH]; simpl; [done |].
  destruct (String.eqb (id p) (id photo)); simpl; by rewrite IH.
Qed.

End Entries.

(** Realtime updates, answers of the enrichment poll, tag edits and
    renders rewrite fields only: over any sequence of them the snapshot
    keeps the same ids in the same order. *)
Theorem field_updates_keep_entries (st : Reconciliation.Store)
    (es : list Reconciliation.event) :
  forallb keepsEntries es = true →
  Reconciliation.ids (Reconciliation.run st es) = Reconciliation.ids st.
Proof. apply run_keepsEntries. Qed.

Lemma field_updates_keep_entries_witness :
  let row := freshRow "p1" "100" in
  let other := freshRow "p2" "200" in
  let st := Reconciliation.run Reconciliation.initial
              [Reconciliation.LoadedPhotos [other; row]; Reconciliation.Rendered] in
  let es := [Reconciliation.UpdatePushed (withTags (Has ["a"]) row);
             Reconciliation.EnrichmentFetched [withCaption (Has "x") row; freshRow "p9" "900"];
             Reconciliation.TagsChanged "p2" None Absent;
             Reconciliation.Rendered] in
  forallb keepsEntries es = true
  ∧ Reconciliation.ids (Reconciliation.run st es) = ["p2"; "p1"].
Proof.
  intros row other st es.
  assert (H : forallb keepsEntries es = true) by reflexivity.
  split; [exact H |].
  exact (eq_trans (field_updates_keep_entries st es H) eq_refl).
Defined.

(** A deleted photo leaves the snapshot, the other entries stay in
    place, and no later realtime update, enrichment answer or tag edit
    brings it back. *)
Theorem deleted_photo_stays_deleted (st : Reconciliation.Store) (photo : Photo)
    (es : list Reconciliation.event) :
  forallb keepsEntries es = true →
  Reconciliation.ids
    (Reconciliation.run (Reconciliation.step st (Reconciliation.Deleted photo)) es)
  = List.filter (fun k => negb (String.eqb k (id photo))) (Reconciliation.ids st)
  ∧ id photo ∉ Reconciliation.ids
      (Reconciliation.run (Reconciliation.step st (Reconciliation.Deleted photo)) es).
Proof.
  intros Hes. rewrite (run_keepsEntries es _ Hes), deleted_ids.
  split; [done |]. intros Hin%list_elem_of_In%filter_In. destruct Hin as [_ Hne].
  by rewrite String.eqb_refl in Hne.
Qed.

Lemma deleted_photo_stays_deleted_witness :
  let row := freshRow "p1" "100" in
  let other := freshRow "p2" "200" in
  let st := Reconciliation.run Reconciliation.initial
              [Reconciliation.LoadedPhotos [other; row]; Reconciliation.Rendered] in
  let es := [Reconciliation.EnrichmentFetched [withCaption (Has "x") row];
             Reconciliation.UpdatePushed (withTags (Has ["a"]) row)] in
  forallb keepsEntries es = true
  ∧ Reconciliation.ids
      (Reconciliation.run (Reconciliation.step st (Reconciliation.Deleted row)) es)
    = ["p2"].
Proof.
  intros row other st es.
  assert (H : forallb keepsEntries es = true) by reflexivity.
  split; [exact H |].
  exact (eq_trans (proj1 (deleted_photo_stays_deleted st row es H)) eq_refl).
Defined.

Section Runs.
Import Reconciliation.

Lemma run_unique es :
  ∀ st, pollsInSync st es → uniqueIds (photos st) → uniqueIds (photos (run st es)).
Proof.
  induction es as [|e es IH]; intros st; [done |].
  intros [He Hes] Hst.
  change (run st (e :: es)) with (run (step st e) es).
  apply (IH (step st e) Hes).
  apply step_unique; [done |]. by intros data ->.
Qed.

End Runs.

(** Over every sequence of events in which the rows of each new-records
    poll have distinct ids and arrive while [photosRef] is up to date, the
    snapshot never holds two entries with one id. *)
Theorem run_keeps_unique_ids (st : Reconciliation.Store) (es : list Reconciliation.event) :
  pollsInSync st es →
  Reconciliation.uniqueIds (Reconciliation.photos st) →
  Reconciliation.uniqueIds (Reconciliation.photos (Reconciliation.run st es)).
Proof. apply run_unique. Qed.

Lemma run_keeps_unique_ids_witness :
  let p0 := freshRow "p0" "100" in
  let p1 := freshRow "p1" "200" in
  let p2 := freshRow "p2" "300" in
  let es := [Reconciliation.LoadedPhotos [p0; p0]; Reconciliation.Rendered;
             Reconciliation.InsertPushed p1; Reconciliation.Uploaded p1;
             Reconciliation.Rendered; Reconciliation.NewFetched [p2; p1];
             Reconciliation.Deleted p0] in
  pollsInSync Reconciliation.initial es
  ∧ Reconciliation.uniqueIds (Reconciliation.photos Reconciliation.initial)
  ∧ Reconciliation.ids (Reconciliation.run Reconciliation.initial es) = ["p2"; "p1"]
  ∧ Reconciliation.uniqueIds
      (Reconciliation.photos (Reconciliation.run Reconciliation.initial es)).
Proof.
  intros p0 p1 p2 es.
  assert (H1 : pollsInSync Reconciliation.initial es).
  { repeat split. by apply (bool_decide_unpack _). }
  assert (H2 : Reconciliation.uniqueIds (Reconciliation.photos Reconciliation.initial))
    by constructor.
  split; [exact H1 |]. split; [exact H2 |]. split; [reflexivity |].
  exact (run_keeps_unique_ids Reconciliation.initial es H1 H2).
Defined.

(** A row that carries tags or a caption ends the pending state of its
    entry: after a realtime update with the row, or an enrichment answer
    whose last row for the id it is, the entry is not pending. *)
Theorem enriched_row_ends_pending (prev data : list Photo) (row p : Photo) (i : nat) :
  prev !! i = Some p →
  id p = id row →
  Reconciliation.isPending row = false →
  List.find (fun r => String.eqb (id r) (id p)) (rev data) = Some row →
  Reconciliation.isPending <$> (Reconciliation.applyUpdate row prev !! i) = Some false
  ∧ Reconciliation.isPending <$> (Reconciliation.applyEnrichment data prev !! i)
    = Some false.
Proof.
  intros Hp Hid Hrow Hlast.
  assert (Hspread : Reconciliation.isPending (spread p row) = false).
  { unfold Reconciliation.isPending in *. simpl.
    destruct (tags row) as [| |[|t ts]]; simpl in *; try done;
      destruct (caption row) as [| |c]; simpl in *; try done;
      rewrite Hrow; by destruct (tags p) as [| |[|]]. }
  rewrite (applyUpdate_lookup _ _ _ _ Hp), (applyEnrichment_lookup _ _ _ _ Hp).
  rewrite (proj2 (sameId_eq p row) Hid), updatesOf_lookup, Hlast. simpl.
  by rewrite Hspread.
Qed.

Lemma enriched_row_ends_pending_witness :
  let p := freshRow "p1" "100" in
  let row := withCaption (Has "x") (withTags (Has ["y"]) p) in
  [p] !! 0 = Some p
  ∧ id p = id row
  ∧ Reconciliation.isPending p = true
  ∧ Reconciliation.isPending row = false
  ∧ List.find (fun r => String.eqb (id r) (id p)) (rev [row]) = Some row
  ∧ Reconciliation.isPending <$> (Reconciliation.applyEnrichment [row] [p] !! 0)
    = Some false.
Proof.
  intros p row.
  assert (H1 : [p] !! 0 = Some p) by reflexivity.
  assert (H2 : id p = id row) by reflexivity.
  assert (H3 : Reconciliation.isPending row = false) by reflexivity.
  assert (H4 : List.find (fun r => String.eqb (id r) (id p)) (rev [row]) = Some row)
    by reflexivity.
  split; [exact H1 |]. split; [exact H2 |]. split; [reflexivity |].
  split; [exact H3 |]. split; [exact H4 |].
  exact (proj2 (enriched_row_ends_pending [p] [row] row p 0 H1 H2 H3 H4)).
Defined.

(** ** Fuzzy scores *)

Section FuzzyScores.

Lemma maxQ_cases x y : maxQ x y = x ∨ maxQ x y = y.
Proof. unfold maxQ. destruct (Qle_bool x y); auto. Qed.

Lemma maxQ_ge_l x y : (x <= maxQ x y)%Q.
Proof.
  unfold maxQ. destruct (Qle_bool x y) eqn:Hxy; [by apply Qle_bool_iff | apply Qle_refl].
Qed.

Lemma maxQ_ge_r x y : (y <= maxQ x y)%Q.
Proof.
  unfold maxQ. destruct (Qle_bool x y) eqn:Hxy; [apply Qle_refl |].
  apply Qnot_lt_le. intros Hlt. apply Qlt_le_weak, Qle_bool_iff in Hlt. congruence.
Qed.

Lemma tokenScore_bounds query token : (0 <= tokenScore query token <= 1)%Q.
Proof.
  unfold tokenScore. destruct (Js.includes token query); [| apply similarity_bounds].
  split; discriminate.
Qed.

Lemma scoreToken_tokenScore query best token :
  token ≠ "" →
  scoreToken similarity query best token = maxQ best (tokenScore query token).
Proof.
  intros Htoken. unfold scoreToken, tokenScore, Js.truthy.
  rewrite bool_decide_false by done. simpl. by destruct (Js.includes token query).
Qed.

Lemma scoreToken_empty query best : scoreToken similarity query best "" = best.
Proof. reflexivity. Qed.

Lemma fold_scores_ge_start query l :
  ∀ best, (best <= fold_left (scoreToken similarity query) l best)%Q.
Proof.
  induction l as [|token l IH]; intros best; simpl; [apply Qle_refl |].
  eapply Qle_trans; [| apply IH].
  destruct (decide (token = "")) as [->|Htoken]; [apply Qle_refl |].
  rewrite scoreToken_tokenScore by done. apply maxQ_ge_l.
Qed.

Lemma fold_scores_ge_token query l :
  ∀ best token, token ∈ l → token ≠ "" →
    (tokenScore query token <= fold_left (scoreToken similarity query) l best)%Q.
Proof.
  induction l as [|t l IH]; intros best token Hin Htoken; simpl.
  - by apply not_elem_of_nil in Hin.
  - apply elem_of_cons in Hin as [->|Hin]; [| by apply IH].
    eapply Qle_trans; [| apply fold_scores_ge_start].
    rewrite scoreToken_tokenScore by done. apply maxQ_ge_r.
Qed.

Lemma fold_scores_attained query l :
  ∀ best,
    fold_left (scoreToken similarity query) l best = best
    ∨ ∃ token, token ∈ l ∧ token ≠ ""
               ∧ fold_left (scoreToken similarity query) l best = tokenScore query token.
Proof.
  induction l as [|t l IH]; intros best; simpl; [by left |].
  destruct (IH (scoreToken similarity query best t)) as [Hsame|(token & Hin & Hne & Htok)].
  - rewrite Hsame. destruct (decide (t = "")) as [->|Ht]; [by left |].
    rewrite scoreToken_tokenScore by done.
    destruct (maxQ_cases best (tokenScore query t)) as [-> | ->]; [by left |].
    right. exists t. split; [by left | done].
  - right. exists token. split; [by right | done].
Qed.

Lemma fold_scores_le_one query l :
  ∀ best, (best <= 1)%Q → (fold_left (scoreToken similarity query) l best <= 1)%Q.
Proof.
  intros best Hbest.
  destruct (fold_scores_attained query l best) as [-> | (token & _ & _ & ->)]; [done |].
  apply tokenScore_bounds.
Qed.

End FuzzyScores.

(** The score of a record is the best score of its non-empty tokens: it
    bounds the score of each of them, it is the score of one of them
    unless it is 0, it lies between 0 and 1, and it is 1 as soon as a token
    contains the query. *)
Theorem bestScore_is_best_token (query : string) (p : Photo) :
  (0 <= bestScore query p <= 1)%Q
  ∧ (∀ token, token ∈ tokens p → token ≠ "" →
              (tokenScore query token <= bestScore query p)%Q)
  ∧ (bestScore query p = 0%Q
     ∨ ∃ token, token ∈ tokens p ∧ token ≠ ""
                ∧ bestScore query p = tokenScore query token)
  ∧ (∀ token, token ∈ tokens p → token ≠ "" → Js.includes token query = true →
              (bestScore query p == 1)%Q).
Proof.
  unfold bestScore, bestScoreWith.
  split; [split; [apply fold_scores_ge_start | by apply fold_scores_le_one] |].
  split; [intros token; apply fold_scores_ge_token |].
  split; [apply fold_scores_attained |].
  intros token Hin Hne Hincl. apply Qle_antisym; [by apply fold_scores_le_one |].
  pose proof (fold_scores_ge_token query (tokens p) 0%Q token Hin Hne) as Hge.
  unfold tokenScore in Hge. by rewrite Hincl in Hge.
Qed.

(** ** The fuzzy list *)

Section FuzzyList.
Context `{Host}.

Lemma byScoreDesc_le (a b : Scored) : byScoreDesc a b = true ↔ (score b <= score a)%Q.
Proof. unfold byScoreDesc. rewrite Qle_bool_iff. split; intros Hle; Lqa.lra. Qed.

Lemma byScoreDesc_Q_total (a b : Scored) :
  byScoreDesc a b = false → byScoreDesc b a = true.
Proof.
  intros Hab. apply byScoreDesc_le. apply not_true_iff_false in Hab.
  rewrite byScoreDesc_le in Hab. apply Qnot_le_lt in Hab. by apply Qlt_le_weak.
Qed.

Lemma byScoreDesc_Q_trans (a b c : Scored) :
  byScoreDesc a b = true → byScoreDesc b c = true → byScoreDesc a c = true.
Proof. rewrite !byScoreDesc_le. intros Hab Hbc. by eapply Qle_trans. Qed.

Lemma scored_hits query (l : list Photo) :
  map photo
    (List.filter (fun s => Qle_bool (42 # 100) (score s))
       (map (fun p => mkScored p (bestScore query p)) l))
  = List.filter (isFuzzyHit query) l.
Proof.
  induction l as [|p l IH]; simpl; [done |]. unfold isFuzzyHit at 1.
  destruct (Qle_bool (42 # 100) (bestScore query p)); simpl; by rewrite IH.
Qed.

Lemma fuzzyMatches_unfold search photos :
  fuzzyMatches search photos
  = if skipsFuzzy search then []
    else map photo
           (jsSort byScoreDesc
              (List.filter (fun s => Qle_bool (42 # 100) (score s))
                 (map (fun p => mkScored p (bestScore (searchLower search) p))
                    (sortedPhotos photos)))).
Proof. reflexivity. Qed.

Lemma fuzzyMatches_perm search photos :
  fuzzyMatches search photos
  ≡ₚ if skipsFuzzy search then []
     else List.filter (isFuzzyHit (searchLower search)) photos.
Proof.
  rewrite fuzzyMatches_unfold. destruct (skipsFuzzy search); [done |].
  rewrite jsSort_perm, scored_hits.
  apply filter_Permutation_bool, sortByDate_perm.
Qed.

Lemma fuzzyMatches_sorted search photos :
  StronglySorted
    (fun p p' => (bestScore (searchLower search) p' <= bestScore (searchLower search) p)%Q)
    (fuzzyMatches search photos).
Proof.
  rewrite fuzzyMatches_unfold. destruct (skipsFuzzy search); [constructor |].
  set (scored := List.filter _ _).
  assert (Hc : Forall (fun s => score s = bestScore (searchLower search) (photo s)) scored).
  { apply Forall_forall. intros s Hs. subst scored.
    apply list_elem_of_In, filter_In in Hs as [Hs _].
    apply in_map_iff in Hs as (p & <- & _). done. }
  apply (jsSort_Forall byScoreDesc) in Hc.
  pose proof (jsSort_sorted byScoreDesc byScoreDesc_Q_total byScoreDesc_Q_trans scored) as Hs.
  induction Hs as [|s l Hl IH Hx]; simpl; constructor.
  - apply IH. by apply Forall_cons in Hc as [_ ?].
  - apply Forall_cons in Hc as [Hs Hc]. rewrite Forall_forall in Hx, Hc.
    apply Forall_fmap, Forall_forall. intros s' Hs'. simpl.
    rewrite <- Hs, <- (Hc s' Hs'). apply byScoreDesc_le. by apply Hx.
Qed.

End FuzzyList.

(** The fuzzy list of a free-text query of three characters or more
    holds exactly the records of the snapshot whose best score is at least
    0.42, each as often as the snapshot does, in descending order of score;
    for the other queries it is empty. *)
Theorem fuzzyMatches_are_ranked_hits `{Host} (search : string) (photos : list Photo) :
  fuzzyMatches search photos
  ≡ₚ (if skipsFuzzy search then []
      else List.filter (isFuzzyHit (searchLower search)) photos)
  ∧ StronglySorted
      (fun p p' => (bestScore (searchLower search) p' <= bestScore (searchLower search) p)%Q)
      (fuzzyMatches search photos).
Proof. split; [apply fuzzyMatches_perm | apply fuzzyMatches_sorted]. Qed.

(** ** What the feed displays *)

Section Displayed.
Context `{Host}.
Import Reconciliation.

Lemma uniqueIds_perm (l k : list Photo) : l ≡ₚ k → uniqueIds k → uniqueIds l.
Proof. unfold uniqueIds. intros Hperm. by rewrite Hperm. Qed.

Lemma sortByDate_unique l : uniqueIds l → uniqueIds (sortByDate l).
Proof. apply uniqueIds_perm, sortByDate_perm. Qed.

Lemma sortByDate_elem_of p l : p ∈ sortByDate l ↔ p ∈ l.
Proof. by rewrite sortByDate_perm. Qed.

Lemma fallbackFiltered_is_filter search photos :
  ∃ keep, fallbackFiltered search photos = List.filter keep (sortedPhotos photos).
Proof.
  unfold fallbackFiltered.
  destruct (negb (Js.truthy (searchLower search))).
  { exists (fun _ => true). symmetry. by apply filter_all. }
  destruct (isExactPhrase search && negb (Js.truthy (exactTerm search))).
  { exists (fun _ => true). symmetry. by apply filter_all. }
  eauto.
Qed.

Lemma fallbackFiltered_elem_of search photos p :
  p ∈ fallbackFiltered search photos → p ∈ photos.
Proof.
  destruct (fallbackFiltered_is_filter search photos) as (keep & ->).
  intros Hin%list_elem_of_In%filter_In. destruct Hin as [Hin _].
  apply list_elem_of_In in Hin. unfold sortedPhotos in Hin.
  by rewrite sortByDate_elem_of in Hin.
Qed.

Lemma fallbackFiltered_unique search photos :
  uniqueIds photos → uniqueIds (fallbackFiltered search photos).
Proof.
  intros Hu. destruct (fallbackFiltered_is_filter search photos) as (keep & ->).
  unfold sortedPhotos. by apply filter_unique, sortByDate_unique.
Qed.

Lemma fuzzyMatches_elem_of search photos p :
  p ∈ fuzzyMatches search photos → p ∈ photos.
Proof.
  rewrite fuzzyMatches_perm. destruct (skipsFuzzy search).
  - by intros ?%not_elem_of_nil.
  - intros Hin%list_elem_of_In%filter_In. destruct Hin as [Hin _].
    by apply list_elem_of_In.
Qed.

Lemma mergeUnique_elem_of fuzzy fallback p :
  p ∈ mergeUnique fuzzy fallback → p ∈ fuzzy ∨ p ∈ fallback.
Proof.
  rewrite mergeUnique_unique, unique_firstById.
  intros Hin. apply elem_of_app.
  eapply elem_of_sublist; [done | apply firstById_sublist].
Qed.

Lemma mergeUnique_uniqueIds fuzzy fallback : uniqueIds (mergeUnique fuzzy fallback).
Proof. rewrite mergeUnique_unique, unique_firstById. apply firstById_uniqueIds. Qed.

End Displayed.

(** When the snapshot holds no id twice and there are no semantic
    results, every displayed photo is a record of the snapshot and no id is
    displayed twice, whatever the query. *)
Theorem displayPhotos_shows_each_record_once `{Host} (search : string)
    (photos : list Photo) (semanticPhotos : option (list Photo)) :
  Reconciliation.uniqueIds photos →
  nonEmpty semanticPhotos = false →
  (∀ p, p ∈ displayPhotos search photos semanticPhotos → p ∈ photos)
  ∧ Reconciliation.uniqueIds (displayPhotos search photos semanticPhotos).
Proof.
  intros Hu Hsem. unfold displayPhotos, displayPhotosWith, sortedPhotos. rewrite Hsem.
  destruct (negb (hasSearch search) || isNoteSearch search).
  { split; [intros p; by rewrite sortByDate_elem_of | by apply sortByDate_unique]. }
  destruct (isExactPhrase search).
  { split.
    - intros p Hp. rewrite sortByDate_elem_of in Hp. by eapply fallbackFiltered_elem_of.
    - by apply sortByDate_unique, fallbackFiltered_unique. }
  destruct (0 <? length (fuzzyMatches search photos)).
  - split.
    + intros p Hp. rewrite sortByDate_elem_of in Hp. apply mergeUnique_elem_of in Hp as [Hp|Hp].
      * by eapply fuzzyMatches_elem_of.
      * by eapply fallbackFiltered_elem_of.
    + apply sortByDate_unique, mergeUnique_uniqueIds.
  - split.
    + intros p Hp. rewrite sortByDate_elem_of in Hp. by eapply fallbackFiltered_elem_of.
    + by apply sortByDate_unique, fallbackFiltered_unique.
Qed.

Lemma displayPhotos_shows_each_record_once_witness :
  let tagged := withTags (Has ["cozy"; "knit"]) (freshRow "p1" "100") in
  let captioned := withCaption (Has "Cozy corner") (freshRow "p2" "200") in
  let other := withCaption (Has "Sunset at the pier") (freshRow "p3" "300") in
  Reconciliation.uniqueIds [tagged; captioned; other]
  ∧ nonEmpty (Some ([] : list Photo)) = false
  ∧ map id (@displayPhotos sampleHost "cozy" [tagged; captioned; other] (Some []))
    = ["p2"; "p1"]
  ∧ Reconciliation.uniqueIds
      (@displayPhotos sampleHost "cozy" [tagged; captioned; other] (Some [])).
Proof.
  intros tagged captioned other.
  assert (H1 : Reconciliation.uniqueIds [tagged; captioned; other])
    by (by apply (bool_decide_unpack _)).
  assert (H2 : nonEmpty (Some ([] : list Photo)) = false) by reflexivity.
  split; [exact H1 |]. split; [exact H2 |].
  split; [vm_compute; reflexivity |].
  exact (proj2 (@displayPhotos_shows_each_record_once sampleHost "cozy"
                  [tagged; captioned; other] (Some []) H1 H2)).
Defined.

(** A list of photos answered by the route reaches [semanticPhotos]
    unchanged and without any log; for a free-text query a non-empty answer
    is what the feed displays, newest first, in place of the text matches,
    and an empty answer leaves the text matches. *)
Theorem semantic_answer_replaces_text_matches `{Host} (search : string)
    (photos answered : list Photo) :
  hasSearch search = true →
  isNoteSearch search = false →
  isExactPhrase search = false →
  SemanticEffect.fetched (SemanticEffect.transport (SemanticSearch.JsonPhotos answered))
  = (Some answered, [])
  ∧ displayPhotos search photos (Some answered)
    = match answered with
      | [] => displayPhotos search photos None
      | _ :: _ => sortByDate answered
      end.
Proof.
  intros Hhas Hnote Hexact. split; [reflexivity |].
  unfold displayPhotos, displayPhotosWith. rewrite Hhas, Hnote, Hexact.
  by destruct answered.
Qed.

Lemma semantic_answer_replaces_text_matches_witness :
  let tagged := withTags (Has ["cozy"; "knit"]) (freshRow "p1" "100") in
  let other := withCaption (Has "Sunset at the pier") (freshRow "p3" "300") in
  let gone := withCaption (Has "Warm blanket") (freshRow "p7" "700") in
  hasSearch "cozy" = true
  ∧ isNoteSearch "cozy" = false
  ∧ isExactPhrase "cozy" = false
  ∧ map id (@displayPhotos sampleHost "cozy" [tagged; other] (Some [other; gone]))
    = ["p7"; "p3"].
Proof.
  intros tagged other gone.
  assert (H1 : hasSearch "cozy" = true) by reflexivity.
  assert (H2 : isNoteSearch "cozy" = false) by reflexivity.
  assert (H3 : isExactPhrase "cozy" = false) by reflexivity.
  destruct (@semantic_answer_replaces_text_matches sampleHost "cozy" [tagged; other]
              [other; gone] H1 H2 H3) as (_ & Hdisplay).
  split; [exact H1 |]. split; [exact H2 |]. split; [exact H3 |].
  rewrite Hdisplay. vm_compute. reflexivity.
Defined.

(** ** Trimming and letter case *)

Section Characters.

Ltac each_ascii c :=
  destruct c as [[] [] [] [] [] [] [] []]; vm_compute; try reflexivity.

Lemma isSpace_lowerChar c : Js.isSpace (Js.lowerChar c) = Js.isSpace c.
Proof. each_ascii c. Qed.

Lemma lowerChar_idem c : Js.lowerChar (Js.lowerChar c) = Js.lowerChar c.
Proof. each_ascii c. Qed.

Lemma lowerChar_dquote c :
  Ascii.eqb (ascii_of_nat 34) (Js.lowerChar c) = Ascii.eqb (ascii_of_nat 34) c.
Proof. each_ascii c. Qed.

Lemma dropSpaces_lower l :
  Js.dropSpaces (map Js.lowerChar l) = map Js.lowerChar (Js.dropSpaces l).
Proof.
  induction l as [|c l IH]; simpl; [done |].
  rewrite isSpace_lowerChar. by destruct (Js.isSpace c).
Qed.

Lemma chars_toLowerCase s : Js.chars (Js.toLowerCase s) = map Js.lowerChar (Js.chars s).
Proof. unfold Js.toLowerCase. by rewrite chars_ofChars. Qed.

Lemma toLowerCase_ofChars l : Js.toLowerCase (Js.ofChars l) = Js.ofChars (map Js.lowerChar l).
Proof. unfold Js.toLowerCase. by rewrite chars_ofChars. Qed.

Lemma toLowerCase_trim s : Js.toLowerCase (Js.trim s) = Js.trim (Js.toLowerCase s).
Proof.
  unfold Js.trim. rewrite toLowerCase_ofChars, chars_toLowerCase.
  by rewrite dropSpaces_lower, <- map_rev, dropSpaces_lower, <- map_rev.
Qed.

Lemma toLowerCase_idem s : Js.toLowerCase (Js.toLowerCase s) = Js.toLowerCase s.
Proof.
  unfold Js.toLowerCase at 1. rewrite chars_toLowerCase, map_map.
  unfold Js.toLowerCase. f_equal. apply map_ext, lowerChar_idem.
Qed.

Lemma dropSpaces_noLeadingSpace l : noLeadingSpace (Js.dropSpaces l).
Proof.
  induction l as [|c l IH]; simpl; [done |].
  by destruct (Js.isSpace c) eqn:Hc.
Qed.

Lemma dropSpaces_fixed l : noLeadingSpace l → Js.dropSpaces l = l.
Proof. destruct l as [|c l]; simpl; [done |]. by intros ->. Qed.

Lemma dropSpaces_suffix l : ∃ blanks, l = (blanks ++ Js.dropSpaces l)%list.
Proof.
  induction l as [|c l [blanks IH]]; simpl; [by exists [] |].
  destruct (Js.isSpace c); [| by exists []].
  exists (c :: blanks). simpl. by rewrite <- IH.
Qed.

Lemma trimmed_back_noLeadingSpace l :
  noLeadingSpace l → noLeadingSpace (rev (Js.dropSpaces (rev l))).
Proof.
  intros Hl. destruct (dropSpaces_suffix (rev l)) as [blanks Hrev].
  apply (f_equal (@rev ascii)) in Hrev. rewrite rev_involutive, rev_app_distr in Hrev.
  destruct (rev (Js.dropSpaces (rev l))) as [|c k]; [done |].
  rewrite Hrev in Hl. exact Hl.
Qed.

Lemma chars_trim s :
  Js.chars (Js.trim s) = rev (Js.dropSpaces (rev (Js.dropSpaces (Js.chars s)))).
Proof. unfold Js.trim. by rewrite chars_ofChars. Qed.

Lemma trim_idem s : Js.trim (Js.trim s) = Js.trim s.
Proof.
  unfold Js.trim at 1. rewrite chars_trim.
  set (t := rev (Js.dropSpaces (rev (Js.dropSpaces (Js.chars s))))).
  assert (Hlead : noLeadingSpace t).
  { apply trimmed_back_noLeadingSpace, dropSpaces_noLeadingSpace. }
  assert (Htrail : noLeadingSpace (rev t)).
  { subst t. rewrite rev_involutive. apply dropSpaces_noLeadingSpace. }
  rewrite (dropSpaces_fixed t Hlead), (dropSpaces_fixed (rev t) Htrail), rev_involutive.
  unfold Js.trim. by fold t.
Qed.

End Characters.

(** ** Queries that differ in letter case *)

Section CaseInsensitive.

Lemma startsWith_dquote_lower q :
  Js.startsWith (Js.toLowerCase q) dquote = Js.startsWith q dquote.
Proof.
  destruct q as [|c q]; [done |].
  unfold Js.startsWith, dquote. rewrite toLowerCase_String, !prefix_String.
  pose proof (lowerChar_dquote c) as Hc.
  destruct (ascii_dec (ascii_of_nat 34) (Js.lowerChar c)) as [Hl|Hl];
    destruct (ascii_dec (ascii_of_nat 34) c) as [Hu|Hu]; simpl; try reflexivity.
  - by destruct q.
  - exfalso. apply Hu. apply Ascii.eqb_eq. rewrite <- Hc. by apply Ascii.eqb_eq.
  - exfalso. apply Hl. apply Ascii.eqb_eq. rewrite Hc. by apply Ascii.eqb_eq.
Qed.

Lemma endsWith_dquote_lower q :
  Js.endsWith (Js.toLowerCase q) dquote = Js.endsWith q dquote.
Proof.
  unfold Js.endsWith. rewrite chars_toLowerCase, <- map_rev, <- toLowerCase_ofChars.
  apply startsWith_dquote_lower.
Qed.

Lemma map_removelast {A B} (f : A → B) (l : list A) :
  map f (removelast l) = removelast (map f l).
Proof.
  induction l as [|x l IH]; [done |].
  destruct l as [|y l]; [done |]. simpl in *. by rewrite IH.
Qed.

Lemma toLowerCase_slice q : Js.toLowerCase (Js.slice1m1 q) = Js.slice1m1 (Js.toLowerCase q).
Proof.
  unfold Js.slice1m1. rewrite toLowerCase_ofChars, chars_toLowerCase, map_removelast.
  do 2 f_equal. by destruct (Js.chars q).
Qed.

Lemma truthy_lower q : Js.truthy (Js.toLowerCase q) = Js.truthy q.
Proof. by destruct q. Qed.

Lemma isExactPhrase_lower search :
  isExactPhrase search
  = (1 <? String.length (searchLower search))
    && Js.startsWith (searchLower search) dquote
    && Js.endsWith (searchLower search) dquote.
Proof.
  unfold isExactPhrase, searchLower.
  by rewrite toLowerCase_length, startsWith_dquote_lower, endsWith_dquote_lower.
Qed.

Lemma exactTerm_lower search :
  exactTerm search
  = if isExactPhrase search then Js.trim (Js.slice1m1 (searchLower search)) else "".
Proof.
  unfold exactTerm, searchLower. by rewrite toLowerCase_trim, toLowerCase_slice.
Qed.

Lemma hasSearch_lower search : hasSearch search = Js.truthy (searchLower search).
Proof. unfold hasSearch, searchLower. by rewrite truthy_lower. Qed.

Context `{Host}.

Lemma same_lower_same_lists s1 s2 photos :
  searchLower s1 = searchLower s2 →
  fuzzyMatches s1 photos = fuzzyMatches s2 photos
  ∧ fallbackFiltered s1 photos = fallbackFiltered s2 photos.
Proof.
  intros Hlower.
  assert (Hexact : isExactPhrase s1 = isExactPhrase s2)
    by (by rewrite !isExactPhrase_lower, Hlower).
  assert (Hterm : exactTerm s1 = exactTerm s2)
    by (by rewrite !exactTerm_lower, Hexact, Hlower).
  assert (Hnote : isNoteSearch s1 = isNoteSearch s2)
    by (unfold isNoteSearch; by rewrite Hlower).
  split.
  - unfold fuzzyMatches, fuzzyMatchesWith. by rewrite Hlower, Hexact, Hnote.
  - unfold fallbackFiltered. by rewrite Hlower, Hexact, Hterm.
Qed.

End CaseInsensitive.



(** ** The request of the page, as the route receives it *)

(** A request the page sends passes the validation of the route: the
    route never answers it with status 400, embeds the trimmed content of
    the search box and selects the rows of the signed-in owner. *)
Theorem page_request_passes_validation `{Host} (search : string) (owner : option string)
    (r : SemanticSearch.Request)
    (embed : string → SemanticSearch.EmbedResult)
    (select : string → SemanticSearch.SelectResult) :
  SemanticEffect.request search owner = Some r →
  ∃ ownerId,
    owner = Some ownerId
    ∧ (∀ message, SemanticSearch.POST (Some r) embed select ≠ SemanticSearch.Plain 400 message)
    ∧ SemanticSearch.POST (Some r) embed select
      = match embed (Js.trim search) with
        | SemanticSearch.EmbedThrows =>
            SemanticSearch.Plain 500 "Error performing semantic search"
        | SemanticSearch.EmbedEmpty => SemanticSearch.Plain 500 "Embedding failed"
        | SemanticSearch.Embedded queryEmbedding =>
            match select ownerId with
            | SemanticSearch.SelectError => SemanticSearch.Plain 500 "Error fetching photos"
            | SemanticSearch.Selected data =>
                SemanticSearch.JsonPhotos
                  (SemanticSearch.top (SemanticSearch.scoreAll queryEmbedding (default [] data)))
            end
        end.
Proof.
  unfold SemanticEffect.request. intros Hrequest.
  destruct owner as [ownerId|]; [| done]. exists ownerId. split; [done |].
  destruct (Js.truthy (Js.trim search)) eqn:Hquery; [| done].
  destruct (isNoteSearch search); [done |].
  destruct (isExactPhrase search); [done |].
  destruct (Js.truthy ownerId) eqn:Howner; [| done].
  simpl in Hrequest. injection Hrequest as <-.
  assert (Hpost : SemanticSearch.POST
                    (Some (SemanticSearch.mkRequest (Has (Js.trim search)) (Has ownerId)))
                    embed select
                  = match embed (Js.trim search) with
                    | SemanticSearch.EmbedThrows =>
                        SemanticSearch.Plain 500 "Error performing semantic search"
                    | SemanticSearch.EmbedEmpty => SemanticSearch.Plain 500 "Embedding failed"
                    | SemanticSearch.Embedded queryEmbedding =>
                        match select ownerId with
                        | SemanticSearch.SelectError =>
                            SemanticSearch.Plain 500 "Error fetching photos"
                        | SemanticSearch.Selected data =>
                            SemanticSearch.JsonPhotos
                              (SemanticSearch.top
                                 (SemanticSearch.scoreAll queryEmbedding (default [] data)))
                        end
                    end).
  { unfold SemanticSearch.POST. cbn [SemanticSearch.query SemanticSearch.ownerId orElse].
    by rewrite trim_idem, Hquery, Howner. }
  split; [| done]. intros message. rewrite Hpost.
  destruct (embed (Js.trim search)); [done | done |].
  by destruct (select ownerId).
Qed.

Lemma page_request_passes_validation_witness :
  let embed := fun _ : string => SemanticSearch.Embedded [1%R; 0%R] in
  let select := fun _ : string => SemanticSearch.Selected (Some []) in
  let r := SemanticSearch.mkRequest (Has "warm light") (Has "owner-1") in
  @SemanticEffect.request sampleHost "  warm light " (Some "owner-1") = Some r
  ∧ ∀ message,
      SemanticSearch.POST (Some r) embed select ≠ SemanticSearch.Plain 400 message.
Proof.
  intros embed select r.
  assert (Hrequest : @SemanticEffect.request sampleHost "  warm light " (Some "owner-1") = Some r)
    by (vm_compute; reflexivity).
  split; [exact Hrequest |].
  destruct (@page_request_passes_validation sampleHost "  warm light " (Some "owner-1") r
              embed select Hrequest) as (ownerId & _ & Hnever & _).
  exact Hnever.
Defined.

(** ** The mixed feed *)

Section FeedOrder.
Import Feed.
Context `{Host}.
Variable pinnedNoteIds : list string.

Lemma feedBefore_spec a b : feedBefore pinnedNoteIds a b = true ↔ feedOrder pinnedNoteIds a b.
Proof.
  unfold feedBefore, feedOrder.
  destruct (itemPinned pinnedNoteIds a), (itemPinned pinnedNoteIds b); simpl;
    rewrite ?Z.leb_le; split; intros; try tauto; try lia; intuition (try discriminate; lia).
Qed.

Lemma feedBefore_total a b :
  feedBefore pinnedNoteIds a b = false → feedBefore pinnedNoteIds b a = true.
Proof.
  unfold feedBefore.
  destruct (itemPinned pinnedNoteIds a), (itemPinned pinnedNoteIds b); simpl;
    rewrite ?Z.leb_le, ?Z.leb_gt; try done; lia.
Qed.

Lemma feedBefore_trans a b c :
  feedBefore pinnedNoteIds a b = true → feedBefore pinnedNoteIds b c = true →
  feedBefore pinnedNoteIds a c = true.
Proof.
  unfold feedBefore.
  destruct (itemPinned pinnedNoteIds a), (itemPinned pinnedNoteIds b),
    (itemPinned pinnedNoteIds c); simpl; rewrite ?Z.leb_le; try done; lia.
Qed.

Lemma sortFeedItems_sorted items :
  StronglySorted (feedOrder pinnedNoteIds) (sortFeedItems pinnedNoteIds items).
Proof.
  pose proof (jsSort_sorted (feedBefore pinnedNoteIds) feedBefore_total feedBefore_trans
                items) as Hs.
  unfold sortFeedItems. induction Hs as [|x k Hk IH Hx]; constructor; [done |].
  eapply Forall_impl; [exact Hx |]. intros y Hy. by apply feedBefore_spec.
Qed.

Lemma sortFeedItems_perm items : sortFeedItems pinnedNoteIds items ≡ₚ items.
Proof. apply jsSort_perm. Qed.

(** Items that are alike for the order keep their places. *)
Lemma sortInsert_feed_stable (pin : bool) (t : Z) x l :
  List.filter (sameRank pinnedNoteIds pin t) (sortInsert (feedBefore pinnedNoteIds) x l)
  = List.filter (sameRank pinnedNoteIds pin t) (x :: l).
Proof.
  induction l as [|y l IH]; [done |].
  cbn [sortInsert]. destruct (feedBefore pinnedNoteIds x y) eqn:Hxy; [done |].
  cbn [List.filter] in *. rewrite IH.
  destruct (sameRank pinnedNoteIds pin t x) eqn:Hx; [| done].
  destruct (sameRank pinnedNoteIds pin t y) eqn:Hy; [| done].
  exfalso. apply not_true_iff_false in Hxy. apply Hxy.
  apply feedBefore_spec. right. unfold sameRank in Hx, Hy.
  apply andb_true_iff in Hx as [Hxp Hxt]. apply andb_true_iff in Hy as [Hyp Hyt].
  apply eqb_prop in Hxp, Hyp. apply Z.eqb_eq in Hxt, Hyt. split; [congruence | lia].
Qed.

Lemma sortFeedItems_stable (pin : bool) (t : Z) items :
  List.filter (sameRank pinnedNoteIds pin t) (sortFeedItems pinnedNoteIds items)
  = List.filter (sameRank pinnedNoteIds pin t) items.
Proof.
  induction items as [|x l IH]; [done |].
  unfold sortFeedItems in *. cbn [jsSort foldr]. fold (jsSort (feedBefore pinnedNoteIds) l).
  rewrite sortInsert_feed_stable. cbn [List.filter]. by rewrite IH.
Qed.

Lemma photos_feedOrder l :
  StronglySorted newerFirst l → StronglySorted (feedOrder pinnedNoteIds) (map ofPhoto l).
Proof.
  induction 1 as [|p l Hl IH Hp]; simpl; constructor; [done |].
  apply Forall_map. eapply Forall_impl; [exact Hp |].
  intros q Hq. right. split; [done |]. exact Hq.
Qed.

End FeedOrder.

(** [sortFeedItems] rearranges the items it is given: pinned notes come
    first, then everything else, and within each group the newer item comes
    first; items of the same group and instant keep their order. *)
Theorem sortFeedItems_pinned_then_newest `{Host} (pinnedNoteIds : list string)
    (items : list Feed.FeedItem) (pin : bool) (t : Z) :
  Feed.sortFeedItems pinnedNoteIds items ≡ₚ items
  ∧ StronglySorted (Feed.feedOrder pinnedNoteIds) (Feed.sortFeedItems pinnedNoteIds items)
  ∧ (∀ before a after,
        Feed.sortFeedItems pinnedNoteIds items = (before ++ a :: after)%list →
        Feed.itemPinned pinnedNoteIds a = true →
        Forall (fun i => Feed.itemPinned pinnedNoteIds i = true) before)
  ∧ List.filter (Feed.sameRank pinnedNoteIds pin t) (Feed.sortFeedItems pinnedNoteIds items)
    = List.filter (Feed.sameRank pinnedNoteIds pin t) items.
Proof.
  split; [apply sortFeedItems_perm |].
  split; [apply sortFeedItems_sorted |].
  split; [| apply sortFeedItems_stable].
  intros before a after Heq Ha.
  pose proof (sortFeedItems_sorted pinnedNoteIds items) as Hs. rewrite Heq in Hs.
  clear Heq. induction before as [|b before IH]; [constructor |].
  simpl in Hs. apply StronglySorted_inv in Hs as [Hs Hb].
  constructor; [| by apply IH].
  rewrite Forall_app, Forall_cons in Hb. destruct Hb as (_ & [[Hb _]|[Hb _]] & _);
    [done | congruence].
Qed.

(** In every mode the feed shows pinned notes first and, apart from that,
    newer items before older ones. *)
Theorem displayItems_pinned_first_then_newest `{Host} (search : string)
    (notes : list Note.t) (photos : list Photo) (semanticPhotos : option (list Photo))
    (pinnedNoteIds : list string) :
  StronglySorted (Feed.feedOrder pinnedNoteIds)
    (Feed.displayItems search notes photos semanticPhotos pinnedNoteIds).
Proof.
  unfold Feed.displayItems.
  destruct (hasSearch search); [| apply sortFeedItems_sorted].
  destruct (isNoteSearch search) eqn:Hnote; [apply sortFeedItems_sorted |].
  apply photos_feedOrder.
  unfold displayPhotos, displayPhotosWith, sortedPhotos.
  repeat (match goal with |- context [if ?c then _ else _] => destruct c end);
    apply sortByDate_sorted.
Qed.

Section FeedContents.
Import Feed.
Context `{Host}.

Lemma map_drop {A B} (f : A → B) (n : nat) (l : list A) :
  map f (drop n l) = drop n (map f l).
Proof. revert l. induction n as [|n IH]; intros [|x l]; simpl; auto. Qed.

Lemma noteSearchQuery_lower search :
  Js.toLowerCase (noteSearchQuery search) = noteSearchQuery search.
Proof.
  unfold noteSearchQuery. destruct (isNoteSearch search) eqn:Hnote; [| done].
  rewrite toLowerCase_trim. f_equal.
  unfold stripNotePrefix. unfold isNoteSearch in Hnote. rewrite Hnote.
  rewrite toLowerCase_ofChars. f_equal.
  unfold searchLower. rewrite chars_toLowerCase, map_drop, map_map.
  f_equal. apply map_ext, lowerChar_idem.
Qed.

Lemma noteSearchResults_perm search notes :
  isNoteSearch search = true →
  noteSearchResults search notes ≡ₚ List.filter (noteMatches search) notes.
Proof.
  intros Hnote. unfold noteSearchResults, noteMatches. rewrite Hnote. simpl.
  destruct (Js.truthy (noteSearchQuery search)) eqn:Hq; simpl.
  - rewrite jsSort_perm. by rewrite noteSearchQuery_lower.
  - by rewrite filter_all.
Qed.

Lemma isNoteSearch_hasSearch search : isNoteSearch search = true → hasSearch search = true.
Proof.
  unfold isNoteSearch, hasSearch, searchLower. intros Hnote.
  destruct (searchQuery search); [done | done].
Qed.

Lemma ofPhoto_items l :
  Forall (fun i => isPhotoItem i = true) (map ofPhoto l) ∧ photosOf (map ofPhoto l) = l.
Proof.
  induction l as [|p l [IH1 IH2]]; [done |]. split.
  - by constructor.
  - simpl. by rewrite IH2.
Qed.

Lemma displayItems_cases search notes photos semanticPhotos pinnedNoteIds :
  (hasSearch search = false →
   displayItems search notes photos semanticPhotos pinnedNoteIds
   ≡ₚ (map ofNote notes ++ map ofPhoto photos)%list)
  ∧ (isNoteSearch search = true →
     displayItems search notes photos semanticPhotos pinnedNoteIds
     ≡ₚ map ofNote (List.filter (noteMatches search) notes))
  ∧ (hasSearch search = true → isNoteSearch search = false →
     Forall (fun i => isPhotoItem i = true)
       (displayItems search notes photos semanticPhotos pinnedNoteIds)
     ∧ photosOf (displayItems search notes photos semanticPhotos pinnedNoteIds)
       = displayPhotos search photos semanticPhotos).
Proof.
  unfold displayItems. split; [| split].
  - intros ->. rewrite sortFeedItems_perm.
    apply Permutation_app; [done |]. apply Permutation_map.
    unfold sortedPhotos. apply sortByDate_perm.
  - intros Hnote. rewrite (isNoteSearch_hasSearch _ Hnote), Hnote.
    rewrite sortFeedItems_perm. apply Permutation_map.
    by apply noteSearchResults_perm.
  - intros -> ->. apply ofPhoto_items.
Qed.

(** A note of the feed is a note of the page. *)
Lemma displayItems_note search notes photos semanticPhotos pinnedNoteIds c n :
  NoteItem c n ∈ displayItems search notes photos semanticPhotos pinnedNoteIds →
  n ∈ notes.
Proof.
  destruct (displayItems_cases search notes photos semanticPhotos pinnedNoteIds)
    as (Hnone & Hnotes & Hphotos).
  intros Hin. destruct (hasSearch search) eqn:Hsearch.
  - destruct (isNoteSearch search) eqn:Hnote.
    + rewrite (Hnotes eq_refl) in Hin.
      apply list_elem_of_In, in_map_iff in Hin as (m & Heq & Hm).
      injection Heq as _ ->. by apply filter_In in Hm as [Hm%list_elem_of_In _].
    + destruct (Hphotos eq_refl eq_refl) as [Hall _].
      rewrite Forall_forall in Hall. by apply Hall in Hin.
  - rewrite (Hnone eq_refl) in Hin. apply elem_of_app in Hin as [Hin|Hin].
    + apply list_elem_of_In, in_map_iff in Hin as (m & Heq & Hm).
      injection Heq as _ ->. by apply list_elem_of_In.
    + by apply list_elem_of_In, in_map_iff in Hin as (m & Heq & Hm).
Qed.

End FeedContents.

(** What the feed holds.  Without a query: every note and every photo,
    each as often as the page holds it.  For a query that starts with
    [note:] (in any case): no photo, and the notes whose body holds the rest
    of the query, compared without regard to case; all notes when nothing
    follows the prefix.  For any other query: no note, and the photos of
    [displayPhotos] in their order. *)
Theorem displayItems_contents `{Host} (search : string) (notes : list Note.t)
    (photos : list Photo) (semanticPhotos : option (list Photo))
    (pinnedNoteIds : list string) :
  (hasSearch search = false →
   Feed.displayItems search notes photos semanticPhotos pinnedNoteIds
   ≡ₚ (map Feed.ofNote notes ++ map Feed.ofPhoto photos)%list)
  ∧ (isNoteSearch search = true →
     Feed.displayItems search notes photos semanticPhotos pinnedNoteIds
     ≡ₚ map Feed.ofNote (List.filter (Feed.noteMatches search) notes)
     ∧ Js.toLowerCase (Feed.noteSearchQuery search) = Feed.noteSearchQuery search)
  ∧ (hasSearch search = true → isNoteSearch search = false →
     Forall (fun i => Feed.isPhotoItem i = true)
       (Feed.displayItems search notes photos semanticPhotos pinnedNoteIds)
     ∧ Feed.photosOf (Feed.displayItems search notes photos semanticPhotos pinnedNoteIds)
       = displayPhotos search photos semanticPhotos).
Proof.
  destruct (displayItems_cases search notes photos semanticPhotos pinnedNoteIds)
    as (Hnone & Hnotes & Hphotos).
  split; [exact Hnone |]. split; [| exact Hphotos].
  intros Hnote. split; [by apply Hnotes | apply noteSearchQuery_lower].
Qed.

(** ** Pinned notes and deleted notes *)

Section Pins.
Import Feed.

Lemma elem_of_filter_bool {A} (f : A → bool) (l : list A) x :
  x ∈ List.filter f l ↔ x ∈ l ∧ f x = true.
Proof. by rewrite !list_elem_of_In, filter_In. Qed.

Lemma NoDup_filter_bool {A} (f : A → bool) (l : list A) :
  NoDup l → NoDup (List.filter f l).
Proof.
  induction 1 as [|x l Hx Hl IH]; simpl; [constructor |].
  destruct (f x); [| done]. constructor; [| done].
  rewrite elem_of_filter_bool. tauto.
Qed.

Lemma eqb_other (x y : string) : negb (String.eqb x y) = true ↔ x ≠ y.
Proof. rewrite negb_true_iff. apply String.eqb_neq. Qed.

Lemma arrayFromSet_elem_of x l : x ∈ arrayFromSet l ↔ x ∈ l.
Proof.
  induction l as [|y l IH]; simpl; [done |].
  rewrite !elem_of_cons, elem_of_filter_bool, IH, eqb_other.
  destruct (decide (x = y)); tauto.
Qed.

Lemma arrayFromSet_NoDup l : NoDup (arrayFromSet l).
Proof.
  induction l as [|y l IH]; simpl; constructor.
  - rewrite elem_of_filter_bool, eqb_other. tauto.
  - by apply NoDup_filter_bool.
Qed.

Lemma toggled_elem_of id prev x :
  x ∈ toggled id prev ↔ (x ≠ id ∧ x ∈ prev) ∨ (x = id ∧ id ∉ prev).
Proof.
  unfold toggled. case_bool_decide as Hin; rewrite arrayFromSet_elem_of in Hin.
  - rewrite elem_of_filter_bool, arrayFromSet_elem_of, eqb_other. tauto.
  - rewrite elem_of_app, arrayFromSet_elem_of, list_elem_of_singleton.
    destruct (decide (x = id)) as [->|]; tauto.
Qed.

Lemma toggled_NoDup id prev : NoDup (toggled id prev).
Proof.
  unfold toggled. case_bool_decide as Hin.
  - apply NoDup_filter_bool, arrayFromSet_NoDup.
  - apply NoDup_app. split; [apply arrayFromSet_NoDup |].
    split; [| apply NoDup_singleton].
    intros x Hx ->%list_elem_of_singleton. done.
Qed.

Lemma isNotePinned_toggled id prev x :
  isNotePinned (toggled id prev) x
  = if String.eqb x id then negb (isNotePinned prev x) else isNotePinned prev x.
Proof.
  unfold isNotePinned. destruct (String.eqb_spec x id) as [->|Hne].
  - case_bool_decide as H1; case_bool_decide as H2; try done;
      rewrite toggled_elem_of in H1; tauto.
  - apply bool_decide_ext. rewrite toggled_elem_of. tauto.
Qed.

End Pins.

(** Pinning toggles: [togglePinNote] flips whether the note is pinned and
    changes this for no other note; doing it twice gives every note the
    pin it had.  The list of pins it leaves has no duplicates and is the
    list written to the local storage, so that loading the stored pins
    gives the same state; the notes and the open note stay as they are. *)
Theorem togglePinNote_flips_one_pin (note : Note.t) (st : Feed.Store) (x : string) :
  let st' := Feed.togglePinNote note st in
  Feed.isNotePinned (Feed.pinnedNoteIds st') x
  = (if String.eqb x (Note.id note)
     then negb (Feed.isNotePinned (Feed.pinnedNoteIds st) x)
     else Feed.isNotePinned (Feed.pinnedNoteIds st) x)
  ∧ Feed.isNotePinned (Feed.pinnedNoteIds (Feed.togglePinNote note st')) x
    = Feed.isNotePinned (Feed.pinnedNoteIds st) x
  ∧ NoDup (Feed.pinnedNoteIds st')
  ∧ Feed.loadPins st' = st'
  ∧ Feed.notes st' = Feed.notes st
  ∧ Feed.selectedNote st' = Feed.selectedNote st.
Proof.
  intros st'. unfold st', Feed.togglePinNote. cbn [Feed.pinnedNoteIds].
  split; [apply isNotePinned_toggled |].
  split; [| split; [apply toggled_NoDup | done]].
  rewrite !isNotePinned_toggled. destruct (String.eqb x (Note.id note)); [| done].
  apply negb_involutive.
Qed.

(** A note that was deleted is gone: it is no longer among the notes, not
    pinned, not the open note, and no query brings it back into the feed;
    the other notes and pins stay.  When the store refuses or the call
    fails, nothing changes and the user is told. *)
Theorem deleted_note_is_gone `{Host} (owner : string) (note : Note.t) (st : Feed.Store) :
  owner ≠ "" →
  let st' := (Feed.handleDeleteNote (Some owner) note Feed.DeleteDone st).1 in
  (∀ n, n ∈ Feed.notes st' ↔ n ∈ Feed.notes st ∧ Note.id n ≠ Note.id note)
  ∧ (∀ x, Feed.isNotePinned (Feed.pinnedNoteIds st') x
          = Feed.isNotePinned (Feed.pinnedNoteIds st) x && negb (String.eqb x (Note.id note)))
  ∧ (∀ n, Feed.selectedNote st' = Some n →
          Feed.selectedNote st = Some n ∧ Note.id n ≠ Note.id note)
  ∧ Feed.loadPins st' = st'
  ∧ (∀ search photos semanticPhotos c n,
        Feed.NoteItem c n
        ∈ Feed.displayItems search (Feed.notes st') photos semanticPhotos
            (Feed.pinnedNoteIds st') →
        Note.id n ≠ Note.id note)
  ∧ (∀ result, result ≠ Feed.DeleteDone →
        (Feed.handleDeleteNote (Some owner) note result st).1 = st
        ∧ SemanticEffect.Alert "Error deleting note"
          ∈ (Feed.handleDeleteNote (Some owner) note result st).2).
Proof.
  intros Howner st'.
  assert (Htruthy : Js.truthy owner = true) by (unfold Js.truthy; by rewrite bool_decide_false).
  unfold st', Feed.handleDeleteNote. rewrite Htruthy. cbn [negb fst snd].
  cbn [Feed.notes Feed.pinnedNoteIds Feed.selectedNote].
  assert (Hnotes : ∀ n,
             n ∈ List.filter (fun n => negb (String.eqb (Note.id n) (Note.id note)))
                   (Feed.notes st)
             ↔ n ∈ Feed.notes st ∧ Note.id n ≠ Note.id note).
  { intros n. by rewrite elem_of_filter_bool, eqb_other. }
  split; [exact Hnotes |]. split; [| split; [| split; [done | split]]].
  - intros x. unfold Feed.isNotePinned.
    destruct (String.eqb_spec x (Note.id note)) as [->|Hne]; cbn [negb].
    + rewrite andb_false_r. apply bool_decide_eq_false.
      rewrite elem_of_filter_bool, eqb_other. tauto.
    + rewrite andb_true_r. apply bool_decide_ext.
      rewrite elem_of_filter_bool, eqb_other. tauto.
  - intros n. destruct (Feed.selectedNote st) as [prev|]; [| done].
    destruct (String.eqb_spec (Note.id prev) (Note.id note)); [done |].
    by intros [= ->].
  - intros search photos semanticPhotos c n Hin.
    apply displayItems_note in Hin. by apply Hnotes in Hin as [_ ?].
  - intros result Hresult. destruct result; [| | done]; cbn [fst snd].
    + split; [done |]. apply elem_of_cons. right. apply elem_of_cons. by left.
    + split; [done |]. apply elem_of_cons. right. apply elem_of_cons. by left.
Qed.

Lemma deleted_note_is_gone_witness :
  let milk := Note.mk "n1" (Has "buy milk") "200" in
  let call := Note.mk "n2" (Has "call home") "100" in
  let st := Feed.mkStore [milk; call] ["n1"] (Some milk) (Some ["n1"]) in
  let st' := (Feed.handleDeleteNote (Some "owner-1") milk Feed.DeleteDone st).1 in
  "owner-1" ≠ ""
  ∧ st' = Feed.mkStore [call] [] None (Some [])
  ∧ ∀ search photos semanticPhotos c n,
      Feed.NoteItem c n
      ∈ @Feed.displayItems sampleHost search (Feed.notes st') photos semanticPhotos
          (Feed.pinnedNoteIds st') →
      Note.id n ≠ "n1".
Proof.
  intros milk call st st'.
  assert (Howner : "owner-1" ≠ "") by discriminate.
  split; [exact Howner |]. split; [vm_compute; reflexivity |].
  destruct (@deleted_note_is_gone sampleHost "owner-1" milk st Howner)
    as (_ & _ & _ & _ & Hfeed & _).
  exact Hfeed.
Defined.

(** ** Re-embedding and the tag editor *)

Section TagEdits.

Lemma applyTags_lookup selected newTags newEmbedding prev i :
  Reconciliation.applyTags selected newTags newEmbedding prev !! i
  = (fun p =>
       if String.eqb (id p) selected
       then withEmbedding
              (match newEmbedding with
               | Has e => Has e
               | Absent | Null => embedding p
               end)
              (withTags (storedTags newTags) p)
       else p) <$> prev !! i.
Proof.
  unfold Reconciliation.applyTags.
  revert i. induction prev as [|q prev IH]; intros [|i]; simpl; try done.
Qed.

Lemma POST_saved req selectRow embed update :
  (Reembed.POST req selectRow embed update).2
  = match (Reembed.POST req selectRow embed update).1 with
    | Reembed.JsonEmbedding e => [(orElse (default Absent req) "", e)]
    | Reembed.Plain _ _ => []
    end.
Proof.
  unfold Reembed.POST. destruct req as [body|]; [| done]. simpl.
  destruct (Js.truthy (orElse body "")); [| done]. simpl.
  destruct (selectRow _) as [|[row|]]; try done.
  destruct (embed _); try done.
  by destruct (update _ _).
Qed.

Lemma filter_keep {A} (f : A → bool) (l : list A) :
  (∀ x, x ∈ l → f x = true) → List.filter f l = l.
Proof.
  induction l as [|x l IH]; simpl; [done |]. intros Hf.
  rewrite (Hf x) by (by left). f_equal. apply IH. intros y Hy. apply Hf. by right.
Qed.

End TagEdits.

(** The re-embedding route answers an embedding exactly when the request
    names a photo, the row is found, the description of the row embeds, and
    the store saves the vector; the vector it answers is the one it saved
    for that photo.  Every other answer has status 400, 404 or 500 and
    nothing was saved. *)
Theorem reembed_answers_what_it_saved (req : option (field string))
    (selectRow : string → Reembed.RowResult)
    (embed : string → SemanticSearch.EmbedResult)
    (update : string → list number → bool) :
  (∀ e, (Reembed.POST req selectRow embed update).1 = Reembed.JsonEmbedding e ↔
        ∃ photoId row,
          req = Some (Has photoId) ∧ photoId ≠ ""
          ∧ selectRow photoId = Reembed.RowFound (Some row)
          ∧ embed (Reembed.buildDescription row) = SemanticSearch.Embedded e
          ∧ update photoId e = false)
  ∧ (∀ e, (Reembed.POST req selectRow embed update).1 = Reembed.JsonEmbedding e →
          ∃ photoId, req = Some (Has photoId)
                     ∧ (Reembed.POST req selectRow embed update).2 = [(photoId, e)])
  ∧ (∀ status message,
        (Reembed.POST req selectRow embed update).1 = Reembed.Plain status message →
        (Reembed.POST req selectRow embed update).2 = []
        ∧ (status = 400 ∨ status = 404 ∨ status = 500)).
Proof.
  assert (Hiff : ∀ e, (Reembed.POST req selectRow embed update).1 = Reembed.JsonEmbedding e ↔
        ∃ photoId row,
          req = Some (Has photoId) ∧ photoId ≠ ""
          ∧ selectRow photoId = Reembed.RowFound (Some row)
          ∧ embed (Reembed.buildDescription row) = SemanticSearch.Embedded e
          ∧ update photoId e = false).
  { intros e. unfold Reembed.POST. split.
    - destruct req as [body|]; [| done]. unfold Js.truthy.
      case_bool_decide as Hid; [done |]. simpl.
      destruct body as [| |photoId]; [done | done |]. simpl in *.
      destruct (selectRow photoId) as [|[row|]] eqn:Hrow; try done.
      destruct (embed _) as [| |v] eqn:Hembed; try done.
      destruct (update photoId v) eqn:Hupdate; [done |].
      simpl. intros [= <-]. by exists photoId, row.
    - intros (photoId & row & -> & Hid & Hrow & Hembed & Hupdate). simpl.
      unfold Js.truthy. rewrite bool_decide_false by done. simpl.
      by rewrite Hrow, Hembed, Hupdate. }
  split; [exact Hiff |]. split.
  - intros e He. rewrite POST_saved, He.
    apply Hiff in He as (photoId & row & -> & _). by exists photoId.
  - intros status message Hplain. rewrite POST_saved, Hplain. split; [done |].
    revert Hplain. unfold Reembed.POST.
    destruct req as [body|]; [| intros [= <- _]; tauto].
    destruct (negb _); [intros [= <- _]; tauto |].
    destruct (selectRow _) as [|[row|]]; try (intros [= <- _]; tauto).
    destruct (embed _); try (intros [= <- _]; tauto).
    destruct (update _ _); [intros [= <- _]; tauto | done].
Qed.

(** A tag edit reaches the page only after the store took it.  When the
    update of the tags fails, the user is alerted and the photos of the page
    stay as they are.  When it succeeds, the entry of the edited photo gets
    the new tags ([null] for none) and, if the re-embedding route answered
    an embedding, that embedding, which is the one the route saved;
    otherwise it keeps its embedding.  No other field and no other entry
    changes. *)
Theorem tag_edit_page_follows_store (photos : list Photo) (i : nat) (p : Photo)
    (next : option (list string))
    (selectRow : string → Reembed.RowResult)
    (embed : string → SemanticSearch.EmbedResult)
    (update : string → list number → bool) :
  photos !! i = Some p →
  let route := Reembed.POST (Some (Has (id p))) selectRow embed update in
  let after := TagEditor.persisted (id p) next false (TagEditor.Answered route.1) photos in
  after !! i
  = Some (withEmbedding
            (match route.2 with
             | (_, e) :: _ => Has e
             | [] => embedding p
             end)
            (withTags (storedTags next) p))
  ∧ (∀ j q, photos !! j = Some q → id q ≠ id p → after !! j = Some q)
  ∧ map id after = map id photos
  ∧ (∀ reembed,
        TagEditor.persisted (id p) next true reembed photos = photos
        ∧ SemanticEffect.Alert "Error updating tags"
          ∈ (TagEditor.persistTags next true reembed).2).
Proof.
  intros Hp route after.
  assert (Hafter : after
                   = Reconciliation.applyTags (id p) next
                       (match route.1 with
                        | Reembed.JsonEmbedding e => Has e
                        | Reembed.Plain _ _ => Absent
                        end) photos).
  { unfold after, TagEditor.persisted, TagEditor.persistTags.
    destruct route.1 as [status message|e]; [| done].
    by destruct ((200 <=? status) && (status <=? 299)). }
  split; [| split; [| split]].
  - rewrite Hafter, applyTags_lookup, Hp. simpl. rewrite String.eqb_refl.
    f_equal. f_equal. unfold route. rewrite POST_saved.
    by destruct (Reembed.POST _ _ _ _).1.
  - intros j q Hq Hne. rewrite Hafter, applyTags_lookup, Hq. simpl.
    by apply String.eqb_neq in Hne as ->.
  - rewrite Hafter. apply applyTags_ids.
  - intros reembed. split; [done |]. simpl. apply elem_of_cons. right.
    apply elem_of_cons. by left.
Qed.

Lemma tag_edit_page_follows_store_witness :
  let p := withTags (Has ["cozy"]) (freshRow "p1" "100") in
  let q := freshRow "p2" "200" in
  let selectRow := fun _ : string =>
    Reembed.RowFound (Some (Reembed.mkRow "p1" Null (Has ["cozy"; "knit"]) Null)) in
  let embed := fun _ : string => SemanticSearch.Embedded [1%R; 0%R] in
  let update := fun (_ : string) (_ : list number) => false in
  [q; p] !! 1 = Some p
  ∧ TagEditor.persisted "p1" (Some ["cozy"; "knit"]) false
      (TagEditor.Answered (Reembed.POST (Some (Has "p1")) selectRow embed update).1) [q; p]
    !! 1
    = Some (withEmbedding (Has [1%R; 0%R]) (withTags (Has ["cozy"; "knit"]) p)).
Proof.
  intros p q selectRow embed update.
  assert (Hp : [q; p] !! 1 = Some p) by reflexivity.
  split; [exact Hp |].
  destruct (tag_edit_page_follows_store [q; p] 1 p (Some ["cozy"; "knit"])
              selectRow embed update Hp) as (Hentry & _).
  exact Hentry.
Defined.

(** Adding a tag stores the trimmed, lower-cased input at the end of the
    list and clears the input; a blank input changes nothing and persists
    nothing.  Removing a tag removes every copy of it and persists [null]
    when no tag is left.  Removing a tag right after adding it gives back
    the list without that tag: the list as it was if the tag is new, a
    shorter one if the list already held it, because adding does not look for
    duplicates. *)
Theorem handleAdd_then_handleRemove (st : TagEditor.State) :
  let value := Js.toLowerCase (Js.trim (TagEditor.input st)) in
  let added := (TagEditor.handleAdd st).1 in
  (Js.trim (TagEditor.input st) = "" → TagEditor.handleAdd st = (st, None))
  ∧ (Js.trim (TagEditor.input st) ≠ "" →
     TagEditor.handleAdd st
     = (TagEditor.mkState (TagEditor.tags st ++ [value]) "",
        Some (Some (TagEditor.tags st ++ [value])%list))
     ∧ TagEditor.tags (TagEditor.handleRemove value added).1
       = List.filter (fun t => negb (String.eqb t value)) (TagEditor.tags st)
     ∧ (value ∉ TagEditor.tags st →
        TagEditor.tags (TagEditor.handleRemove value added).1 = TagEditor.tags st))
  ∧ (∀ tag,
        tag ∉ TagEditor.tags (TagEditor.handleRemove tag st).1
        ∧ ((TagEditor.handleRemove tag st).2 = None ↔
           TagEditor.tags (TagEditor.handleRemove tag st).1 = [])
        ∧ (∀ kept, (TagEditor.handleRemove tag st).2 = Some kept →
                   kept = TagEditor.tags (TagEditor.handleRemove tag st).1)).
Proof.
  intros value added. unfold added, value, TagEditor.handleAdd, TagEditor.handleRemove.
  split; [| split].
  - intros ->. done.
  - intros Hvalue. unfold Js.truthy. rewrite bool_decide_false by done. simpl.
    split; [done |].
    assert (Hfilter :
              List.filter
                (fun t => negb (String.eqb t (Js.toLowerCase (Js.trim (TagEditor.input st)))))
                (TagEditor.tags st ++ [Js.toLowerCase (Js.trim (TagEditor.input st))])
              = List.filter
                  (fun t => negb (String.eqb t (Js.toLowerCase (Js.trim (TagEditor.input st)))))
                  (TagEditor.tags st)).
    { rewrite List.filter_app. simpl. rewrite String.eqb_refl. simpl. apply app_nil_r. }
    split; [exact Hfilter |].
    intros Hnew. rewrite Hfilter. apply filter_keep.
    intros t Ht. apply eqb_other. by intros ->.
  - intros tag. simpl. split; [| split].
    + rewrite elem_of_filter_bool, eqb_other. tauto.
    + by destruct (List.filter _ _).
    + intros kept. destruct (List.filter _ _); [done | by intros [= <-]].
Qed.

(** ** Sign-in *)

Section SignIn.
Import Login.

Lemma allowedEmails_lower : map Js.toLowerCase allowedEmails = allowedEmails.
Proof. vm_compute. reflexivity. Qed.

Lemma isEmailAllowed_spec email :
  isEmailAllowed email = true ↔ Js.toLowerCase (Js.trim email) ∈ allowedEmails.
Proof. unfold isEmailAllowed. rewrite allowedEmails_lower. apply bool_decide_eq_true. Qed.

Lemma normal_form_idem email :
  Js.toLowerCase (Js.trim (Js.toLowerCase (Js.trim email))) = Js.toLowerCase (Js.trim email).
Proof.
  rewrite (toLowerCase_trim email), trim_idem, toLowerCase_trim.
  by rewrite toLowerCase_idem.
Qed.

End SignIn.

(** A sign-in link is requested only for an approved address: the form
    calls [signInWithOtp] at most once, with the address as typed, and only
    when the address, trimmed and lower-cased, is on the list.  Any other
    address leaves the form idle with the refusal message.  The check does
    not depend on letter case or on blanks around the address. *)
Theorem login_link_only_for_approved_email (email : string)
    (signIn : string → option string) :
  (∀ address, address ∈ (Login.handleSubmit email signIn).2 →
              address = email ∧ Js.toLowerCase (Js.trim email) ∈ Login.allowedEmails)
  ∧ (Js.toLowerCase (Js.trim email) ∉ Login.allowedEmails →
     Login.handleSubmit email signIn
     = (Login.mkState Login.idle (Some "This email is not approved for access."), []))
  ∧ (Js.toLowerCase (Js.trim email) ∈ Login.allowedEmails →
     (Login.handleSubmit email signIn).2 = [email]
     ∧ (Login.status (Login.handleSubmit email signIn).1 = Login.sent ↔ signIn email = None))
  ∧ (∀ other, Js.toLowerCase (Js.trim other) = Js.toLowerCase (Js.trim email) →
              Login.isEmailAllowed other = Login.isEmailAllowed email)
  ∧ Login.isEmailAllowed (Js.toLowerCase (Js.trim email)) = Login.isEmailAllowed email.
Proof.
  pose proof (isEmailAllowed_spec email) as Hspec.
  unfold Login.handleSubmit.
  split; [| split; [| split; [| split]]].
  - intros address. destruct (Login.isEmailAllowed email); simpl.
    + destruct (signIn email); simpl; intros ->%list_elem_of_singleton;
        (split; [done | by apply Hspec]).
    + by intros ?%elem_of_nil.
  - intros Hout. destruct (Login.isEmailAllowed email); [| done].
    exfalso. by apply Hout, Hspec.
  - intros Hin. apply Hspec in Hin as ->. simpl.
    destruct (signIn email); simpl; split; try done; split; done.
  - intros other Hother. unfold Login.isEmailAllowed. by rewrite Hother.
  - unfold Login.isEmailAllowed. by rewrite normal_form_idem.
Qed.

(** ** Saving a remote photo *)

Section SaveRemotePhoto.
Import SaveRemote.

Lemma length_positive (s : string) : (0 <? String.length s) = true ↔ s ≠ "".
Proof. destruct s; simpl; [by split | by split]. Qed.

Lemma tokenOwners_named e : e ∈ Tokens.tokenOwners → Tokens.ownerId e ≠ "".
Proof.
  unfold Tokens.tokenOwners. rewrite !elem_of_cons, elem_of_nil.
  by intros [->|[->|[]]].
Qed.

Lemma ownerIdForToken_listed t owner :
  Tokens.ownerIdForToken t = Some owner →
  ∃ s e, t = Has s ∧ s ≠ "" ∧ e ∈ Tokens.tokenOwners
         ∧ Tokens.normalize (Tokens.token e) = Tokens.normalize s
         ∧ Tokens.ownerId e = owner.
Proof.
  unfold Tokens.ownerIdForToken. destruct t as [| |s]; [done | done |].
  intros (Hs & pre & e & post & Htable & Hmatch & Howner & _)%lookupIn_some.
  exists s, e. repeat split; try done.
  rewrite Htable. apply elem_of_app. right. by left.
Qed.

Lemma resolvedOwner_cases body owner :
  resolvedOwner body = Some owner →
  (ownerId body = Has owner ∧ Js.trim owner ≠ "")
  ∨ (∃ s e, token body = Has s ∧ s ≠ "" ∧ e ∈ Tokens.tokenOwners
            ∧ Tokens.normalize (Tokens.token e) = Tokens.normalize s
            ∧ Tokens.ownerId e = owner).
Proof.
  unfold resolvedOwner. destruct (ownerId body) as [| |o].
  - intros ?%ownerIdForToken_listed. by right.
  - intros ?%ownerIdForToken_listed. by right.
  - destruct (0 <? String.length (Js.trim o)) eqn:Hlen.
    + intros [= ->]. left. split; [done |]. by apply length_positive.
    + intros ?%ownerIdForToken_listed. by right.
Qed.

Lemma resolvedOwner_named body owner : resolvedOwner body = Some owner → owner ≠ "".
Proof.
  intros [[_ Htrim]|(s & e & _ & _ & He & _ & <-)]%resolvedOwner_cases.
  - intros ->. by apply Htrim.
  - by apply tokenOwners_named.
Qed.

Lemma resolvedOwner_truthy body :
  Js.truthy (default "" (resolvedOwner body)) = true ↔ ∃ owner, resolvedOwner body = Some owner.
Proof.
  destruct (resolvedOwner body) as [owner|] eqn:Hresolved; simpl.
  - split; [by exists owner |]. intros _. unfold Js.truthy.
    rewrite bool_decide_false; [done |]. by eapply resolvedOwner_named.
  - split; [done | by intros [? ?]].
Qed.

End SaveRemotePhoto.

(** The route writes only for an accepted request, and for its owner.
    An answer with status 400 comes before any write, and a request with no
    resolved owner gets one.  The owner is an [ownerId] that is not blank,
    taken as it is whatever the token; otherwise the one the allowlist gives
    for the token, compared trimmed and without regard to case.  Every row
    the route inserts belongs to the resolved owner, who is never the empty
    string, and carries the note of the request as its caption ([null] for
    none).  A successful answer holds the inserted row, or that row enriched
    by the analysis, in which case the enriched fields were also written to
    the row; a note of the request stays the caption. *)
Theorem save_remote_writes_for_resolved_owner (w : SaveRemote.World)
    (req : option SaveRemote.Body) :
  (∀ message, (SaveRemote.POST w req).1 = SaveRemote.Error 400 message →
              (SaveRemote.POST w req).2 = [])
  ∧ (∀ body, req = Some body → SaveRemote.resolvedOwner body = None →
             ∃ message, SaveRemote.POST w req = (SaveRemote.Error 400 message, []))
  ∧ (∀ body o, SaveRemote.ownerId body = Has o → Js.trim o ≠ "" →
               SaveRemote.resolvedOwner body = Some o)
  ∧ (∀ body owner,
        SaveRemote.resolvedOwner body = Some owner →
        owner ≠ ""
        ∧ ((SaveRemote.ownerId body = Has owner ∧ Js.trim owner ≠ "")
           ∨ (∃ s e, SaveRemote.token body = Has s ∧ s ≠ "" ∧ e ∈ Tokens.tokenOwners
                     ∧ Tokens.normalize (Tokens.token e) = Tokens.normalize s
                     ∧ Tokens.ownerId e = owner)))
  ∧ (∀ row, SaveRemote.Insert row ∈ (SaveRemote.POST w req).2 →
            ∃ body, req = Some body
                    ∧ SaveRemote.resolvedOwner body = Some (InsertRow.owner_id row)
                    ∧ InsertRow.caption row = orNull (SaveRemote.note body)
                    ∧ InsertRow.source_url row = orNull (SaveRemote.sourceUrl body))
  ∧ (∀ photo, (SaveRemote.POST w req).1 = SaveRemote.Success photo →
              ∃ body row inserted,
                req = Some body
                ∧ SaveRemote.Insert row ∈ (SaveRemote.POST w req).2
                ∧ SaveRemote.insert w row = Some inserted
                ∧ (photo = inserted
                   ∨ ∃ a, photo = SaveRemote.enrich (SaveRemote.note body) inserted a
                          ∧ SaveRemote.Update (id inserted) photo
                            ∈ (SaveRemote.POST w req).2))
  ∧ (∀ n inserted a, n ≠ "" →
                     caption (SaveRemote.enrich (Has n) inserted a) = Has n).
Proof.
  split; [| split; [| split; [| split; [| split; [| split]]]]].
  - unfold SaveRemote.POST.
    intros message. destruct req as [body|]; [| done].
    destruct (negb (Js.truthy (orElse (SaveRemote.imageUrl body) ""))); [done |].
    destruct (negb (Js.truthy (default "" (SaveRemote.resolvedOwner body)))); [done |].
    destruct (SaveRemote.fetchImage w _) as [|[] header]; [done | | done].
    destruct (SaveRemote.uploadFails w _ _); [done |].
    destruct (SaveRemote.insert w _) as [inserted|]; [| done].
    by destruct (SaveRemote.analyze w _ _).
  - unfold SaveRemote.POST. intros body -> Hnone. rewrite Hnone. simpl.
    destruct (negb (Js.truthy (orElse (SaveRemote.imageUrl body) ""))); eauto.
  - intros body o Ho Htrim. unfold SaveRemote.resolvedOwner. rewrite Ho.
    by apply length_positive in Htrim as ->.
  - intros body owner Hresolved. split; [by eapply resolvedOwner_named |].
    by apply resolvedOwner_cases.
  - unfold SaveRemote.POST.
    intros row. destruct req as [body|]; [| by intros ?%elem_of_nil].
    destruct (negb (Js.truthy (orElse (SaveRemote.imageUrl body) "")));
      [by intros ?%elem_of_nil |].
    destruct (Js.truthy (default "" (SaveRemote.resolvedOwner body))) eqn:Howner;
      [| by intros ?%elem_of_nil].
    apply resolvedOwner_truthy in Howner as [owner Howner]. rewrite Howner. simpl.
    destruct (SaveRemote.fetchImage w _) as [|[] header];
      [by intros ?%elem_of_nil | | by intros ?%elem_of_nil].
    destruct (SaveRemote.uploadFails w _ _).
    { simpl. rewrite list_elem_of_singleton. done. }
    assert (Hrow : ∀ calls,
               (∀ r, SaveRemote.Insert r ∈ calls → False) →
               SaveRemote.Insert row
               ∈ SaveRemote.Upload
                   ("remote-" ++ SaveRemote.now w ++ "."
                    ++ SaveRemote.guessExt (orElse header ""))
                   (if Js.truthy (orElse header "") then orElse header "" else "image/jpeg")
                 :: SaveRemote.Insert
                      (InsertRow.mk
                         (SaveRemote.publicUrl w
                            ("remote-" ++ SaveRemote.now w ++ "."
                             ++ SaveRemote.guessExt (orElse header "")))
                         (orNull (SaveRemote.note body))
                         (orNull (SaveRemote.sourceUrl body)) owner)
                 :: calls →
               ∃ body0, Some body = Some body0
                        ∧ SaveRemote.resolvedOwner body0 = Some (InsertRow.owner_id row)
                        ∧ InsertRow.caption row = orNull (SaveRemote.note body0)
                        ∧ InsertRow.source_url row = orNull (SaveRemote.sourceUrl body0)).
    { intros calls Hcalls. rewrite !elem_of_cons.
      intros [Hrow|[Hrow|Hrow]]; [done | | by apply Hcalls in Hrow].
      injection Hrow as ->. by exists body. }
    destruct (SaveRemote.insert w _) as [inserted|]; simpl.
    + destruct (SaveRemote.analyze w _ _); simpl; apply Hrow; intros r.
      * by intros ?%elem_of_nil.
      * by intros ?%elem_of_nil.
      * rewrite list_elem_of_singleton. done.
    + apply Hrow. intros r. by intros ?%elem_of_nil.
  - unfold SaveRemote.POST.
    intros photo. destruct req as [body|]; [| done].
    destruct (negb (Js.truthy (orElse (SaveRemote.imageUrl body) ""))); [done |].
    destruct (negb (Js.truthy (default "" (SaveRemote.resolvedOwner body)))); [done |].
    destruct (SaveRemote.fetchImage w _) as [|[] header]; [done | | done].
    destruct (SaveRemote.uploadFails w _ _); [done |].
    destruct (SaveRemote.insert w _) as [inserted|] eqn:Hinsert; [| done].
    destruct (SaveRemote.analyze w _ _) as [| |a]; simpl; intros [= <-].
    + eexists body, _, inserted. split; [done |].
      split; [apply elem_of_cons; right; apply elem_of_cons; by left |].
      split; [exact Hinsert | by left].
    + eexists body, _, inserted. split; [done |].
      split; [apply elem_of_cons; right; apply elem_of_cons; by left |].
      split; [exact Hinsert | by left].
    + eexists body, _, inserted. split; [done |].
      split; [apply elem_of_cons; right; apply elem_of_cons; by left |].
      split; [exact Hinsert |]. right. exists a. split; [done |].
      apply elem_of_cons; right. apply elem_of_cons; right. apply elem_of_cons. by left.
  - intros n inserted a Hn. simpl. unfold Js.truthy.
    by rewrite bool_decide_false.
Qed.
